(** * Connect Game: rules engine, gravity, win detection and the Offensive AI

    A shallow embedding of [js/connect-game.js] (classes [AIStrategy],
    [OffensiveAI], [Player] and [ConnectGame]) together with the properties
    that its specification states about them.

    Conventions of the embedding.
    - Coordinates, [width], [height], [winLength] and [turnCount] are JS
      numbers holding integers; they are modelled as [Z].  Player indices and
      team numbers are array indices and are modelled as [nat].
    - The board is the array of arrays the code builds in [reset]:
      [list (list (option nat))], with [None] for [null].
    - A method that can throw (a property read on [undefined]) or that
      contains an unbounded loop returns a [result]: [Ret v] for a normal
      completion, [TypeError] for the throw, [OutOfFuel] when the loop budget
      of the model is exhausted.  The budget is fixed by the model from the
      board dimensions; [getGravityTarget_total], [applyGravity_spec] and
      [makeMove_spec] show that a well-formed game never exhausts it.
    - [Math.random] is an input: the drawn value is an extra argument. *)

From Stdlib Require Import ZArith Lia Bool Ascii String.
From stdpp Require Import base tactics option list list_numbers gmap.

Local Open Scope Z_scope.

(** ** Completions *)

Inductive result (A : Type) : Type :=
| Ret (a : A)
| TypeError
| OutOfFuel.
Arguments Ret {A} a.
Arguments TypeError {A}.
Arguments OutOfFuel {A}.

#[global] Instance result_ret : MRet result := @Ret.
#[global] Instance result_bind : MBind result := fun A B f m =>
  match m with
  | Ret a => f a
  | TypeError => TypeError
  | OutOfFuel => OutOfFuel
  end.

(** ** Data model *)

(** [gravityDirection] is one of the four strings of the array
    [['down', 'right', 'up', 'left']]. *)
Inductive GravityDirection : Type := dir_down | dir_right | dir_up | dir_left.

#[global] Instance GravityDirection_eq_dec : EqDecision GravityDirection.
Proof. solve_decision. Defined.

(** [gravityRotation.mode], a value of the settings form. *)
Inductive RotationMode : Type :=
| mode_none | mode_clockwise | mode_counterclockwise | mode_random.

Record GravityRotation : Type := {
  turns : Z;
  mode : RotationMode
}.

(** [class Player]; the display colour and the AI strategy id play no part in
    the rules and are left out. *)
Record Player : Type := {
  index : nat;
  team : option nat
}.

Abbreviation Board := (list (list (option nat))).

(** [class ConnectGame]: the constructor arguments followed by the fields
    that [reset] initialises. *)
Record ConnectGame : Type := {
  width : Z;
  height : Z;
  winLength : Z;
  gravity : bool;
  players : list Player;
  gravityRotation : option GravityRotation;
  teamCollaboration : bool;
  board : Board;
  currentPlayerIndex : nat;
  gameOver : bool;
  winner : option string;
  winningCells : list (Z * Z);
  turnCount : Z;
  gravityDirection : GravityDirection
}.

(** The value [checkWin] returns when it is not [null]. *)
Record WinResult : Type := {
  win_winner : string;
  win_cells : list (Z * Z);
  win_playerIndex : nat
}.

(** Field assignments. *)
Definition set_board (g : ConnectGame) (b : Board) : ConnectGame :=
  {| width := width g; height := height g; winLength := winLength g;
     gravity := gravity g; players := players g;
     gravityRotation := gravityRotation g;
     teamCollaboration := teamCollaboration g;
     board := b; currentPlayerIndex := currentPlayerIndex g;
     gameOver := gameOver g; winner := winner g;
     winningCells := winningCells g; turnCount := turnCount g;
     gravityDirection := gravityDirection g |}.

Definition set_currentPlayerIndex (g : ConnectGame) (i : nat) : ConnectGame :=
  {| width := width g; height := height g; winLength := winLength g;
     gravity := gravity g; players := players g;
     gravityRotation := gravityRotation g;
     teamCollaboration := teamCollaboration g;
     board := board g; currentPlayerIndex := i;
     gameOver := gameOver g; winner := winner g;
     winningCells := winningCells g; turnCount := turnCount g;
     gravityDirection := gravityDirection g |}.

Definition set_over (g : ConnectGame) (w : option string) (cells : list (Z * Z))
  : ConnectGame :=
  {| width := width g; height := height g; winLength := winLength g;
     gravity := gravity g; players := players g;
     gravityRotation := gravityRotation g;
     teamCollaboration := teamCollaboration g;
     board := board g; currentPlayerIndex := currentPlayerIndex g;
     gameOver := true; winner := w;
     winningCells := cells; turnCount := turnCount g;
     gravityDirection := gravityDirection g |}.

Definition set_turnCount (g : ConnectGame) (n : Z) : ConnectGame :=
  {| width := width g; height := height g; winLength := winLength g;
     gravity := gravity g; players := players g;
     gravityRotation := gravityRotation g;
     teamCollaboration := teamCollaboration g;
     board := board g; currentPlayerIndex := currentPlayerIndex g;
     gameOver := gameOver g; winner := winner g;
     winningCells := winningCells g; turnCount := n;
     gravityDirection := gravityDirection g |}.

Definition set_gravityDirection (g : ConnectGame) (d : GravityDirection)
  : ConnectGame :=
  {| width := width g; height := height g; winLength := winLength g;
     gravity := gravity g; players := players g;
     gravityRotation := gravityRotation g;
     teamCollaboration := teamCollaboration g;
     board := board g; currentPlayerIndex := currentPlayerIndex g;
     gameOver := gameOver g; winner := winner g;
     winningCells := winningCells g; turnCount := turnCount g;
     gravityDirection := d |}.

(** ** Number formatting used by the winner label *)

Definition digitChar (d : nat) : ascii :=
  nth d (list_ascii_of_string "0123456789ABCDEF") "?"%char.

Fixpoint digitsOf (fuel base n : nat) (acc : string) : string :=
  match fuel with
  | O => acc
  | S f =>
      let acc' := String (digitChar (n mod base)%nat) acc in
      if (n / base =? 0)%nat then acc' else digitsOf f base (n / base)%nat acc'
  end.

(** [n.toString(base)] followed by [toUpperCase()], for base 10 or 16. *)
Definition toStringBase (base n : nat) : string := digitsOf (S n) base n "".

(** [Player.getName]. *)
Definition getName (p : Player) : string :=
  match team p with
  | Some t =>
      ("Team " ++ toStringBase 10 (t + 1)%nat ++ " - Player "
         ++ toStringBase 16 (index p))%string
  | None => ("Player " ++ toStringBase 16 (index p))%string
  end.

(** ** Board access *)

(** [board[r][c]].  Every read in the source sits behind a bounds check
    against [height] and [width], and the board keeps the dimensions given by
    [reset] (invariant [board_dims] below); on such a board the indices are in
    range.  Outside the range JavaScript yields [undefined] or throws; the
    model returns [None] there and no theorem depends on it. *)
Definition getCell (b : Board) (r c : Z) : option nat :=
  if (r <? 0) || (c <? 0) then None
  else match b !! Z.to_nat r with
       | Some rw => match rw !! Z.to_nat c with
                    | Some x => x
                    | None => None
                    end
       | None => None
       end.

(** [board[r][c] = v], for an index in range (every write in the source
    follows a bounds check or uses a cell taken from the board). *)
Definition setCell (b : Board) (r c : Z) (v : option nat) : Board :=
  if (r <? 0) || (c <? 0) then b
  else match b !! Z.to_nat r with
       | Some rw => <[Z.to_nat r := <[Z.to_nat c := v]> rw]> b
       | None => b
       end.

(** The test [r < 0 || r >= height || c < 0 || c >= width]. *)
Definition outOfBounds (g : ConnectGame) (r c : Z) : bool :=
  (r <? 0) || (r >=? height g) || (c <? 0) || (c >=? width g).

(** The cells visited by [for row < height] / [for col < width], row-major. *)
Definition allCells (g : ConnectGame) : list (Z * Z) :=
  row ← seqZ 0 (height g); (fun col => (row, col)) <$> seqZ 0 (width g).

(** [ConnectGame.reset]. *)
Definition reset (g : ConnectGame) : ConnectGame :=
  {| width := width g; height := height g; winLength := winLength g;
     gravity := gravity g; players := players g;
     gravityRotation := gravityRotation g;
     teamCollaboration := teamCollaboration g;
     board := replicate (Z.to_nat (height g)) (replicate (Z.to_nat (width g)) None);
     currentPlayerIndex := 0%nat;
     gameOver := false; winner := None;
     winningCells := []; turnCount := 0;
     gravityDirection := dir_down |}.

(** ** Gravity *)

(** The [switch] on [gravityDirection] that sets [dr] and [dc]. *)
Definition delta (d : GravityDirection) : Z * Z :=
  match d with
  | dir_down => (1, 0)
  | dir_up => (-1, 0)
  | dir_right => (0, 1)
  | dir_left => (0, -1)
  end.

(** The [while (true)] loop of [getGravityTarget]; [fuel] bounds the number of
    steps taken. *)
Fixpoint gravityFall (fuel : nat) (g : ConnectGame) (dr dc newRow newCol : Z)
  : result (Z * Z) :=
  let nextRow := newRow + dr in
  let nextCol := newCol + dc in
  if outOfBounds g nextRow nextCol
     || bool_decide (getCell (board g) nextRow nextCol ≠ None)
  then Ret (newRow, newCol)
  else match fuel with
       | O => OutOfFuel
       | S f => gravityFall f g dr dc nextRow nextCol
       end.

(** Step budget of [getGravityTarget]: a piece crosses at most the whole
    grid. *)
Definition fallBudget (g : ConnectGame) : nat :=
  Z.to_nat (Z.max (height g) (width g)).

(** [ConnectGame.getGravityTarget]. *)
Definition getGravityTarget (g : ConnectGame) (row col : Z) : result (Z * Z) :=
  if negb (gravity g) then Ret (row, col)
  else
    let '(dr, dc) := delta (gravityDirection g) in
    gravityFall (fallBudget g) g dr dc row col.

(** [ConnectGame.isValidMove]. *)
Definition isValidMove (g : ConnectGame) (row col : Z) : result bool :=
  if gameOver g then Ret false
  else if outOfBounds g row col then Ret false
  else if gravity g then
    '(targetRow, targetCol) ← getGravityTarget g row col;
    if negb (targetRow =? row) || negb (targetCol =? col) then Ret false
    else Ret (bool_decide (getCell (board g) row col = None))
  else Ret (bool_decide (getCell (board g) row col = None)).

(** [positions.sort(cmp)]: JavaScript's sort is stable, so it is modelled by
    insertion from the right; [cmp a b <= 0] keeps [a] in front of [b]. *)
Fixpoint insertBy (cmp : Z * Z -> Z * Z -> Z) (x : Z * Z) (l : list (Z * Z))
  : list (Z * Z) :=
  match l with
  | [] => [x]
  | y :: l' => if cmp x y <=? 0 then x :: l else y :: insertBy cmp x l'
  end.

Definition sortBy (cmp : Z * Z -> Z * Z -> Z) (l : list (Z * Z)) : list (Z * Z) :=
  foldr (insertBy cmp) [] l.

(** The comparator chosen by the [switch] of [applyGravity]. *)
Definition gravityOrder (d : GravityDirection) (a b : Z * Z) : Z :=
  match d with
  | dir_down => b.1 - a.1
  | dir_up => a.1 - b.1
  | dir_right => b.2 - a.2
  | dir_left => a.2 - b.2
  end.

(** The occupied cells collected at the start of a pass. *)
Definition occupiedCells (g : ConnectGame) : list (Z * Z) :=
  List.filter (fun '(row, col) => bool_decide (getCell (board g) row col ≠ None))
              (allCells g).

(** The [for (const [row, col] of positions)] loop of [applyGravity]. *)
Fixpoint gravityPass (g : ConnectGame) (positions : list (Z * Z)) (changed : bool)
  : result (ConnectGame * bool) :=
  match positions with
  | [] => Ret (g, changed)
  | (row, col) :: rest =>
      match getCell (board g) row col with
      | None => gravityPass g rest changed
      | Some piece =>
          '(newRow, newCol) ← getGravityTarget g row col;
          if negb (newRow =? row) || negb (newCol =? col) then
            let b1 := setCell (board g) newRow newCol (Some piece) in
            let b2 := setCell b1 row col None in
            gravityPass (set_board g b2) rest true
          else gravityPass g rest changed
      end
  end.

(** The [while (changed)] loop of [applyGravity]; [fuel] bounds the number of
    passes. *)
Fixpoint applyGravityLoop (fuel : nat) (g : ConnectGame) : result ConnectGame :=
  match fuel with
  | O => OutOfFuel
  | S f =>
      '(g', changed) ←
        gravityPass g (sortBy (gravityOrder (gravityDirection g)) (occupiedCells g))
                    false;
      if (changed : bool) then applyGravityLoop f g' else Ret g'
  end.

(** Pass budget of [applyGravity]: every pass that changes the board moves a
    piece at least one cell closer to the wall. *)
Definition passBudget (g : ConnectGame) : nat :=
  S (Z.to_nat (height g * width g * Z.max (height g) (width g))).

(** [ConnectGame.applyGravity]. *)
Definition applyGravity (g : ConnectGame) : result ConnectGame :=
  if negb (gravity g) then Ret g else applyGravityLoop (passBudget g) g.

(** [directions[(currentIndex + k) % 4]] over
    [['down', 'right', 'up', 'left']]. *)
Definition directionIndex (d : GravityDirection) : nat :=
  match d with
  | dir_down => 0 | dir_right => 1 | dir_up => 2 | dir_left => 3
  end%nat.

Definition directionAt (i : nat) : GravityDirection :=
  match i with
  | 0 => dir_down | 1 => dir_right | 2 => dir_up | _ => dir_left
  end%nat.

(** [ConnectGame.rotateGravityIfNeeded]; [rnd] is the direction drawn by
    [directions[Math.floor(Math.random() * directions.length)]]. *)
Definition rotateGravityIfNeeded (g : ConnectGame) (rnd : GravityDirection)
  : result ConnectGame :=
  match gravityRotation g with
  | None => Ret g
  | Some gr =>
      match mode gr with
      | mode_none => Ret g
      | m =>
          let g1 := set_turnCount g (turnCount g + 1) in
          (* [x % 0] is [NaN], which is not [=== 0] *)
          if negb (turns gr =? 0) && (Z.rem (turnCount g1) (turns gr) =? 0) then
            let d :=
              match m with
              | mode_random => rnd
              | mode_clockwise =>
                  directionAt ((directionIndex (gravityDirection g1) + 1) mod 4)%nat
              | mode_counterclockwise =>
                  directionAt ((directionIndex (gravityDirection g1) + 3) mod 4)%nat
              | mode_none => gravityDirection g1
              end in
            applyGravity (set_gravityDirection g1 d)
          else Ret g1
      end
  end.

(** ** Win detection *)

(** [this.players[i].team]; the read throws when [players[i]] is
    [undefined]. *)
Definition teamOf (g : ConnectGame) (i : nat) : result (option nat) :=
  match players g !! i with
  | Some p => Ret (team p)
  | None => TypeError
  end.

(** [players[playerIndex].team !== null &&
     players[cell].team === players[playerIndex].team]. *)
Definition sameTeam (g : ConnectGame) (playerIndex cell : nat) : result bool :=
  t ← teamOf g playerIndex;
  match t with
  | None => Ret false
  | Some _ => t' ← teamOf g cell; Ret (bool_decide (t' = t))
  end.

Definition directions : list (Z * Z) := [(0, 1); (1, 0); (1, 1); (1, -1)].

(** The loop [for (let i = 1; i < winLength; i++)] of [checkWin]; [n] is the
    number of iterations left. *)
Fixpoint extendRun (n : nat) (g : ConnectGame) (playerIndex : nat)
    (row col dr dc i : Z) (cells : list (Z * Z)) : result (list (Z * Z)) :=
  match n with
  | O => Ret cells
  | S n' =>
      let newRow := row + dr * i in
      let newCol := col + dc * i in
      if outOfBounds g newRow newCol then Ret cells
      else match getCell (board g) newRow newCol with
           | None => Ret cells
           | Some cellPlayer =>
               countsTowardWin ←
                 (if (cellPlayer =? playerIndex)%nat then Ret true
                  else if teamCollaboration g then sameTeam g playerIndex cellPlayer
                  else Ret false);
               if (countsTowardWin : bool)
               then extendRun n' g playerIndex row col dr dc (i + 1)
                              (cells ++ [(newRow, newCol)])
               else Ret cells
           end
  end.

(** The loop over [directions] for one occupied cell. *)
Fixpoint checkDirections (g : ConnectGame) (row col : Z) (playerIndex : nat)
    (ds : list (Z * Z)) : result (option WinResult) :=
  match ds with
  | [] => Ret None
  | (dr, dc) :: ds' =>
      cells ← extendRun (Z.to_nat (winLength g - 1)) g playerIndex row col dr dc 1
                        [(row, col)];
      if Z.of_nat (length cells) >=? winLength g then
        match players g !! playerIndex with
        | None => TypeError
        | Some p =>
            Ret (Some {| win_winner :=
                           match team p with
                           | Some winningTeam =>
                               ("Team " ++ toStringBase 10 (winningTeam + 1)%nat)%string
                           | None => getName p
                           end;
                         win_cells := cells;
                         win_playerIndex := playerIndex |})
        end
      else checkDirections g row col playerIndex ds'
  end.

(** The scan over the cells. *)
Fixpoint checkCells (g : ConnectGame) (cells : list (Z * Z))
  : result (option WinResult) :=
  match cells with
  | [] => Ret None
  | (row, col) :: rest =>
      match getCell (board g) row col with
      | None => checkCells g rest
      | Some playerIndex =>
          r ← checkDirections g row col playerIndex directions;
          match r with
          | Some w => Ret (Some w)
          | None => checkCells g rest
          end
      end
  end.

(** [ConnectGame.checkWin]. *)
Definition checkWin (g : ConnectGame) : result (option WinResult) :=
  checkCells g (allCells g).

(** [ConnectGame.isBoardFull]. *)
Definition isBoardFull (g : ConnectGame) : bool :=
  forallb (forallb (fun cell => bool_decide (cell ≠ None))) (board g).

(** [ConnectGame.makeMove]: the boolean returned and the state left behind.
    [players.length] is positive in every game ([x % 0] would be [NaN]). *)
Definition makeMove (g : ConnectGame) (row col : Z) (rnd : GravityDirection)
  : result (bool * ConnectGame) :=
  valid ← isValidMove g row col;
  if negb valid then Ret (false, g)
  else
    let g1 := set_board g (setCell (board g) row col (Some (currentPlayerIndex g))) in
    winResult ← checkWin g1;
    match winResult with
    | Some w => Ret (true, set_over g1 (Some (win_winner w)) (win_cells w))
    | None =>
        if isBoardFull g1 then Ret (true, set_over g1 None (winningCells g1))
        else
          let g2 :=
            set_currentPlayerIndex g1
              ((currentPlayerIndex g1 + 1) mod length (players g1))%nat in
          g3 ← rotateGravityIfNeeded g2 rnd;
          Ret (true, g3)
    end.

(** ** AI strategies *)

Module AIStrategy.

(** [AIStrategy.getValidMoves]. *)
Definition getValidMoves (g : ConnectGame) : list (Z * Z) :=
  if gravity g then
    let '(dr, dc) := delta (gravityDirection g) in
    List.filter
      (fun '(row, col) =>
         if bool_decide (getCell (board g) row col ≠ None) then false
         else
           let nextRow := row + dr in
           let nextCol := col + dc in
           let isAtEdge := outOfBounds g nextRow nextCol in
           let touchingFilled :=
             negb isAtEdge
             && bool_decide (getCell (board g) nextRow nextCol ≠ None) in
           isAtEdge || touchingFilled)
      (allCells g)
  else
    List.filter (fun '(row, col) => bool_decide (getCell (board g) row col = None))
                (allCells g).

(** [AIStrategy.checkWinningMove]: the value returned and the game left
    behind.  When [checkWin] throws, the assignment that undoes the placement
    is not reached. *)
Definition checkWinningMove (g : ConnectGame) (row col : Z) (playerIndex : nat)
  : result (option WinResult * ConnectGame) :=
  let g1 := set_board g (setCell (board g) row col (Some playerIndex)) in
  r ← checkWin g1;
  let g2 := set_board g1 (setCell (board g1) row col None) in
  Ret (r, g2).

(** [AIStrategy.getOpponents]: the array positions of the players that are
    not [playerIndex] and are not on its team.  The callback reads
    [currentPlayer.team] for every other player, which throws when
    [players[playerIndex]] is [undefined]. *)
Definition getOpponents (g : ConnectGame) (playerIndex : nat) : result (list nat) :=
  match players g !! playerIndex with
  | Some currentPlayer =>
      Ret (List.map snd
             (List.filter
                (fun '(player, index) =>
                   if (index =? playerIndex)%nat then false
                   else if bool_decide (team currentPlayer = None)
                           || bool_decide (team player = None) then true
                   else bool_decide (team currentPlayer ≠ team player))
                (imap (fun i p => (p, i)) (players g))))
  | None =>
      match players g with
      | [] => Ret []
      | _ :: _ => TypeError
      end
  end.

End AIStrategy.

Module OffensiveAI.

(** The first pair of loops of [evaluateMove], for one value of [dir]: counts
    the cells of the player or of a team mate next to the move. *)
Fixpoint chainCount (n : nat) (g : ConnectGame) (playerIndex : nat)
    (row col dr dc dir i chainLength : Z) : result Z :=
  match n with
  | O => Ret chainLength
  | S n' =>
      let nr := row + dr * i * dir in
      let nc := col + dc * i * dir in
      if outOfBounds g nr nc then Ret chainLength
      else match getCell (board g) nr nc with
           | None => Ret chainLength
           | Some cell =>
               st ← sameTeam g playerIndex cell;
               if (cell =? playerIndex)%nat || st
               then chainCount n' g playerIndex row col dr dc dir (i + 1)
                               (chainLength + 1)
               else Ret chainLength
           end
  end.

(** [players[playerIndex].team !== null &&
     players[cell]?.team === players[playerIndex].team]. *)
Definition sameTeamOpt (g : ConnectGame) (playerIndex cell : nat) : result bool :=
  t ← teamOf g playerIndex;
  match t with
  | None => Ret false
  | Some _ => Ret (bool_decide (team <$> players g !! cell = Some t))
  end.

(** The second pair of loops: counts the cells that are free or friendly. *)
Fixpoint spaceCount (n : nat) (g : ConnectGame) (playerIndex : nat)
    (row col dr dc dir i spacesAvailable : Z) : result Z :=
  match n with
  | O => Ret spacesAvailable
  | S n' =>
      let nr := row + dr * i * dir in
      let nc := col + dc * i * dir in
      if outOfBounds g nr nc then Ret spacesAvailable
      else
        open ←
          match getCell (board g) nr nc with
          | None => Ret true
          | Some cell =>
              if (cell =? playerIndex)%nat then Ret true
              else sameTeamOpt g playerIndex cell
          end;
        if (open : bool)
        then spaceCount n' g playerIndex row col dr dc dir (i + 1)
                        (spacesAvailable + 1)
        else Ret spacesAvailable
  end.

(** The loop over [directions] of [evaluateMove]. *)
Fixpoint evaluateDirections (g : ConnectGame) (row col : Z) (playerIndex : nat)
    (ds : list (Z * Z)) (maxExtension : Z) : result Z :=
  match ds with
  | [] => Ret (if maxExtension >? 0 then maxExtension else 1)
  | (dr, dc) :: ds' =>
      let n := Z.to_nat (winLength g - 1) in
      c ← chainCount n g playerIndex row col dr dc (-1) 1 0;
      chainLength ← chainCount n g playerIndex row col dr dc 1 1 c;
      let potential := chainLength + 1 in
      if potential >=? winLength g then Ret 1000
      else
        s ← spaceCount n g playerIndex row col dr dc (-1) 1 1;
        spacesAvailable ← spaceCount n g playerIndex row col dr dc 1 1 s;
        if spacesAvailable >=? winLength g
        then evaluateDirections g row col playerIndex ds'
               (Z.max maxExtension (chainLength * 10 + spacesAvailable))
        else evaluateDirections g row col playerIndex ds' maxExtension
  end.

(** [OffensiveAI.evaluateMove]. *)
Definition evaluateMove (g : ConnectGame) (move : Z * Z) (playerIndex : nat)
  : result Z :=
  evaluateDirections g move.1 move.2 playerIndex directions 0.

(** The [for (const move of moves)] loop of [getMove]. *)
Fixpoint bestOf (g : ConnectGame) (playerIndex : nat) (moves : list (Z * Z))
    (bestMove : option (Z * Z)) (bestScore : Z) : result (option (Z * Z)) :=
  match moves with
  | [] => Ret bestMove
  | move :: rest =>
      score ← evaluateMove g move playerIndex;
      if score >? bestScore then bestOf g playerIndex rest (Some move) score
      else bestOf g playerIndex rest bestMove bestScore
  end.

(** [OffensiveAI.getMove]; [rnd] is [Math.floor(Math.random() * moves.length)]
    and [None] stands for [undefined]. *)
Definition getMove (g : ConnectGame) (playerIndex : nat) (rnd : nat)
  : result (option (Z * Z)) :=
  let moves := AIStrategy.getValidMoves g in
  bestMove ← bestOf g playerIndex moves None (-1);
  Ret (match bestMove with
       | Some m => Some m
       | None => moves !! rnd
       end).

End OffensiveAI.

(** [Array.prototype.sort] with a comparator on any element type (stable, as
    [sortBy] above). *)
Fixpoint insertWith {A : Type} (cmp : A → A → Z) (x : A) (l : list A) : list A :=
  match l with
  | [] => [x]
  | y :: l' => if cmp x y <=? 0 then x :: l else y :: insertWith cmp x l'
  end.

Definition sortWith {A : Type} (cmp : A → A → Z) (l : list A) : list A :=
  foldr (insertWith cmp) [] l.

Module RandomAI.

(** [RandomAI.getMove]; [rnd] is [Math.floor(Math.random() * moves.length)]
    and [None] stands for [undefined]. *)
Definition getMove (g : ConnectGame) (playerIndex : nat) (rnd : nat)
  : result (option (Z * Z)) :=
  Ret (AIStrategy.getValidMoves g !! rnd).

End RandomAI.

Module DefensiveAI.

(** The loop over [directions] of [getLongestChainNear]; its two inner loops
    are, statement for statement, the chain loops of
    [OffensiveAI.evaluateMove]. *)
Fixpoint longestChainDirections (g : ConnectGame) (row col : Z)
    (playerIndex : nat) (ds : list (Z * Z)) (maxChain : Z) : result Z :=
  match ds with
  | [] => Ret maxChain
  | (dr, dc) :: ds' =>
      let n := Z.to_nat (winLength g - 1) in
      c ← OffensiveAI.chainCount n g playerIndex row col dr dc (-1) 1 0;
      chainLength ← OffensiveAI.chainCount n g playerIndex row col dr dc 1 1 c;
      longestChainDirections g row col playerIndex ds' (Z.max maxChain chainLength)
  end.

(** [DefensiveAI.getLongestChainNear]. *)
Definition getLongestChainNear (g : ConnectGame) (row col : Z) (playerIndex : nat)
  : result Z :=
  longestChainDirections g row col playerIndex directions 0.

(** The loop [for (const oppIndex of opponents)] for one move. *)
Fixpoint scanOpponents (g : ConnectGame) (move : Z * Z) (opponents : list nat)
    (bestMove : option (Z * Z)) (maxChainBlocked : Z)
  : result (option (Z * Z) * Z) :=
  match opponents with
  | [] => Ret (bestMove, maxChainBlocked)
  | oppIndex :: rest =>
      chainLength ← getLongestChainNear g move.1 move.2 oppIndex;
      if chainLength >? maxChainBlocked
      then scanOpponents g move rest (Some move) chainLength
      else scanOpponents g move rest bestMove maxChainBlocked
  end.

(** The loop [for (const move of moves)]. *)
Fixpoint scanMoves (g : ConnectGame) (opponents : list nat) (moves : list (Z * Z))
    (bestMove : option (Z * Z)) (maxChainBlocked : Z)
  : result (option (Z * Z) * Z) :=
  match moves with
  | [] => Ret (bestMove, maxChainBlocked)
  | move :: rest =>
      '(bestMove', maxChainBlocked') ←
        scanOpponents g move opponents bestMove maxChainBlocked;
      scanMoves g opponents rest bestMove' maxChainBlocked'
  end.

(** [DefensiveAI.getMove]. *)
Definition getMove (g : ConnectGame) (playerIndex : nat) (rnd : nat)
  : result (option (Z * Z)) :=
  let moves := AIStrategy.getValidMoves g in
  opponents ← AIStrategy.getOpponents g playerIndex;
  '(bestMove, _) ← scanMoves g opponents moves None 0;
  Ret (match bestMove with
       | Some m => Some m
       | None => moves !! rnd
       end).

End DefensiveAI.

Module SmartAI.

(** The loop "1. Check if we can win": the first move whose probe reports a
    win, and the game the probes leave behind. *)
Fixpoint findWinning (g : ConnectGame) (playerIndex : nat) (moves : list (Z * Z))
  : result (option (Z * Z) * ConnectGame) :=
  match moves with
  | [] => Ret (None, g)
  | move :: rest =>
      '(r, g') ← AIStrategy.checkWinningMove g move.1 move.2 playerIndex;
      match r with
      | Some _ => Ret (Some move, g')
      | None => findWinning g' playerIndex rest
      end
  end.

(** The inner loop of "2. Check if we need to block opponent" for one move. *)
Fixpoint opponentWins (g : ConnectGame) (move : Z * Z) (opponents : list nat)
  : result (bool * ConnectGame) :=
  match opponents with
  | [] => Ret (false, g)
  | oppIndex :: rest =>
      '(r, g') ← AIStrategy.checkWinningMove g move.1 move.2 oppIndex;
      match r with
      | Some _ => Ret (true, g')
      | None => opponentWins g' move rest
      end
  end.

(** The loop "2. Check if we need to block opponent". *)
Fixpoint findBlocking (g : ConnectGame) (opponents : list nat) (moves : list (Z * Z))
  : result (option (Z * Z) * ConnectGame) :=
  match moves with
  | [] => Ret (None, g)
  | move :: rest =>
      '(found, g') ← opponentWins g move opponents;
      if (found : bool) then Ret (Some move, g')
      else findBlocking g' opponents rest
  end.

(** The eight offsets of [scoreMove]. *)
Definition neighbours : list (Z * Z) :=
  [ (-1, -1); (-1, 0); (-1, 1); (0, -1); (0, 1); (1, -1); (1, 0); (1, 1) ].

(** [SmartAI.scoreMove]. *)
Definition scoreMove (g : ConnectGame) (move : Z * Z) (playerIndex : nat) : Z :=
  let '(row, col) := move in
  let centerCol := width g / 2 in
  let centerRow := height g / 2 in
  foldl (fun score '(dr, dc) =>
           let nr := row + dr in
           let nc := col + dc in
           if negb (outOfBounds g nr nc)
              && bool_decide (getCell (board g) nr nc = Some playerIndex)
           then score + 5 else score)
        (0 + (10 - Z.abs (col - centerCol) - Z.abs (row - centerRow)))
        neighbours.

(** The comparator [(a, b) => b.score - a.score]. *)
Definition byScore (a b : Z * Z * Z) : Z := b.2 - a.2.

(** [SmartAI.getMove]: the move returned and the game left behind.  With no
    legal move, [scoredMoves[0].move] reads a property of [undefined]. *)
Definition getMove (g : ConnectGame) (playerIndex : nat)
  : result (Z * Z * ConnectGame) :=
  let moves := AIStrategy.getValidMoves g in
  opponents ← AIStrategy.getOpponents g playerIndex;
  '(won, g1) ← findWinning g playerIndex moves;
  match won with
  | Some m => Ret (m, g1)
  | None =>
      '(blocking, g2) ← findBlocking g1 opponents moves;
      match blocking with
      | Some m => Ret (m, g2)
      | None =>
          let scoredMoves :=
            sortWith byScore
              (List.map (fun move => (move, scoreMove g2 move playerIndex)) moves) in
          match scoredMoves with
          | [] => TypeError
          | (m, _) :: _ => Ret (m, g2)
          end
      end
  end.

End SmartAI.

Module OffensiveSmartAI.

(** [OffensiveSmartAI.getMove]: the two probing loops of [SmartAI], then
    [OffensiveAI.getMove]. *)
Definition getMove (g : ConnectGame) (playerIndex : nat) (rnd : nat)
  : result (option (Z * Z) * ConnectGame) :=
  let moves := AIStrategy.getValidMoves g in
  opponents ← AIStrategy.getOpponents g playerIndex;
  '(won, g1) ← SmartAI.findWinning g playerIndex moves;
  match won with
  | Some m => Ret (Some m, g1)
  | None =>
      '(blocking, g2) ← SmartAI.findBlocking g1 opponents moves;
      match blocking with
      | Some m => Ret (Some m, g2)
      | None => m ← OffensiveAI.getMove g2 playerIndex rnd; Ret (m, g2)
      end
  end.

End OffensiveSmartAI.

Module DefensiveSmartAI.

(** [DefensiveSmartAI.getMove]: the winning probe, then
    [DefensiveAI.getMove]. *)
Definition getMove (g : ConnectGame) (playerIndex : nat) (rnd : nat)
  : result (option (Z * Z) * ConnectGame) :=
  let moves := AIStrategy.getValidMoves g in
  '(won, g1) ← SmartAI.findWinning g playerIndex moves;
  match won with
  | Some m => Ret (Some m, g1)
  | None => m ← DefensiveAI.getMove g1 playerIndex rnd; Ret (m, g1)
  end.

End DefensiveSmartAI.

(** The fields [type] and [aiStrategy] of [class Player], which the record
    [Player] leaves out; [getAIMove] receives them as a list parallel to
    [players]. *)
Inductive PlayerType : Type := type_human | type_ai.

(** The keys of the registry [AI_STRATEGIES]. *)
Inductive StrategyId : Type :=
| strategy_random | strategy_defensive | strategy_offensive
| strategy_smart | strategy_offensive_smart | strategy_defensive_smart.

Record PlayerKind : Type := {
  ptype : PlayerType;
  aiStrategy : StrategyId
}.

(** [ConnectGame.getAIMove]: the move ([None] for [null] or [undefined]) and
    the game left behind.  [rnd] is the index drawn by the strategies that
    fall back on a random move. *)
Definition getAIMove (g : ConnectGame) (kinds : list PlayerKind) (rnd : nat)
  : result (option (Z * Z) * ConnectGame) :=
  match kinds !! currentPlayerIndex g with
  | None => TypeError
  | Some player =>
      match ptype player with
      | type_human => Ret (None, g)
      | type_ai =>
          let i := currentPlayerIndex g in
          match aiStrategy player with
          | strategy_random => m ← RandomAI.getMove g i rnd; Ret (m, g)
          | strategy_defensive => m ← DefensiveAI.getMove g i rnd; Ret (m, g)
          | strategy_offensive => m ← OffensiveAI.getMove g i rnd; Ret (m, g)
          | strategy_smart => '(m, g') ← SmartAI.getMove g i; Ret (Some m, g')
          | strategy_offensive_smart => OffensiveSmartAI.getMove g i rnd
          | strategy_defensive_smart => DefensiveSmartAI.getMove g i rnd
          end
      end
  end.

(** [Player.getSymbol]. *)
Definition getSymbol (p : Player) : string := toStringBase 16 (index p).

(** [ConnectGame.getCurrentPlayer]; [None] stands for [undefined]. *)
Definition getCurrentPlayer (g : ConnectGame) : option Player :=
  players g !! currentPlayerIndex g.

(** ** Games used as concrete inputs *)

Definition newGame (w h wl : Z) (grav : bool) (ps : list Player)
    (rot : option GravityRotation) (collab : bool) : ConnectGame :=
  reset {| width := w; height := h; winLength := wl; gravity := grav;
           players := ps; gravityRotation := rot; teamCollaboration := collab;
           board := []; currentPlayerIndex := 0%nat; gameOver := false;
           winner := None; winningCells := []; turnCount := 0;
           gravityDirection := dir_down |}.

Definition soloPlayers (n : nat) : list Player :=
  List.map (fun i => {| index := i; team := None |}) (seq 0 n).

(** Plays the moves in turn and keeps the last state; a rejected move leaves
    the state as it is. *)
Fixpoint playMoves (g : ConnectGame) (ms : list (Z * Z * GravityDirection))
  : result ConnectGame :=
  match ms with
  | [] => Ret g
  | (row, col, rnd) :: rest =>
      '(_, g') ← makeMove g row col rnd;
      playMoves g' rest
  end.

(** ** Well-formed games *)

(** The board has [height] rows of [width] cells, as [reset] builds it. *)
Definition board_dims (g : ConnectGame) : Prop :=
  length (board g) = Z.to_nat (height g)
  ∧ Forall (fun rw => length rw = Z.to_nat (width g)) (board g).

(** Every piece on the board is the index of a player. *)
Definition cells_valid (g : ConnectGame) : Prop :=
  ∀ r c p, getCell (board g) r c = Some p → (p < length (players g))%nat.

Definition wf (g : ConnectGame) : Prop :=
  board_dims g ∧ cells_valid g
  ∧ (currentPlayerIndex g < length (players g))%nat.

(** The exit test of the loop of [getGravityTarget] at the cell [(r, c)]. *)
Definition blocked (g : ConnectGame) (dr dc r c : Z) : bool :=
  outOfBounds g (r + dr) (c + dc)
  || bool_decide (getCell (board g) (r + dr) (c + dc) ≠ None).

(** Distance from a cell to the wall the pieces fall towards. *)
Definition wallDistance (g : ConnectGame) (d : GravityDirection) (r c : Z) : Z :=
  match d with
  | dir_down => height g - 1 - r
  | dir_up => r
  | dir_right => width g - 1 - c
  | dir_left => c
  end.

(** The placement rule in the words of the specification: the cell is empty
    and, under gravity, the next cell along the gravity direction is off the
    grid or occupied. *)
Definition legalTarget (g : ConnectGame) (row col : Z) : Prop :=
  getCell (board g) row col = None
  ∧ (gravity g = true →
     outOfBounds g (row + (delta (gravityDirection g)).1)
                 (col + (delta (gravityDirection g)).2) = true
     ∨ getCell (board g) (row + (delta (gravityDirection g)).1)
               (col + (delta (gravityDirection g)).2) ≠ None).

(** The team of player [i], when the player exists and has one. *)
Definition teamAt (g : ConnectGame) (i : nat) : option nat :=
  match players g !! i with
  | Some p => team p
  | None => None
  end.

(** A cell of player [q] continues a run started by player [p]: the same
    player, or, with team collaboration, a player of the same team. *)
Definition friendly (g : ConnectGame) (p q : nat) : Prop :=
  q = p
  ∨ (teamCollaboration g = true
     ∧ ∃ t, teamAt g p = Some t ∧ teamAt g q = Some t).

(** Sum of a weight over the cells of the grid. *)
Definition cellSum (f : Z → Z → option nat → nat) (g : ConnectGame) : nat :=
  sum_list_with (fun '(r, c) => f r c (getCell (board g) r c)) (allCells g).

(** Number of cells of the grid that hold the index [p]. *)
Definition countPieces (g : ConnectGame) (p : nat) : nat :=
  cellSum (fun _ _ x => if bool_decide (x = Some p) then 1%nat else 0%nat) g.

(** Total distance the pieces can still fall: the measure that bounds the
    number of passes of [applyGravity]. *)
Definition potential (g : ConnectGame) : nat :=
  cellSum (fun r c x =>
             match x with
             | Some _ => Z.to_nat (wallDistance g (gravityDirection g) r c)
             | None => 0%nat
             end) g.

(** The two games differ at most in their boards. *)
Definition sameConfig (g g' : ConnectGame) : Prop := g' = set_board g (board g').

(** Gravity rotation is configured with a mode other than ['none']. *)
Definition rotationActive (g : ConnectGame) : bool :=
  match gravityRotation g with
  | Some gr => match mode gr with mode_none => false | _ => true end
  | None => false
  end.

(** The cycle down → right → up → left → down. *)
Definition clockwise (d : GravityDirection) : GravityDirection :=
  match d with
  | dir_down => dir_right
  | dir_right => dir_up
  | dir_up => dir_left
  | dir_left => dir_down
  end.

(** Plays the calls in turn and counts, next to the last state, the calls
    that returned [true] and, among them, those that left the game running. *)
Fixpoint playLog (g : ConnectGame) (ms : list (Z * Z * GravityDirection))
  : result (ConnectGame * nat * nat) :=
  match ms with
  | [] => Ret (g, 0, 0)%nat
  | (row, col, rnd) :: rest =>
      '(ok, g') ← makeMove g row col rnd;
      '(gf, successes, completed) ← playLog g' rest;
      Ret (gf,
           if (ok : bool) then S successes else successes,
           if ok && negb (gameOver g') then S completed else completed)
  end.

(** The state reached when every call of the list is accepted and none ends
    the game; [None] otherwise. *)
Fixpoint playCompleted (g : ConnectGame) (ms : list (Z * Z * GravityDirection))
  : option ConnectGame :=
  match ms with
  | [] => Some g
  | (row, col, rnd) :: rest =>
      match makeMove g row col rnd with
      | Ret (true, g') => if gameOver g' then None else playCompleted g' rest
      | _ => None
      end
  end.

(** The constructor arguments are the same in both games. *)
Definition sameSetup (g g' : ConnectGame) : Prop :=
  width g' = width g ∧ height g' = height g ∧ winLength g' = winLength g
  ∧ gravity g' = gravity g ∧ players g' = players g
  ∧ gravityRotation g' = gravityRotation g
  ∧ teamCollaboration g' = teamCollaboration g.

(** A 3 x 3 board, three in a row, no gravity, two players. *)
Definition ticTacToe : ConnectGame :=
  newGame 3 3 3 false (soloPlayers 2) None true.

(** A 7 x 6 board with gravity that turns clockwise after every move. *)
Definition rotatingGame : ConnectGame :=
  newGame 7 6 4 true (soloPlayers 2)
          (Some {| turns := 1; mode := mode_clockwise |}) true.

(** A 4 x 4 board with gravity on which three pieces hang in the air. *)
Definition floatingGame : ConnectGame :=
  set_board (newGame 4 4 4 true (soloPlayers 2) None true)
    [ [Some 0%nat; None; Some 1%nat; None];
      [None; None; None; None];
      [None; Some 1%nat; None; None];
      [None; None; None; None] ].

(** Executable form of [wf]. *)
Definition wfb (g : ConnectGame) : bool :=
  bool_decide (length (board g) = Z.to_nat (height g))
  && forallb (fun rw => bool_decide (length rw = Z.to_nat (width g))) (board g)
  && forallb (forallb (fun x => match x with
                                | Some p => bool_decide (p < length (players g))%nat
                                | None => true
                                end)) (board g)
  && bool_decide (currentPlayerIndex g < length (players g))%nat.

(** The tic-tac-toe game after the moves (0,0), (1,1), (0,1) and (1,0). *)
Definition midGame : ConnectGame :=
  set_currentPlayerIndex
    (set_board ticTacToe
       [ [Some 0%nat; Some 0%nat; None];
         [Some 1%nat; Some 1%nat; None];
         [None; None; None] ]) 0.

(** A tic-tac-toe board on which player 0 holds the top row. *)
Definition wonGame : ConnectGame :=
  set_board ticTacToe
    [ [Some 0%nat; Some 0%nat; Some 0%nat];
      [Some 1%nat; Some 1%nat; None];
      [None; None; None] ].

(** The cell at distance [z] from [(row, col)] along [(dr, dc)] is on the grid
    and holds a piece that continues a run of player [p]. *)
Definition continues (g : ConnectGame) (p : nat) (row col dr dc z : Z) : Prop :=
  outOfBounds g (row + dr * z) (col + dc * z) = false
  ∧ ∃ q, getCell (board g) (row + dr * z) (col + dc * z) = Some q
         ∧ friendly g p q.

(** A qualifying run: [n] contiguous cells from [(row, col)] along [(dr, dc)],
    the first held by [p], the others by [p] or, with team collaboration, by
    team mates of [p]. *)
Definition isRun (g : ConnectGame) (p : nat) (row col dr dc : Z) (n : nat) : Prop :=
  ∀ j : nat, (j < n)%nat →
    continues g p row col dr dc (Z.of_nat j)
    ∧ (j = 0%nat → getCell (board g) row col = Some p).

(** A run of cells all held by the player [p]. *)
Definition samePlayerRun (g : ConnectGame) (p : nat) (row col dr dc : Z) (n : nat)
  : Prop :=
  ∀ j : nat, (j < n)%nat →
    outOfBounds g (row + dr * Z.of_nat j) (col + dc * Z.of_nat j) = false
    ∧ getCell (board g) (row + dr * Z.of_nat j) (col + dc * Z.of_nat j) = Some p.

(** The board has a qualifying run of [n] cells along one of the four axes. *)
Definition hasRun (g : ConnectGame) (n : nat) : Prop :=
  ∃ p row col d, In d directions ∧ isRun g p row col d.1 d.2 n.

(** The longest qualifying run of the board has exactly [n] cells. *)
Definition longestRun (g : ConnectGame) (n : nat) : Prop :=
  hasRun g n ∧ ¬ hasRun g (S n).

(** The winner [checkWin] reports for a run started by player [p]. *)
Definition winnerLabel (g : ConnectGame) (p : nat) : string :=
  match players g !! p with
  | Some pl =>
      match team pl with
      | Some winningTeam => ("Team " ++ toStringBase 10 (winningTeam + 1)%nat)%string
      | None => getName pl
      end
  | None => ""
  end.

Definition set_teamCollaboration (g : ConnectGame) (collab : bool) : ConnectGame :=
  {| width := width g; height := height g; winLength := winLength g;
     gravity := gravity g; players := players g;
     gravityRotation := gravityRotation g;
     teamCollaboration := collab;
     board := board g; currentPlayerIndex := currentPlayerIndex g;
     gameOver := gameOver g; winner := winner g;
     winningCells := winningCells g; turnCount := turnCount g;
     gravityDirection := gravityDirection g |}.

(** The scan of [checkWin] from the cell [(row, col)] along [d] collects
    [winLength] cells. *)
Definition runFrom (g : ConnectGame) (x : Z * Z * (Z * Z)) : bool :=
  let '(row, col, (dr, dc)) := x in
  match getCell (board g) row col with
  | Some p =>
      match extendRun (Z.to_nat (winLength g - 1)) g p row col dr dc 1 [(row, col)] with
      | Ret cs => Z.of_nat (length cs) >=? winLength g
      | _ => false
      end
  | None => false
  end.

(** Every start and direction from which [checkWin] would report a win. *)
Definition winningRuns (g : ConnectGame) : list (Z * Z * (Z * Z)) :=
  List.filter (runFrom g) (list_prod (allCells g) directions).

(** Three players, the first two in team 0; on a 3 x 3 board the top row is
    shared by the two team mates. *)
Definition teamGame : ConnectGame :=
  set_board
    (newGame 3 3 3 false
       [ {| index := 0; team := Some 0%nat |};
         {| index := 1; team := Some 0%nat |};
         {| index := 2; team := None |} ] None true)
    [ [Some 0%nat; Some 1%nat; Some 0%nat];
      [Some 2%nat; Some 2%nat; None];
      [None; None; None] ].

(** The pieces [evaluateMove] counts as the player's own: those of the player
    and those of the players of the same team, whatever [teamCollaboration]
    says. *)
Definition ally (g : ConnectGame) (p q : nat) : Prop :=
  q = p ∨ ∃ t, teamAt g p = Some t ∧ teamAt g q = Some t.

(** The cell [i] steps from [(row, col)] along [(dr, dc)], forwards
    ([dir = 1]) or backwards ([dir = -1]), is on the grid and holds a piece
    accepted by [holds]. *)
Definition heldAt (holds : nat → Prop) (g : ConnectGame)
    (row col dr dc dir i : Z) : Prop :=
  outOfBounds g (row + dr * i * dir) (col + dc * i * dir) = false
  ∧ ∃ q, getCell (board g) (row + dr * i * dir) (col + dc * i * dir) = Some q
         ∧ holds q.

(** A piece put on [(row, col)] completes a line of [winLength] cells along
    [(dr, dc)]: [k] cells behind it and [winLength - 1 - k] cells after it are
    held as [holds] demands. *)
Definition lineThrough (holds : nat → Prop) (g : ConnectGame)
    (row col dr dc : Z) : Prop :=
  ∃ k : nat,
    (k ≤ Z.to_nat (winLength g - 1))%nat
    ∧ (∀ j : nat, (1 ≤ j ≤ k)%nat → heldAt holds g row col dr dc (-1) (Z.of_nat j))
    ∧ (∀ j : nat, (1 ≤ j ≤ Z.to_nat (winLength g - 1) - k)%nat →
         heldAt holds g row col dr dc 1 (Z.of_nat j)).

(** The move completes [winLength] in a row of cells held by player [p]. *)
Definition completesOwn (g : ConnectGame) (p : nat) (m : Z * Z) : Prop :=
  ∃ d, In d directions ∧ lineThrough (fun q => q = p) g m.1 m.2 d.1 d.2.

(** The move completes [winLength] in a row of cells held by player [p] or by
    team mates of [p]. *)
Definition completes (g : ConnectGame) (p : nat) (m : Z * Z) : Prop :=
  ∃ d, In d directions ∧ lineThrough (ally g p) g m.1 m.2 d.1 d.2.

(** Two team mates and a third player on a 5 x 3 board without gravity and
    without team collaboration, reached after nine moves; player 0 is to move.
    Player 0 holds three cells of the bottom row, its team mate three cells of
    the top row. *)
Definition trapPlayers : list Player :=
  [ {| index := 0; team := Some 0%nat |};
    {| index := 1; team := Some 0%nat |};
    {| index := 2; team := None |} ].

Definition trapGame : ConnectGame :=
  set_turnCount
    (set_board (newGame 5 3 4 false trapPlayers None false)
       [ [Some 1%nat; Some 1%nat; Some 1%nat; None; Some 2%nat];
         [Some 2%nat; None; None; None; Some 2%nat];
         [Some 0%nat; Some 0%nat; Some 0%nat; None; None] ]) 0.

(** The same players with team collaboration; here the team mate does not
    hold three in a row. *)
Definition offenseGame : ConnectGame :=
  set_board (newGame 5 3 4 false trapPlayers None true)
    [ [Some 1%nat; Some 1%nat; None; None; Some 2%nat];
      [Some 2%nat; None; Some 1%nat; None; Some 2%nat];
      [Some 0%nat; Some 0%nat; Some 0%nat; None; None] ].

(** The game after [board[row][col] = currentPlayerIndex]. *)
Definition placed (g : ConnectGame) (row col : Z) : ConnectGame :=
  set_board g (setCell (board g) row col (Some (currentPlayerIndex g))).

(** Number of free cells of the grid. *)
Definition countFree (g : ConnectGame) : nat :=
  cellSum (fun _ _ x => if bool_decide (x = None) then 1%nat else 0%nat) g.

(** The cells [(row + dr * j, col + dc * j)] for [j = 0 .. n - 1]. *)
Definition runCells (row col dr dc n : Z) : list (Z * Z) :=
  (fun j => (row + dr * j, col + dc * j)) <$> seqZ 0 n.

(** Putting a piece of player [p] on the cell [m] makes [checkWin] report a
    win. *)
Definition wouldWin (g : ConnectGame) (p : nat) (m : Z * Z) : Prop :=
  ∃ w, checkWin (set_board g (setCell (board g) m.1 m.2 (Some p))) = Ret (Some w).

(** The cycle down → left → up → right → down. *)
Definition counterclockwise (d : GravityDirection) : GravityDirection :=
  match d with
  | dir_down => dir_left
  | dir_left => dir_up
  | dir_up => dir_right
  | dir_right => dir_down
  end.

(** One rotation in the configured mode; [rnd] is the direction drawn in mode
    ['random']. *)
Definition rotationStep (m : RotationMode) (rnd d : GravityDirection)
  : GravityDirection :=
  match m with
  | mode_none => d
  | mode_clockwise => clockwise d
  | mode_counterclockwise => counterclockwise d
  | mode_random => rnd
  end.

(** The value of a digit written by [digitChar]. *)
Definition digitValue (c : ascii) : nat :=
  let fix position (l : list ascii) (i : nat) : nat :=
    match l with
    | [] => 0%nat
    | x :: l' => if Ascii.eqb x c then i else position l' (S i)
    end in
  position (list_ascii_of_string "0123456789ABCDEF") 0%nat.

(** Reads a number written in the given base, as [parseInt(s, base)] does for
    a string of digits. *)
Fixpoint parseDigits (base : nat) (s : string) (acc : nat) : nat :=
  match s with
  | EmptyString => acc
  | String c s' => parseDigits base s' (acc * base + digitValue c)%nat
  end.

(** ** Team colours *)

(** [teams.add(t)] on a [Set], kept in insertion order. *)
Definition setAdd (teams : list nat) (t : nat) : list nat :=
  if bool_decide (t ∈ teams) then teams else teams ++ [t].

(** The first [forEach] of [assignTeamColors]: the set of teams and the
    number of players without one.  An entry of [playerConfigs] is
    represented by its [team] field, the only field the function reads. *)
Definition collectTeams (playerConfigs : list (option nat)) : list nat * nat :=
  foldl (fun acc team =>
           match team with
           | Some t => (setAdd acc.1 t, acc.2)
           | None => (acc.1, S acc.2)
           end) ([], 0%nat) playerConfigs.

(** [teams.size + nonTeamPlayers], the number of colours that are generated. *)
Definition totalColors (playerConfigs : list (option nat)) : nat :=
  (length (collectTeams playerConfigs).1 + (collectTeams playerConfigs).2)%nat.

(** The order of [Array.prototype.sort()] without a comparator: elements are
    compared as strings. *)
Definition compareAsStrings (a b : nat) : Z :=
  match String.compare (toStringBase 10 a) (toStringBase 10 b) with
  | Lt => -1
  | Eq => 0
  | Gt => 1
  end.

(** [teamArray.forEach((team, index) => { teamColors[team] = colors[index] })];
    [None] stands for [undefined]. *)
Fixpoint fillTeamColors (colors : list string) (index : nat)
    (teamArray : list nat) (teamColors : gmap nat (option string))
  : gmap nat (option string) :=
  match teamArray with
  | [] => teamColors
  | team :: rest =>
      fillTeamColors colors (S index) rest (<[team := colors !! index]> teamColors)
  end.

(** The second [forEach]: the colours pushed to [playerColors], with the
    running [individualIndex]. *)
Fixpoint pushPlayerColors (teamColors : gmap nat (option string))
    (individualColors : list string) (individualIndex : nat)
    (playerConfigs : list (option nat)) : list (option string) :=
  match playerConfigs with
  | [] => []
  | Some t :: rest =>
      (teamColors !! t ≫= id)
        :: pushPlayerColors teamColors individualColors individualIndex rest
  | None :: rest =>
      individualColors !! individualIndex
        :: pushPlayerColors teamColors individualColors (S individualIndex) rest
  end.

(** [assignTeamColors]; [colors] is the array returned by
    [generateDistinctColors(totalColors)], whose entries are drawn at random. *)
Definition assignTeamColors (playerConfigs : list (option nat))
    (colors : list string) : list (option string) :=
  let teams := (collectTeams playerConfigs).1 in
  let teamArray := sortWith compareAsStrings teams in
  let teamColors := fillTeamColors colors 0 teamArray ∅ in
  let individualColors := drop (length teams) colors in
  pushPlayerColors teamColors individualColors 0 playerConfigs.

(** The number of entries without a team. *)
Fixpoint countNone (playerConfigs : list (option nat)) : nat :=
  match playerConfigs with
  | [] => 0%nat
  | None :: rest => S (countNone rest)
  | Some _ :: rest => countNone rest
  end.

(** Two players of team 10, one of team 2 and two without a team, with four
    colours. *)
Definition sampleConfigs : list (option nat) :=
  [Some 10%nat; None; Some 2%nat; Some 10%nat; None].

Definition sampleColors : list string :=
  ["red"; "green"; "blue"; "gold"]%string.

(** * Properties *)

(** ** Board reads and writes *)

Lemma outOfBounds_false g r c :
  outOfBounds g r c = false ↔ 0 ≤ r < height g ∧ 0 ≤ c < width g.
Proof. unfold outOfBounds. rewrite !orb_false_iff. lia. Qed.

Lemma getCell_setCell_ne b r c v r' c' :
  (r, c) ≠ (r', c') → getCell (setCell b r c v) r' c' = getCell b r' c'.
Proof.
  intros Hne. unfold getCell, setCell.
  destruct ((r' <? 0) || (c' <? 0)) eqn:E'; [done|].
  destruct ((r <? 0) || (c <? 0)) eqn:E; [done|].
  apply orb_false_iff in E as [Hr Hc]. apply orb_false_iff in E' as [Hr' Hc'].
  destruct (b !! Z.to_nat r) as [rw|] eqn:Hrw; [|done].
  destruct (decide (Z.to_nat r = Z.to_nat r')) as [Heq|Hneq].
  - rewrite <- Heq. rewrite list_lookup_insert_eq by (by eapply lookup_lt_Some).
    rewrite Hrw.
    assert (Z.to_nat c ≠ Z.to_nat c') by (intros ?; apply Hne; f_equal; lia).
    by rewrite list_lookup_insert_ne.
  - by rewrite list_lookup_insert_ne.
Qed.

Lemma board_dims_lookup g r c :
  board_dims g → outOfBounds g r c = false →
  ∃ rw, board g !! Z.to_nat r = Some rw ∧ (Z.to_nat c < length rw)%nat.
Proof.
  intros [Hlen Hrows] Hin. apply outOfBounds_false in Hin.
  destruct (lookup_lt_is_Some_2 (board g) (Z.to_nat r)) as [rw Hrw]; [lia|].
  exists rw. split; [done|].
  rewrite Forall_lookup in Hrows. rewrite (Hrows _ _ Hrw). lia.
Qed.

Lemma getCell_setCell_eq g r c v :
  board_dims g → outOfBounds g r c = false →
  getCell (setCell (board g) r c v) r c = v.
Proof.
  intros Hd Hin. destruct (board_dims_lookup g r c Hd Hin) as (rw & Hrw & Hc).
  apply outOfBounds_false in Hin. unfold getCell, setCell.
  replace ((r <? 0) || (c <? 0)) with false by (symmetry; apply orb_false_iff; lia).
  rewrite Hrw. rewrite list_lookup_insert_eq by (by eapply lookup_lt_Some).
  by rewrite list_lookup_insert_eq.
Qed.

Lemma setCell_dims g r c v :
  board_dims g → board_dims (set_board g (setCell (board g) r c v)).
Proof.
  intros [Hlen Hrows]. unfold board_dims, setCell; simpl.
  destruct ((r <? 0) || (c <? 0)); [done|].
  destruct (board g !! Z.to_nat r) as [rw|] eqn:Hrw; [|done].
  split; [by rewrite length_insert|].
  apply Forall_insert; [done|]. rewrite length_insert.
  rewrite Forall_lookup in Hrows. eauto.
Qed.

(** [wf] can be checked by evaluation. *)
Lemma wfb_wf g : wfb g = true → wf g.
Proof.
  unfold wfb. rewrite !andb_true_iff, !bool_decide_eq_true.
  intros [[[Hlen Hrows] Hcells] Hp]. split; [split|split]; try done.
  - apply Forall_forall. intros rw Hrw.
    rewrite forallb_forall in Hrows.
    apply list_elem_of_In, Hrows, bool_decide_eq_true in Hrw. done.
  - intros r c p. unfold getCell. destruct (_ || _); [done|].
    destruct (board g !! Z.to_nat r) as [rw|] eqn:Hr; [|done].
    destruct (rw !! Z.to_nat c) as [x|] eqn:Hc; [|done]. intros ->.
    rewrite forallb_forall in Hcells.
    apply list_elem_of_lookup_2, list_elem_of_In, Hcells in Hr.
    rewrite forallb_forall in Hr.
    apply list_elem_of_lookup_2, list_elem_of_In, Hr in Hc.
    by apply bool_decide_eq_true in Hc.
Qed.

Lemma floatingGame_dims : board_dims floatingGame.
Proof. split; [reflexivity|]. repeat constructor. Defined.

Lemma elem_of_allCells g r c :
  (r, c) ∈ allCells g ↔ outOfBounds g r c = false.
Proof.
  unfold allCells. rewrite list_elem_of_bind, outOfBounds_false. split.
  - intros (r' & Hc & Hr). apply list_elem_of_fmap in Hc as (c' & [= <- <-] & Hc).
    apply elem_of_seqZ in Hr, Hc. lia.
  - intros [Hr Hc]. exists r. split.
    + apply list_elem_of_fmap. exists c. split; [done|]. apply elem_of_seqZ. lia.
    + apply elem_of_seqZ. lia.
Qed.

Lemma In_allCells g r c :
  In (r, c) (allCells g) ↔ outOfBounds g r c = false.
Proof. rewrite <- list_elem_of_In. apply elem_of_allCells. Qed.

Lemma NoDup_allCells g : NoDup (allCells g).
Proof.
  unfold allCells. apply NoDup_bind.
  - intros r1 r2 [r c] _ _ H1 H2.
    apply list_elem_of_fmap in H1 as (? & [= -> ->] & _).
    apply list_elem_of_fmap in H2 as (? & [= -> _] & _). done.
  - intros r _. apply NoDup_fmap_2; [|apply NoDup_seqZ]. by intros ?? [=].
  - apply NoDup_seqZ.
Qed.

Lemma allCells_set_board g b : allCells (set_board g b) = allCells g.
Proof. done. Qed.

(** ** The fall of a piece: [getGravityTarget] *)

Lemma delta_cases d :
  delta d = (1, 0) ∨ delta d = (-1, 0) ∨ delta d = (0, 1) ∨ delta d = (0, -1).
Proof. destruct d; simpl; auto. Qed.

Lemma gravityFall_blocked fuel g dr dc r c :
  blocked g dr dc r c = true → gravityFall fuel g dr dc r c = Ret (r, c).
Proof. unfold blocked. destruct fuel; simpl; intros ->; done. Qed.

Lemma gravityFall_step fuel g dr dc r c :
  blocked g dr dc r c = false →
  gravityFall (S fuel) g dr dc r c = gravityFall fuel g dr dc (r + dr) (c + dc).
Proof. unfold blocked. simpl. intros ->. done. Qed.

(** A target that is returned is reached through free cells of the grid and
    is a cell where the loop exits. *)
Lemma gravityFall_spec fuel g dr dc : ∀ r c t,
  gravityFall fuel g dr dc r c = Ret t →
  ∃ k : nat,
    t = (r + Z.of_nat k * dr, c + Z.of_nat k * dc)
    ∧ blocked g dr dc t.1 t.2 = true
    ∧ ∀ j : nat, (1 ≤ j ≤ k)%nat →
        outOfBounds g (r + Z.of_nat j * dr) (c + Z.of_nat j * dc) = false
        ∧ getCell (board g) (r + Z.of_nat j * dr) (c + Z.of_nat j * dc) = None.
Proof.
  induction fuel as [|fuel IH]; intros r c t H.
  - destruct (blocked g dr dc r c) eqn:Hb.
    + rewrite gravityFall_blocked in H by done. injection H as <-.
      exists 0%nat. simpl. rewrite !Z.add_0_r. split_and!; [done|done|lia].
    + unfold blocked in Hb. simpl in H. rewrite Hb in H. discriminate.
  - destruct (blocked g dr dc r c) eqn:Hb.
    + rewrite gravityFall_blocked in H by done. injection H as <-.
      exists 0%nat. simpl. rewrite !Z.add_0_r. split_and!; [done|done|lia].
    + rewrite gravityFall_step in H by done.
      destruct (IH _ _ _ H) as (k & -> & Hstop & Hfree).
      exists (S k). split_and!.
      * f_equal; lia.
      * done.
      * intros j Hj. destruct (decide (j = 1%nat)) as [->|Hj1].
        -- unfold blocked in Hb. apply orb_false_iff in Hb as [Hb1 Hb2].
           apply bool_decide_eq_false in Hb2.
           replace (r + Z.of_nat 1 * dr) with (r + dr) by lia.
           replace (c + Z.of_nat 1 * dc) with (c + dc) by lia.
           split; [done|]. by apply dec_stable in Hb2.
        -- destruct (Hfree (j - 1)%nat) as [H1 H2]; [lia|].
           replace (r + dr + Z.of_nat (j - 1) * dr) with (r + Z.of_nat j * dr)
             in * by lia.
           replace (c + dc + Z.of_nat (j - 1) * dc) with (c + Z.of_nat j * dc)
             in * by lia.
           done.
Qed.

(** With enough fuel for the distance to the wall, the loop exits. *)
Lemma gravityFall_enough g d fuel : ∀ r c,
  outOfBounds g r c = false →
  wallDistance g d r c ≤ Z.of_nat fuel →
  ∃ t, gravityFall fuel g (delta d).1 (delta d).2 r c = Ret t.
Proof.
  induction fuel as [|fuel IH]; intros r c Hin Hd;
    destruct (blocked g (delta d).1 (delta d).2 r c) eqn:Hb;
    try (rewrite gravityFall_blocked by done; eauto).
  - exfalso. unfold blocked in Hb. apply orb_false_iff in Hb as [Hb _].
    apply outOfBounds_false in Hb, Hin. destruct d; simpl in *; lia.
  - rewrite gravityFall_step by done.
    pose proof Hb as Hb'. unfold blocked in Hb'.
    apply orb_false_iff in Hb' as [Hn _].
    apply IH; [done|].
    apply outOfBounds_false in Hn, Hin. destruct d; simpl in *; lia.
Qed.

(** [getGravityTarget] returns on every call. *)
Lemma getGravityTarget_total g r c : ∃ t, getGravityTarget g r c = Ret t.
Proof.
  unfold getGravityTarget. destruct (gravity g); simpl; [|eauto].
  set (d := gravityDirection g).
  replace (let '(dr, dc) := delta d in gravityFall (fallBudget g) g dr dc r c)
    with (gravityFall (fallBudget g) g (delta d).1 (delta d).2 r c)
    by (by destruct (delta d)).
  destruct (blocked g (delta d).1 (delta d).2 r c) eqn:Hb.
  { rewrite gravityFall_blocked by done. eauto. }
  pose proof Hb as Hb'. unfold blocked in Hb'.
  apply orb_false_iff in Hb' as [Hn _].
  pose proof Hn as Hn'. apply outOfBounds_false in Hn'.
  unfold fallBudget.
  destruct (Z.to_nat (Z.max (height g) (width g))) as [|f] eqn:Hf; [lia|].
  rewrite gravityFall_step by done.
  apply gravityFall_enough; [done|].
  destruct d; simpl in *; lia.
Qed.

Lemma getGravityTarget_unfold g r c :
  gravity g = true →
  getGravityTarget g r c =
    gravityFall (fallBudget g) g (delta (gravityDirection g)).1
                (delta (gravityDirection g)).2 r c.
Proof.
  intros Hg. unfold getGravityTarget. rewrite Hg. simpl.
  by destruct (delta (gravityDirection g)).
Qed.

(** A cell is its own gravity target exactly when the loop exits at once. *)
Lemma getGravityTarget_self g r c :
  gravity g = true →
  getGravityTarget g r c = Ret (r, c)
  ↔ blocked g (delta (gravityDirection g)).1 (delta (gravityDirection g)).2 r c
    = true.
Proof.
  intros Hg. rewrite getGravityTarget_unfold by done. split.
  - intros H. apply gravityFall_spec in H as (k & Ht & Hstop & _).
    simpl in Hstop. injection Ht as Hr Hc.
    assert (k = 0%nat) as ->
      by (destruct (delta_cases (gravityDirection g)) as [E|[E|[E|E]]];
          rewrite E in *; simpl in *; lia).
    done.
  - apply gravityFall_blocked.
Qed.

(** ** Legal moves *)

Lemma blocked_iff g dr dc r c :
  blocked g dr dc r c = true
  ↔ outOfBounds g (r + dr) (c + dc) = true
    ∨ getCell (board g) (r + dr) (c + dc) ≠ None.
Proof.
  unfold blocked. rewrite orb_true_iff, bool_decide_eq_true. done.
Qed.

Lemma isValidMove_spec g row col :
  ∃ b, isValidMove g row col = Ret b
       ∧ (b = true ↔ gameOver g = false ∧ outOfBounds g row col = false
                      ∧ legalTarget g row col).
Proof.
  unfold isValidMove, legalTarget.
  destruct (gameOver g) eqn:Hover; [exists false; naive_solver|].
  destruct (outOfBounds g row col) eqn:Hin; [exists false; naive_solver|].
  destruct (gravity g) eqn:Hg.
  - destruct (getGravityTarget_total g row col) as [[tr tc] Ht].
    rewrite Ht. simpl.
    pose proof (getGravityTarget_self g row col Hg) as Hself.
    rewrite blocked_iff in Hself.
    destruct (negb (tr =? row) || negb (tc =? col)) eqn:E.
    + exists false. split; [done|]. split; [done|].
      intros (_ & _ & _ & Hb). apply Hself in Hb; [|done].
      rewrite Ht in Hb. injection Hb as -> ->.
      rewrite !Z.eqb_refl in E. done.
    + apply orb_false_iff in E as [E1 E2].
      apply negb_false_iff, Z.eqb_eq in E1, E2. subst tr tc.
      eexists. split; [done|]. rewrite bool_decide_eq_true.
      apply Hself in Ht. naive_solver.
  - eexists. split; [done|]. rewrite bool_decide_eq_true. naive_solver.
Qed.

Lemma In_getValidMoves g row col :
  In (row, col) (AIStrategy.getValidMoves g)
  ↔ outOfBounds g row col = false ∧ legalTarget g row col.
Proof.
  unfold AIStrategy.getValidMoves, legalTarget.
  destruct (gravity g) eqn:Hg.
  - destruct (delta (gravityDirection g)) as [dr dc] eqn:Hd. simpl.
    rewrite filter_In, In_allCells.
    destruct (getCell (board g) row col) as [p|] eqn:Hc.
    + rewrite bool_decide_eq_true_2 by done. naive_solver.
    + rewrite bool_decide_eq_false_2 by naive_solver.
      destruct (outOfBounds g (row + dr) (col + dc)) eqn:Hn; simpl.
      * naive_solver.
      * rewrite bool_decide_eq_true. naive_solver.
  - rewrite filter_In, In_allCells, bool_decide_eq_true. naive_solver.
Qed.

Lemma makeMove_valid_not_false g row col rnd g' :
  isValidMove g row col = Ret true → makeMove g row col rnd ≠ Ret (false, g').
Proof.
  intros Hv. unfold makeMove. rewrite Hv. simpl.
  destruct (checkWin _) as [[w|]| |]; simpl; try discriminate.
  destruct (isBoardFull _); try discriminate.
  destruct (rotateGravityIfNeeded _ _); simpl; discriminate.
Qed.

(** C2. [makeMove(row, col)] returns [false] and leaves the game as it was,
    without throwing, exactly when the game is over, or the coordinates are
    out of bounds, or the cell is occupied, or gravity is on and the cell is
    not its own gravity target. *)
Theorem makeMove_rejects_iff g row col rnd :
  makeMove g row col rnd = Ret (false, g)
  ↔ (gameOver g = true
     ∨ outOfBounds g row col = true
     ∨ getCell (board g) row col ≠ None
     ∨ (gravity g = true ∧ getGravityTarget g row col ≠ Ret (row, col))).
Proof.
  destruct (isValidMove_spec g row col) as (b & Hv & Hb).
  unfold legalTarget in Hb.
  assert (Hself : gravity g = true →
            getGravityTarget g row col = Ret (row, col)
            ↔ (outOfBounds g (row + (delta (gravityDirection g)).1)
                 (col + (delta (gravityDirection g)).2) = true
               ∨ getCell (board g) (row + (delta (gravityDirection g)).1)
                   (col + (delta (gravityDirection g)).2) ≠ None)).
  { intros Hg. rewrite getGravityTarget_self by done. apply blocked_iff. }
  destruct b.
  - split.
    + intros H. by apply makeMove_valid_not_false in H.
    + destruct Hb as [Hb _]. destruct Hb as (Ho & Hi & Hc & Hl); [done|].
      intros [H|[H|[H|[Hg H]]]]; [congruence|congruence|done|].
      exfalso. apply H, Hself; auto.
  - split.
    + intros _.
      destruct (gameOver g) eqn:Ho; [auto|].
      destruct (outOfBounds g row col) eqn:Hi; [auto|].
      destruct (decide (getCell (board g) row col = None)) as [Hc|Hc]; [|auto].
      destruct (gravity g) eqn:Hg.
      * do 3 right. split; [done|]. intros Ht.
        assert (false = true); [|done]. apply Hb. split_and!; try done.
        intros _. by apply Hself.
      * assert (false = true); [|done]. apply Hb. split_and!; done.
    + intros _. unfold makeMove. rewrite Hv. done.
Qed.

(** C3. In a game that is not over, an in-bounds cell is accepted by
    [isValidMove], and listed by [getValidMoves], exactly when it is empty
    and, under gravity, the next cell along the gravity direction is off the
    grid or occupied; the two functions agree on every such cell. *)
Theorem legal_moves_agree g row col :
  gameOver g = false → outOfBounds g row col = false →
  (isValidMove g row col = Ret true ↔ legalTarget g row col)
  ∧ (In (row, col) (AIStrategy.getValidMoves g) ↔ legalTarget g row col)
  ∧ ∃ b, isValidMove g row col = Ret b
         ∧ (b = true ↔ In (row, col) (AIStrategy.getValidMoves g)).
Proof.
  intros Ho Hi.
  destruct (isValidMove_spec g row col) as (b & Hv & Hb).
  pose proof (In_getValidMoves g row col) as Hm.
  split_and!.
  - rewrite Hv. split.
    + intros [= ->]. by apply Hb.
    + intros Hl. f_equal. apply Hb. done.
  - tauto.
  - exists b. split; [done|]. tauto.
Qed.

Lemma legal_moves_agree_witness :
  (isValidMove rotatingGame 5 3 = Ret true ↔ legalTarget rotatingGame 5 3)
  ∧ (In (5, 3) (AIStrategy.getValidMoves rotatingGame)
     ↔ legalTarget rotatingGame 5 3)
  ∧ ∃ b, isValidMove rotatingGame 5 3 = Ret b
         ∧ (b = true ↔ In (5, 3) (AIStrategy.getValidMoves rotatingGame)).
Proof. apply (legal_moves_agree rotatingGame 5 3); reflexivity. Defined.

(** ** Win detection never throws on a well-formed game *)

Lemma teamOf_valid g i :
  (i < length (players g))%nat → teamOf g i = Ret (teamAt g i).
Proof.
  intros Hi. unfold teamOf, teamAt.
  destruct (lookup_lt_is_Some_2 (players g) i Hi) as [p ->]. done.
Qed.

Lemma sameTeam_valid g p q :
  (p < length (players g))%nat → (q < length (players g))%nat →
  ∃ b, sameTeam g p q = Ret b
       ∧ (b = true ↔ ∃ t, teamAt g p = Some t ∧ teamAt g q = Some t).
Proof.
  intros Hp Hq. unfold sameTeam.
  rewrite (teamOf_valid g p), (teamOf_valid g q) by done. simpl.
  destruct (teamAt g p) as [t|] eqn:Ht.
  - simpl. eexists. split; [reflexivity|].
    rewrite bool_decide_eq_true. naive_solver.
  - exists false. naive_solver.
Qed.

(** The test [countsTowardWin] of [checkWin]. *)
Lemma countsTowardWin_valid g p q :
  (p < length (players g))%nat → (q < length (players g))%nat →
  ∃ b, (if (q =? p)%nat then Ret true
        else if teamCollaboration g then sameTeam g p q else Ret false) = Ret b
       ∧ (b = true ↔ friendly g p q).
Proof.
  intros Hp Hq. unfold friendly.
  destruct (Nat.eqb_spec q p) as [->|Hne]; [exists true; naive_solver|].
  destruct (teamCollaboration g).
  - destruct (sameTeam_valid g p q Hp Hq) as (b & -> & Hb).
    exists b. naive_solver.
  - exists false. naive_solver.
Qed.

Lemma extendRun_total n g p row col dr dc :
  cells_valid g → (p < length (players g))%nat →
  ∀ i cells, ∃ cs, extendRun n g p row col dr dc i cells = Ret cs.
Proof.
  intros Hv Hp. induction n as [|n IH]; intros i cells; simpl; [eauto|].
  destruct (outOfBounds _ _ _); [eauto|].
  destruct (getCell _ _ _) as [q|] eqn:Hq; [|eauto].
  destruct (countsTowardWin_valid g p q Hp (Hv _ _ _ Hq)) as (b & -> & _).
  simpl. destruct b; eauto.
Qed.

Lemma checkDirections_total g row col p ds :
  cells_valid g → (p < length (players g))%nat →
  ∃ r, checkDirections g row col p ds = Ret r.
Proof.
  intros Hv Hp. induction ds as [|[dr dc] ds IH]; simpl; [eauto|].
  destruct (extendRun_total (Z.to_nat (winLength g - 1)) g p row col dr dc
              Hv Hp 1 [(row, col)]) as [cs ->]. simpl.
  destruct (_ >=? _); [|apply IH].
  destruct (lookup_lt_is_Some_2 (players g) p Hp) as [pl ->]. eauto.
Qed.

Lemma checkCells_total g cells :
  cells_valid g → ∃ r, checkCells g cells = Ret r.
Proof.
  intros Hv. induction cells as [|[row col] rest IH]; cbn [checkCells]; [eauto|].
  destruct (getCell _ _ _) as [p|] eqn:Hp; [|apply IH].
  destruct (checkDirections_total g row col p directions Hv (Hv _ _ _ Hp))
    as [r ->]. simpl. destruct r; eauto.
Qed.

Lemma checkWin_total g : cells_valid g → ∃ r, checkWin g = Ret r.
Proof. apply checkCells_total. Qed.

(** Placing the index of a player keeps the pieces valid. *)
Lemma setCell_cells_valid g row col v :
  cells_valid g →
  (∀ p, v = Some p → (p < length (players g))%nat) →
  cells_valid (set_board g (setCell (board g) row col v)).
Proof.
  intros Hv Hp r c q. simpl.
  destruct (decide ((row, col) = (r, c))) as [[= <- <-]|Hne].
  - unfold getCell, setCell. intros H.
    destruct ((row <? 0) || (col <? 0)) eqn:E; [done|].
    destruct (board g !! Z.to_nat row) as [rw|] eqn:Hrw.
    + rewrite list_lookup_insert_eq in H by (by eapply lookup_lt_Some).
      destruct (decide (Z.to_nat col < length rw)%nat) as [Hlt|Hge].
      * rewrite list_lookup_insert_eq in H by done. by apply Hp.
      * rewrite list_insert_ge in H by lia.
        apply (Hv row col). unfold getCell. by rewrite E, Hrw.
    + by rewrite Hrw in H.
  - rewrite getCell_setCell_ne by done. apply Hv.
Qed.

(** Writing [null] over a piece put on an empty cell restores the board. *)
Lemma setCell_undo g row col v :
  board_dims g → outOfBounds g row col = false →
  getCell (board g) row col = None →
  setCell (setCell (board g) row col v) row col None = board g.
Proof.
  intros Hd Hin Hc.
  destruct (board_dims_lookup g row col Hd Hin) as (rw & Hrw & Hlt).
  apply outOfBounds_false in Hin.
  unfold getCell in Hc. unfold setCell.
  replace ((row <? 0) || (col <? 0)) with false in *
    by (symmetry; apply orb_false_iff; lia).
  rewrite Hrw in *.
  rewrite list_lookup_insert_eq by (by eapply lookup_lt_Some).
  rewrite list_insert_insert_eq, list_insert_insert_eq.
  destruct (lookup_lt_is_Some_2 rw (Z.to_nat col) Hlt) as [x Hx].
  rewrite Hx in Hc. subst x.
  rewrite (list_insert_id rw) by done. by apply list_insert_id.
Qed.

(** C9. On a well-formed game, for an empty in-bounds cell and the index of a
    player, [checkWinningMove] returns normally and leaves the board, and
    every other field of the game, exactly as it was before the call. *)
Theorem checkWinningMove_restores g row col playerIndex :
  wf g → outOfBounds g row col = false →
  getCell (board g) row col = None →
  (playerIndex < length (players g))%nat →
  ∃ r, AIStrategy.checkWinningMove g row col playerIndex = Ret (r, g).
Proof.
  intros (Hd & Hv & _) Hin Hc Hp. unfold AIStrategy.checkWinningMove.
  destruct (checkWin_total
              (set_board g (setCell (board g) row col (Some playerIndex))))
    as [r ->].
  { apply setCell_cells_valid; [done|]. by intros ? [= <-]. }
  exists r. simpl. rewrite setCell_undo by done. by destruct g.
Qed.

Lemma checkWinningMove_restores_witness :
  ∃ r, AIStrategy.checkWinningMove midGame 0 2 0 = Ret (r, midGame).
Proof.
  apply (checkWinningMove_restores midGame 0 2 0).
  - apply wfb_wf. vm_compute. reflexivity.
  - reflexivity.
  - reflexivity.
  - vm_compute. lia.
Defined.

(** ** Sums over the grid under a write *)

Lemma sum_list_with_update {A} (F G : A → nat) (l : list A) (x0 : A) :
  NoDup l → x0 ∈ l → (∀ x, x ∈ l → x ≠ x0 → F x = G x) →
  (sum_list_with F l + G x0 = sum_list_with G l + F x0)%nat.
Proof.
  intros Hnd. induction Hnd as [|x l Hx Hnd IH]; intros Hin Hag.
  - by apply elem_of_nil in Hin.
  - simpl. apply elem_of_cons in Hin as [->|Hin].
    + assert (sum_list_with F l = sum_list_with G l) as ->; [|lia].
      clear IH. induction l as [|y l IHl]; [done|]. simpl.
      rewrite (Hag y), IHl.
      * done.
      * by apply not_elem_of_cons in Hx as [_ ?].
      * by apply NoDup_cons in Hnd as [_ ?].
      * intros z Hz Hne. apply Hag; [|done].
        apply elem_of_cons in Hz as [->|Hz]; [by left|].
        right. by right.
      * right. by left.
      * apply not_elem_of_cons in Hx as [? _]. done.
    + rewrite (Hag x); [|by left|by intros ->].
      assert (sum_list_with F l + G x0 = sum_list_with G l + F x0)%nat; [|lia].
      apply IH; [done|]. intros z Hz Hne. apply Hag; [by right|done].
Qed.

Lemma cellSum_setCell f g r c v :
  board_dims g → outOfBounds g r c = false →
  (cellSum f (set_board g (setCell (board g) r c v)) + f r c (getCell (board g) r c)
   = cellSum f g + f r c v)%nat.
Proof.
  intros Hd Hin. unfold cellSum. rewrite allCells_set_board. simpl.
  pose proof (sum_list_with_update
                (fun '(r', c') => f r' c' (getCell (setCell (board g) r c v) r' c'))
                (fun '(r', c') => f r' c' (getCell (board g) r' c'))
                (allCells g) (r, c) (NoDup_allCells g)) as H.
  simpl in H. rewrite getCell_setCell_eq in H by done.
  apply H.
  - by apply elem_of_allCells.
  - intros [r' c'] _ Hne. rewrite getCell_setCell_ne; [done|]. by intros [= -> ->].
Qed.

(** ** One pass of [applyGravity] *)

(** A target different from the start is a free cell of the grid, strictly
    closer to the wall. *)
Lemma getGravityTarget_moved g row col nr nc :
  outOfBounds g row col = false →
  getGravityTarget g row col = Ret (nr, nc) → (nr, nc) ≠ (row, col) →
  outOfBounds g nr nc = false
  ∧ getCell (board g) nr nc = None
  ∧ 0 ≤ wallDistance g (gravityDirection g) nr nc
      < wallDistance g (gravityDirection g) row col.
Proof.
  intros Hin Ht Hne. destruct (gravity g) eqn:Hg.
  - rewrite getGravityTarget_unfold in Ht by done.
    apply gravityFall_spec in Ht as (k & [= -> ->] & _ & Hfree).
    destruct k as [|k]; [exfalso; apply Hne; f_equal; lia|].
    destruct (Hfree (S k)) as [Hb Hc]; [lia|]. split; [done|]. split; [done|].
    apply outOfBounds_false in Hb, Hin.
    destruct (gravityDirection g); simpl in *; lia.
  - unfold getGravityTarget in Ht. rewrite Hg in Ht. simpl in Ht. congruence.
Qed.

Lemma move_piece g row col piece nr nc :
  board_dims g →
  outOfBounds g row col = false → getCell (board g) row col = Some piece →
  outOfBounds g nr nc = false → getCell (board g) nr nc = None →
  let g2 :=
    set_board g (setCell (setCell (board g) nr nc (Some piece)) row col None) in
  board_dims g2
  ∧ (∀ f, (cellSum f g2 + f row col (Some piece) + f nr nc None
           = cellSum f g + f nr nc (Some piece) + f row col None)%nat)
  ∧ (cells_valid g → cells_valid g2).
Proof.
  intros Hd Hs Hsc Ht Htc g2.
  set (g1 := set_board g (setCell (board g) nr nc (Some piece))).
  assert (Hd1 : board_dims g1) by (by apply setCell_dims).
  assert (Hne : (nr, nc) ≠ (row, col)) by (intros [= -> ->]; congruence).
  split_and!.
  - apply (setCell_dims g1 row col None Hd1).
  - intros f.
    pose proof (cellSum_setCell f g nr nc (Some piece) Hd Ht) as H1.
    pose proof (cellSum_setCell f g1 row col None Hd1 Hs) as H2.
    simpl in H2. rewrite getCell_setCell_ne in H2 by done.
    rewrite Hsc in H2. rewrite Htc in H1.
    change (set_board g1 (setCell (setCell (board g) nr nc (Some piece)) row col None))
      with g2 in H2.
    fold g1 in H1. lia.
  - intros Hv.
    apply (setCell_cells_valid g1 row col None); [|done].
    apply (setCell_cells_valid g nr nc (Some piece)); [done|].
    intros p [= <-]. by eapply Hv.
Qed.

Lemma sameConfig_refl g : sameConfig g g.
Proof. unfold sameConfig. by destruct g. Qed.

Lemma sameConfig_trans g1 g2 g3 :
  sameConfig g1 g2 → sameConfig g2 g3 → sameConfig g1 g3.
Proof. unfold sameConfig. intros -> ->. done. Qed.

Lemma potential_sameConfig g g' :
  sameConfig g g' →
  potential g' =
  cellSum (fun r c x =>
             match x with
             | Some _ => Z.to_nat (wallDistance g (gravityDirection g) r c)
             | None => 0%nat
             end) g'.
Proof. intros ->. done. Qed.

(** What a pass does to the game. *)
Lemma gravityPass_spec positions : ∀ g changed,
  board_dims g →
  Forall (fun x => outOfBounds g x.1 x.2 = false) positions →
  ∃ g' changed',
    gravityPass g positions changed = Ret (g', changed')
    ∧ sameConfig g g'
    ∧ board_dims g'
    ∧ (∀ p, countPieces g' p = countPieces g p)
    ∧ (cells_valid g → cells_valid g')
    ∧ (potential g' ≤ potential g)%nat
    ∧ (changed' = true → changed = true ∨ (potential g' < potential g)%nat).
Proof.
  induction positions as [|[row col] rest IH]; intros g changed Hd Hall.
  - exists g, changed. simpl. split_and!; auto using sameConfig_refl.
  - apply Forall_cons in Hall as [Hin Hall]. simpl in Hin.
    cbn [gravityPass].
    destruct (getCell (board g) row col) as [piece|] eqn:Hc; [|by apply IH].
    destruct (getGravityTarget_total g row col) as [[nr nc] Ht]. rewrite Ht.
    simpl.
    destruct (negb (nr =? row) || negb (nc =? col)) eqn:E; [|by apply IH].
    assert (Hne : (nr, nc) ≠ (row, col)).
    { intros [= -> ->]. rewrite !Z.eqb_refl in E. done. }
    destruct (getGravityTarget_moved g row col nr nc Hin Ht Hne)
      as (Htin & Htc & Hwd).
    destruct (move_piece g row col piece nr nc Hd Hin Hc Htin Htc)
      as (Hd2 & Hsum & Hv2).
    set (g2 := set_board g
                 (setCell (setCell (board g) nr nc (Some piece)) row col None))
      in *.
    destruct (IH g2 true Hd2 Hall)
      as (g' & changed' & Hrun & Hsc & Hd' & Hcnt & Hv' & Hpot & Hch).
    assert (Hlt : (potential g2 < potential g)%nat).
    { rewrite (potential_sameConfig g g2) by done. unfold potential.
      pose proof (Hsum (fun r c x =>
                          match x with
                          | Some _ =>
                              Z.to_nat (wallDistance g (gravityDirection g) r c)
                          | None => 0%nat
                          end)) as H.
      simpl in H. lia. }
    exists g', changed'.
    split; [done|].
    split; [apply (sameConfig_trans g g2 g'); [reflexivity|exact Hsc]|].
    split; [done|].
    split; [|split; [auto|split; [lia|intros _; right; lia]]].
    intros p. rewrite Hcnt. unfold countPieces.
    pose proof (Hsum (fun _ _ x => if bool_decide (x = Some p) then 1 else 0)%nat)
      as H.
    simpl in H. lia.
Qed.

Lemma gravityPass_true positions : ∀ g g' changed',
  gravityPass g positions true = Ret (g', changed') → changed' = true.
Proof.
  induction positions as [|[row col] rest IH]; intros g g' c' H; cbn [gravityPass] in H.
  - by injection H as _ <-.
  - destruct (getCell _ _ _); [|by eapply IH].
    destruct (getGravityTarget g row col) as [[nr nc]| |]; simpl in H; try done.
    destruct (_ || _); by eapply IH.
Qed.

(** A pass that reports no change has left the game as it was. *)
Lemma gravityPass_unchanged positions : ∀ g g' changed,
  gravityPass g positions changed = Ret (g', false) → g' = g ∧ changed = false.
Proof.
  induction positions as [|[row col] rest IH]; intros g g' c H; cbn [gravityPass] in H.
  - by injection H as <- <-.
  - destruct (getCell _ _ _); [|by eapply IH].
    destruct (getGravityTarget g row col) as [[nr nc]| |]; simpl in H; try done.
    destruct (_ || _); [|by eapply IH].
    by apply gravityPass_true in H.
Qed.

(** ** The loop of [applyGravity] *)

Lemma insertBy_Permutation cmp x l : insertBy cmp x l ≡ₚ x :: l.
Proof.
  induction l as [|y l IH]; simpl; [done|].
  destruct (cmp x y <=? 0); [done|]. rewrite IH. apply Permutation_swap.
Qed.

Lemma sortBy_Permutation cmp l : sortBy cmp l ≡ₚ l.
Proof.
  induction l as [|x l IH]; simpl; [done|].
  rewrite insertBy_Permutation. by rewrite IH.
Qed.

Lemma occupiedCells_inBounds g :
  Forall (fun x => outOfBounds g x.1 x.2 = false) (occupiedCells g).
Proof.
  apply Forall_forall. intros [r c] Hx. unfold occupiedCells in Hx.
  apply list_elem_of_In, filter_In in Hx as [Hx _].
  by apply In_allCells in Hx.
Qed.

Lemma positions_inBounds g d :
  Forall (fun x => outOfBounds g x.1 x.2 = false)
         (sortBy (gravityOrder d) (occupiedCells g)).
Proof. rewrite sortBy_Permutation. apply occupiedCells_inBounds. Qed.

Lemma applyGravityLoop_spec fuel : ∀ g,
  board_dims g → (potential g < fuel)%nat →
  ∃ g', applyGravityLoop fuel g = Ret g'
        ∧ sameConfig g g'
        ∧ board_dims g'
        ∧ (∀ p, countPieces g' p = countPieces g p)
        ∧ (cells_valid g → cells_valid g').
Proof.
  induction fuel as [|fuel IH]; intros g Hd Hfuel; [lia|].
  cbn [applyGravityLoop].
  destruct (gravityPass_spec _ g false Hd (positions_inBounds g (gravityDirection g)))
    as (g1 & changed & -> & Hsc & Hd1 & Hcnt & Hv & Hpot & Hch).
  simpl. destruct changed.
  - destruct Hch as [?|Hlt]; [done|done|].
    destruct (IH g1 Hd1) as (g' & Hrun & Hsc' & Hd' & Hcnt' & Hv'); [lia|].
    exists g'. split; [done|]. split; [by eapply sameConfig_trans|].
    split; [done|]. split; [|auto].
    intros p. by rewrite Hcnt', Hcnt.
  - exists g1. auto.
Qed.

(** When the loop exits, one more pass finds nothing to move. *)
Lemma applyGravityLoop_settled fuel : ∀ g g',
  applyGravityLoop fuel g = Ret g' →
  gravityPass g' (sortBy (gravityOrder (gravityDirection g')) (occupiedCells g'))
              false = Ret (g', false).
Proof.
  induction fuel as [|fuel IH]; intros g g' H; [done|].
  cbn [applyGravityLoop] in H.
  destruct (gravityPass g _ false) as [[g1 changed]| |] eqn:Hp; simpl in H;
    try done.
  destruct changed; [by eapply IH|].
  injection H as <-. pose proof Hp as Hp'.
  apply gravityPass_unchanged in Hp' as [-> _]. done.
Qed.

Lemma sum_list_with_bound {A} (F : A → nat) (l : list A) (M : nat) :
  (∀ x, x ∈ l → (F x ≤ M)%nat) → (sum_list_with F l ≤ length l * M)%nat.
Proof.
  induction l as [|x l IH]; intros H; simpl; [lia|].
  pose proof (H x (list_elem_of_here _ _)).
  assert (sum_list_with F l ≤ length l * M)%nat; [|lia].
  apply IH. intros y Hy. apply H. by right.
Qed.

Lemma length_allCells g :
  length (allCells g) = (Z.to_nat (height g) * Z.to_nat (width g))%nat.
Proof.
  unfold allCells. rewrite <- (length_seqZ 0 (height g)).
  induction (seqZ 0 (height g)) as [|r l IH]; csimpl; [done|].
  rewrite length_app, length_fmap, length_seqZ, IH. lia.
Qed.

Lemma potential_bound g : (potential g < passBudget g)%nat.
Proof.
  unfold potential, passBudget, cellSum.
  set (M := Z.to_nat (Z.max (height g) (width g))).
  pose proof (sum_list_with_bound
    (fun '(r, c) =>
       match getCell (board g) r c with
       | Some _ => Z.to_nat (wallDistance g (gravityDirection g) r c)
       | None => 0%nat
       end) (allCells g) M) as H.
  rewrite length_allCells in H.
  assert (Z.to_nat (height g) * Z.to_nat (width g) * M
          ≤ Z.to_nat (height g * width g * Z.max (height g) (width g)))%nat.
  { unfold M. destruct (Z_le_gt_dec (height g) 0) as [Hh|Hh].
    { replace (Z.to_nat (height g)) with 0%nat by lia. lia. }
    destruct (Z_le_gt_dec (width g) 0) as [Hw|Hw].
    { replace (Z.to_nat (width g)) with 0%nat by lia. lia. }
    rewrite !Z2Nat.inj_mul by lia. lia. }
  enough (sum_list_with
            (fun '(r, c) =>
               match getCell (board g) r c with
               | Some _ => Z.to_nat (wallDistance g (gravityDirection g) r c)
               | None => 0%nat
               end) (allCells g)
          ≤ Z.to_nat (height g) * Z.to_nat (width g) * M)%nat by lia.
  apply H. intros [r c] Hx. apply elem_of_allCells, outOfBounds_false in Hx.
  unfold M. destruct (getCell (board g) r c); [|lia].
  destruct (gravityDirection g); simpl; lia.
Qed.

(** [applyGravity] returns; only the board changes, the pieces are the same,
    and a second call finds the board settled. *)
Lemma applyGravity_spec g :
  board_dims g →
  ∃ g', applyGravity g = Ret g'
        ∧ sameConfig g g'
        ∧ board_dims g'
        ∧ (∀ p, countPieces g' p = countPieces g p)
        ∧ (cells_valid g → cells_valid g')
        ∧ applyGravity g' = Ret g'.
Proof.
  intros Hd. unfold applyGravity. destruct (gravity g) eqn:Hg; simpl.
  - destruct (applyGravityLoop_spec (passBudget g) g Hd (potential_bound g))
      as (g' & Hrun & Hsc & Hd' & Hcnt & Hv).
    exists g'. split; [done|]. split; [done|]. split; [done|].
    split; [done|]. split; [done|].
    replace (gravity g') with true by (rewrite Hsc; done). simpl.
    apply applyGravityLoop_settled in Hrun.
    unfold passBudget. cbn [applyGravityLoop]. rewrite Hrun. done.
  - exists g. rewrite Hg. simpl. split_and!; auto using sameConfig_refl.
Qed.

Lemma gravityPass_sameConfig positions : ∀ g changed g' changed',
  gravityPass g positions changed = Ret (g', changed') → sameConfig g g'.
Proof.
  induction positions as [|[row col] rest IH]; intros g c g' c' H;
    cbn [gravityPass] in H.
  - injection H as <- _. apply sameConfig_refl.
  - destruct (getCell _ _ _); [|by eapply IH].
    destruct (getGravityTarget g row col) as [[nr nc]| |]; simpl in H; try done.
    destruct (_ || _); [|by eapply IH].
    apply IH in H. eapply sameConfig_trans; [|exact H]. reflexivity.
Qed.

Lemma applyGravityLoop_sameConfig fuel : ∀ g g',
  applyGravityLoop fuel g = Ret g' → sameConfig g g'.
Proof.
  induction fuel as [|fuel IH]; intros g g' H; [done|].
  cbn [applyGravityLoop] in H.
  destruct (gravityPass g _ false) as [[g1 changed]| |] eqn:Hp; simpl in H;
    try done.
  apply gravityPass_sameConfig in Hp. destruct changed.
  - apply IH in H. by eapply sameConfig_trans.
  - by injection H as <-.
Qed.

Lemma applyGravity_sameConfig g g' : applyGravity g = Ret g' → sameConfig g g'.
Proof.
  unfold applyGravity. destruct (gravity g).
  - apply applyGravityLoop_sameConfig.
  - intros [= <-]. apply sameConfig_refl.
Qed.

(** C4. On a board of the game's dimensions [applyGravity] returns, a second
    call right after it returns the very same game, and with gravity off the
    call changes nothing. *)
Theorem applyGravity_idempotent g :
  board_dims g →
  ∃ g', applyGravity g = Ret g'
        ∧ applyGravity g' = Ret g'
        ∧ (gravity g = false → g' = g).
Proof.
  intros Hd.
  destruct (applyGravity_spec g Hd) as (g' & Hrun & _ & _ & _ & _ & Hagain).
  exists g'. split; [done|]. split; [done|].
  intros Hg. unfold applyGravity in Hrun. rewrite Hg in Hrun. simpl in Hrun.
  congruence.
Qed.

Lemma applyGravity_idempotent_witness :
  ∃ g', applyGravity floatingGame = Ret g'
        ∧ applyGravity g' = Ret g'
        ∧ (gravity floatingGame = false → g' = floatingGame).
Proof. apply (applyGravity_idempotent floatingGame). exact floatingGame_dims. Defined.

(** C10. [applyGravity] moves pieces and neither creates nor destroys them:
    for every player index, the number of cells holding it is the same before
    and after the call. *)
Theorem applyGravity_preserves_pieces g :
  board_dims g →
  ∃ g', applyGravity g = Ret g' ∧ ∀ p, countPieces g' p = countPieces g p.
Proof.
  intros Hd.
  destruct (applyGravity_spec g Hd) as (g' & Hrun & _ & _ & Hcnt & _).
  eauto.
Qed.

Lemma applyGravity_preserves_pieces_witness :
  ∃ g', applyGravity floatingGame = Ret g'
        ∧ ∀ p, countPieces g' p = countPieces floatingGame p.
Proof.
  apply (applyGravity_preserves_pieces floatingGame). exact floatingGame_dims.
Defined.

(** ** [makeMove] on a well-formed game *)

Lemma rotateGravityIfNeeded_spec g rnd :
  board_dims g →
  ∃ g', rotateGravityIfNeeded g rnd = Ret g'
        ∧ board_dims g'
        ∧ (cells_valid g → cells_valid g')
        ∧ ∃ d b,
            g' = set_board
                   (set_gravityDirection
                      (set_turnCount g
                         (turnCount g + if rotationActive g then 1 else 0)) d) b.
Proof.
  intros Hd. unfold rotateGravityIfNeeded, rotationActive.
  assert (Hid : ∃ d b,
             g = set_board
                   (set_gravityDirection (set_turnCount g (turnCount g + 0)) d) b).
  { exists (gravityDirection g), (board g). rewrite Z.add_0_r. by destruct g. }
  destruct (gravityRotation g) as [gr|]; [|by exists g].
  destruct (mode gr) eqn:Hm; [by exists g| | |].
  all: destruct (negb (turns gr =? 0) && _);
    [ match goal with
      | |- ∃ _, applyGravity ?g2 = _ ∧ _ =>
          destruct (applyGravity_spec g2 Hd)
            as (g' & Hrun & Hsc & Hd' & _ & Hv & _);
          exists g'; split; [done|]; split; [done|]; split; [exact Hv|];
          eexists _, (board g'); exact Hsc
      end
    | eexists; split; [done|]; split; [done|]; split; [done|];
      exists (gravityDirection g), (board g); by destruct g ].
Qed.

Lemma wf_placed g row col :
  wf g → outOfBounds g row col = false →
  wf (set_board g (setCell (board g) row col (Some (currentPlayerIndex g)))).
Proof.
  intros (Hd & Hv & Hp) Hin. split; [by apply setCell_dims|].
  split; [|done]. apply setCell_cells_valid; [done|]. by intros ? [= <-].
Qed.

Lemma makeMove_spec g row col rnd :
  wf g →
  ∃ ok g', makeMove g row col rnd = Ret (ok, g')
           ∧ wf g' ∧ sameSetup g g'
           ∧ (ok = false → g' = g)
           ∧ turnCount g' =
               turnCount g
               + (if ok && negb (gameOver g') && rotationActive g then 1 else 0).
Proof.
  intros Hwf. unfold makeMove.
  destruct (isValidMove_spec g row col) as (b & -> & Hb). simpl.
  destruct b; simpl.
  2:{ exists false, g. rewrite Z.add_0_r.
      split; [done|]. split; [done|]. split; [by repeat split|]. done. }
  destruct Hb as [Hb _]. destruct Hb as (Hover & Hin & _); [done|].
  pose proof (wf_placed g row col Hwf Hin) as Hwf1.
  set (g1 := set_board g (setCell (board g) row col (Some (currentPlayerIndex g))))
    in *.
  destruct (checkWin_total g1) as [r ->]; [apply Hwf1|]. simpl.
  destruct r as [w|].
  { eexists true, _. split; [done|]. simpl. rewrite Z.add_0_r.
    split; [exact Hwf1|]. split; [by repeat split|]. done. }
  destruct (isBoardFull g1).
  { eexists true, _. split; [done|]. simpl. rewrite Z.add_0_r.
    split; [exact Hwf1|]. split; [by repeat split|]. done. }
  set (g2 := set_currentPlayerIndex g1 _).
  destruct Hwf1 as (Hd1 & Hv1 & Hp1).
  destruct (rotateGravityIfNeeded_spec g2 rnd Hd1) as (g3 & -> & Hd3 & Hv3 & d & b & Hg3).
  simpl. exists true, g3. split; [done|].
  split.
  { split; [done|]. split; [by apply Hv3|].
    rewrite Hg3. simpl. apply Nat.mod_upper_bound.
    destruct Hwf as (_ & _ & Hp). lia. }
  split; [rewrite Hg3; by repeat split|].
  split; [done|].
  rewrite Hg3. simpl. rewrite Hover. simpl. done.
Qed.

Lemma rotationActive_sameSetup g g' :
  sameSetup g g' → rotationActive g' = rotationActive g.
Proof. intros (_ & _ & _ & _ & _ & H & _). unfold rotationActive. by rewrite H. Qed.

Lemma playLog_spec ms : ∀ g,
  wf g →
  ∃ gf successes completed,
    playLog g ms = Ret (gf, successes, completed)
    ∧ turnCount gf =
        turnCount g + (if rotationActive g then Z.of_nat completed else 0).
Proof.
  induction ms as [|[[row col] rnd] rest IH]; intros g Hwf.
  - exists g, 0%nat, 0%nat. split; [done|]. destruct (rotationActive g); simpl; lia.
  - cbn [playLog].
    destruct (makeMove_spec g row col rnd Hwf)
      as (ok & g' & -> & Hwf' & Hss & _ & Htc). simpl.
    destruct (IH g' Hwf') as (gf & s & c & -> & Hgf). simpl.
    eexists _, _, _. split; [done|].
    rewrite Hgf, Htc, (rotationActive_sameSetup g g') by done.
    destruct (rotationActive g), ok, (gameOver g'); simpl; lia.
Qed.

Lemma wf_reset g : players g ≠ [] → wf (reset g).
Proof.
  intros Hp. split; [|split].
  - split; simpl.
    + by rewrite length_replicate.
    + apply Forall_replicate. by rewrite length_replicate.
  - intros r c p. unfold getCell. simpl.
    destruct (_ || _); [done|].
    destruct (replicate _ _ !! _) as [rw|] eqn:E; [|done].
    apply lookup_replicate in E as [-> _].
    destruct (replicate _ _ !! _) as [x|] eqn:E'; [|done].
    apply lookup_replicate in E' as [-> _]. done.
  - simpl. destruct (players g); [done|simpl; lia].
Qed.

(** C1 (as amended). After a reset, whatever calls of [makeMove] follow,
    [turnCount] equals the number of calls that were accepted and did not end
    the game when gravity rotation is configured with a mode other than
    ['none'], and stays 0 when it is absent or ['none']. *)
Theorem turnCount_counts_completed_moves g ms :
  players g ≠ [] →
  ∃ gf successes completed,
    playLog (reset g) ms = Ret (gf, successes, completed)
    ∧ turnCount gf = if rotationActive g then Z.of_nat completed else 0.
Proof.
  intros Hp.
  destruct (playLog_spec ms (reset g) (wf_reset g Hp)) as (gf & s & c & H & Htc).
  exists gf, s, c. split; [done|]. rewrite Htc. done.
Qed.

Lemma turnCount_counts_completed_moves_witness :
  ∃ gf successes completed,
    playLog (reset rotatingGame)
            [(5, 3, dir_down); (0, 6, dir_down); (9, 9, dir_down)]
    = Ret (gf, successes, completed)
    ∧ turnCount gf = if rotationActive rotatingGame then Z.of_nat completed else 0.
Proof.
  apply (turnCount_counts_completed_moves rotatingGame
           [(5, 3, dir_down); (0, 6, dir_down); (9, 9, dir_down)]).
  vm_compute. discriminate.
Defined.

(** Without gravity rotation one accepted move leaves [turnCount] at 0. *)
Lemma turnCount_counterexample :
  ∃ gf, playLog (reset ticTacToe) [(0, 0, dir_down)] = Ret (gf, 1%nat, 1%nat)
        ∧ turnCount gf = 0 ∧ turnCount gf ≠ 1.
Proof. eexists. split; [vm_compute; reflexivity|]. split; [reflexivity|]. done. Qed.

(** ** Gravity rotation *)

Lemma makeMove_completed g row col rnd g' :
  makeMove g row col rnd = Ret (true, g') → gameOver g' = false →
  ∃ g2, sameSetup g g2 ∧ gravityDirection g2 = gravityDirection g
        ∧ rotateGravityIfNeeded g2 rnd = Ret g'.
Proof.
  unfold makeMove. intros H Hover.
  destruct (isValidMove g row col) as [[|]| |]; simpl in H; try done.
  destruct (checkWin _) as [[w|]| |]; simpl in H; try done.
  { injection H as <-. done. }
  destruct (isBoardFull _).
  { injection H as <-. done. }
  destruct (rotateGravityIfNeeded _ rnd) as [g3| |] eqn:Hrot; simpl in H; try done.
  injection H as <-. eexists. split; [|split; [|exact Hrot]]; [|done].
  by repeat split.
Qed.

Lemma directionAt_clockwise d :
  directionAt ((directionIndex d + 1) mod 4)%nat = clockwise d.
Proof. by destruct d. Qed.

Lemma rotate_clockwise g rnd g' :
  gravityRotation g = Some {| turns := 1; mode := mode_clockwise |} →
  rotateGravityIfNeeded g rnd = Ret g' →
  gravityDirection g' = clockwise (gravityDirection g) ∧ sameSetup g g'.
Proof.
  intros Hr H. unfold rotateGravityIfNeeded in H. rewrite Hr in H.
  cbn [mode turns] in H. rewrite Z.rem_1_r in H.
  change (negb (1 =? 0) && (0 =? 0)) with true in H. cbv iota in H.
  apply applyGravity_sameConfig in H. rewrite H. simpl.
  split; [apply directionAt_clockwise|]. by repeat split.
Qed.

Lemma iter_clockwise n d :
  Nat.iter n clockwise (clockwise d) = clockwise (Nat.iter n clockwise d).
Proof. induction n as [|n IH]; simpl; [done|]. by rewrite IH. Qed.

Lemma playCompleted_clockwise ms : ∀ g gf,
  gravityRotation g = Some {| turns := 1; mode := mode_clockwise |} →
  playCompleted g ms = Some gf →
  gravityDirection gf = Nat.iter (length ms) clockwise (gravityDirection g).
Proof.
  induction ms as [|[[row col] rnd] rest IH]; intros g gf Hr H.
  - by injection H as <-.
  - cbn [playCompleted] in H.
    destruct (makeMove g row col rnd) as [[[|] g']| |] eqn:Hm; try done.
    destruct (gameOver g') eqn:Hover; [done|].
    destruct (makeMove_completed _ _ _ _ _ Hm Hover) as (g2 & Hss & Hd & Hrot).
    assert (Hr2 : gravityRotation g2
                  = Some {| turns := 1; mode := mode_clockwise |}).
    { destruct Hss as (_ & _ & _ & _ & _ & -> & _). done. }
    destruct (rotate_clockwise _ _ _ Hr2 Hrot) as [Hd' Hss'].
    rewrite (IH g' gf); [|destruct Hss' as (_ & _ & _ & _ & _ & -> & _); done|done].
    rewrite Hd', Hd. simpl. apply iter_clockwise.
Qed.

(** C7. With gravity rotation [{mode: 'clockwise', turns: 1}], every accepted
    move that does not end the game advances the gravity direction one step
    in the cycle down → right → up → left → down; starting at [down], four
    such moves bring it back to [down]. *)
Theorem clockwise_rotation_cycle g :
  gravityRotation g = Some {| turns := 1; mode := mode_clockwise |} →
  (∀ row col rnd g',
     makeMove g row col rnd = Ret (true, g') → gameOver g' = false →
     gravityDirection g' = clockwise (gravityDirection g))
  ∧ (∀ ms gf,
       playCompleted g ms = Some gf →
       gravityDirection gf = Nat.iter (length ms) clockwise (gravityDirection g))
  ∧ (∀ ms gf,
       gravityDirection g = dir_down → length ms = 4%nat →
       playCompleted g ms = Some gf → gravityDirection gf = dir_down).
Proof.
  intros Hr. split; [|split].
  - intros row col rnd g' Hm Hover.
    destruct (makeMove_completed _ _ _ _ _ Hm Hover) as (g2 & Hss & Hd & Hrot).
    assert (Hr2 : gravityRotation g2
                  = Some {| turns := 1; mode := mode_clockwise |}).
    { destruct Hss as (_ & _ & _ & _ & _ & -> & _). done. }
    destruct (rotate_clockwise _ _ _ Hr2 Hrot) as [-> _]. by rewrite Hd.
  - intros ms gf. by apply playCompleted_clockwise.
  - intros ms gf Hd Hlen H.
    rewrite (playCompleted_clockwise ms g gf Hr H), Hlen, Hd. done.
Qed.

Lemma clockwise_rotation_cycle_witness :
  ∃ gf,
    playCompleted rotatingGame
      [(5, 3, dir_down); (0, 6, dir_down); (0, 0, dir_down); (2, 0, dir_down)]
    = Some gf
    ∧ gravityDirection gf = dir_down.
Proof.
  destruct (playCompleted rotatingGame
              [(5, 3, dir_down); (0, 6, dir_down); (0, 0, dir_down);
               (2, 0, dir_down)]) as [gf|] eqn:E;
    [|vm_compute in E; discriminate].
  exists gf. split; [reflexivity|].
  destruct (clockwise_rotation_cycle rotatingGame) as (_ & _ & H);
    [reflexivity|].
  apply (H [(5, 3, dir_down); (0, 6, dir_down); (0, 0, dir_down);
            (2, 0, dir_down)] gf); [reflexivity|reflexivity|exact E].
Defined.

(** ** What [checkWin] finds *)

Section WinScan.
Variable g : ConnectGame.
Hypothesis Hvalid : cells_valid g.

Lemma extendRun_spec p row col dr dc n :
  (p < length (players g))%nat →
  ∀ i cells cs,
    extendRun n g p row col dr dc i cells = Ret cs →
    ∃ k : nat,
      (k ≤ n)%nat
      ∧ length cs = (length cells + k)%nat
      ∧ (∀ j : nat, (j < k)%nat → continues g p row col dr dc (i + Z.of_nat j))
      ∧ ((k < n)%nat → ¬ continues g p row col dr dc (i + Z.of_nat k)).
Proof.
  intros Hp. induction n as [|m IH]; intros i cells cs H.
  - injection H as <-. exists 0%nat. split_and!; [lia|lia|lia|lia].
  - cbn [extendRun] in H.
    assert (Hstop : ¬ continues g p row col dr dc (i + Z.of_nat 0) →
              cs = cells →
              ∃ k : nat,
                (k ≤ S m)%nat ∧ length cs = (length cells + k)%nat
                ∧ (∀ j : nat, (j < k)%nat →
                     continues g p row col dr dc (i + Z.of_nat j))
                ∧ ((k < S m)%nat →
                     ¬ continues g p row col dr dc (i + Z.of_nat k))).
    { intros Hn ->. exists 0%nat. split_and!; [lia|lia|lia|done]. }
    replace (i + Z.of_nat 0) with i in Hstop by lia.
    destruct (outOfBounds g (row + dr * i) (col + dc * i)) eqn:Hb.
    { injection H as <-. apply Hstop; [|done]. intros [? _]. congruence. }
    destruct (getCell (board g) (row + dr * i) (col + dc * i)) as [q|] eqn:Hq.
    2:{ injection H as <-. apply Hstop; [|done].
        intros (_ & q & ? & _). congruence. }
    destruct (countsTowardWin_valid g p q Hp (Hvalid _ _ _ Hq)) as (b & Hc & Hb').
    rewrite Hc in H. simpl in H. destruct b.
    + apply IH in H as (k & Hk & Hlen & Hgood & Hbad).
      exists (S k). split; [lia|]. split.
      { rewrite Hlen, length_app. simpl. lia. }
      split.
      * intros j Hj. destruct j as [|j].
        -- replace (i + Z.of_nat 0) with i by lia.
           split; [done|]. exists q. split; [done|]. by apply Hb'.
        -- replace (i + Z.of_nat (S j)) with (i + 1 + Z.of_nat j) by lia.
           apply Hgood. lia.
      * intros Hlt.
        replace (i + Z.of_nat (S k)) with (i + 1 + Z.of_nat k) by lia.
        apply Hbad. lia.
    + injection H as <-. apply Hstop; [|done].
      intros (_ & q' & Hq' & Hf). rewrite Hq in Hq'. injection Hq' as <-.
      apply Hb' in Hf. done.
Qed.

(** From an occupied cell, the scan of one direction collects [winLength]
    cells exactly when a qualifying run of that length starts there. *)
Lemma extendRun_win p row col dr dc cs :
  1 ≤ winLength g →
  getCell (board g) row col = Some p → outOfBounds g row col = false →
  extendRun (Z.to_nat (winLength g - 1)) g p row col dr dc 1 [(row, col)] = Ret cs →
  (Z.of_nat (length cs) >=? winLength g) = true
  ↔ isRun g p row col dr dc (Z.to_nat (winLength g)).
Proof.
  intros Hwl Hc Hin H.
  apply extendRun_spec in H as (k & Hk & Hlen & Hgood & Hbad);
    [|by eapply Hvalid].
  simpl in Hlen. rewrite Z.geb_le. split.
  - intros Hge j Hj. split; [|done].
    destruct j as [|j].
    + unfold continues. simpl. rewrite !Z.mul_0_r, !Z.add_0_r. split; [done|].
      exists p. split; [done|]. by left.
    + replace (Z.of_nat (S j)) with (1 + Z.of_nat j) by lia.
      apply Hgood. lia.
  - intros Hrun.
    destruct (decide (k < Z.to_nat (winLength g - 1))%nat) as [Hlt|Hge]; [|lia].
    exfalso. apply (Hbad Hlt).
    destruct (Hrun (S k)) as [Hcont _]; [lia|].
    replace (1 + Z.of_nat k) with (Z.of_nat (S k)) by lia. done.
Qed.

Lemma checkDirections_spec p row col ds :
  1 ≤ winLength g →
  getCell (board g) row col = Some p → outOfBounds g row col = false →
  ∃ r, checkDirections g row col p ds = Ret r
       ∧ match r with
         | Some w =>
             win_winner w = winnerLabel g p ∧ win_playerIndex w = p
             ∧ ∃ d, In d ds
                    ∧ isRun g p row col d.1 d.2 (Z.to_nat (winLength g))
         | None =>
             ∀ d, In d ds →
                  ¬ isRun g p row col d.1 d.2 (Z.to_nat (winLength g))
         end.
Proof.
  intros Hwl Hc Hin.
  assert (Hp : (p < length (players g))%nat) by (by eapply Hvalid).
  induction ds as [|[dr dc] ds IH]; cbn [checkDirections].
  - exists None. split; [done|]. by intros d [].
  - destruct (extendRun_total (Z.to_nat (winLength g - 1)) g p row col dr dc
                Hvalid Hp 1 [(row, col)]) as [cs Hcs].
    rewrite Hcs. simpl.
    pose proof (extendRun_win p row col dr dc cs Hwl Hc Hin Hcs) as Hwin.
    destruct (Z.of_nat (length cs) >=? winLength g).
    + unfold winnerLabel.
      destruct (lookup_lt_is_Some_2 (players g) p Hp) as [pl ->].
      eexists. split; [done|]. simpl. split; [done|]. split; [done|].
      exists (dr, dc). split; [by left|]. by apply Hwin.
    + destruct IH as (r & -> & Hr). exists r. split; [done|].
      destruct r as [w|].
      * destruct Hr as (? & ? & d & ? & ?). split; [done|]. split; [done|].
        exists d. split; [by right|done].
      * intros d [<-|Hd]; [|by apply Hr].
        simpl. intros Hrun. apply Hwin in Hrun. done.
Qed.

Lemma checkCells_spec cells :
  1 ≤ winLength g →
  Forall (fun x => outOfBounds g x.1 x.2 = false) cells →
  ∃ r, checkCells g cells = Ret r
       ∧ match r with
         | Some w =>
             ∃ row col d,
               In (row, col) cells ∧ In d directions
               ∧ isRun g (win_playerIndex w) row col d.1 d.2
                       (Z.to_nat (winLength g))
               ∧ getCell (board g) row col = Some (win_playerIndex w)
               ∧ win_winner w = winnerLabel g (win_playerIndex w)
         | None =>
             ∀ row col p d,
               In (row, col) cells → In d directions →
               getCell (board g) row col = Some p →
               ¬ isRun g p row col d.1 d.2 (Z.to_nat (winLength g))
         end.
Proof.
  intros Hwl. induction cells as [|[row col] rest IH]; intros Hall;
    cbn [checkCells].
  - exists None. split; [done|]. by intros ???? [].
  - apply Forall_cons in Hall as [Hin Hall]. simpl in Hin.
    destruct (IH Hall) as (r' & Hrest & Hr'). clear IH.
    destruct (getCell (board g) row col) as [p|] eqn:Hc.
    + destruct (checkDirections_spec p row col directions Hwl Hc Hin)
        as (r & -> & Hr). simpl.
      destruct r as [w|].
      * exists (Some w). split; [done|].
        destruct Hr as (Hw & Hpi & d & Hd & Hrun).
        exists row, col, d. rewrite Hpi.
        split; [by left|]. done.
      * exists r'. split; [done|]. destruct r' as [w|].
        -- destruct Hr' as (row' & col' & d & ? & ?).
           exists row', col', d. split; [by right|done].
        -- intros row' col' p' d [[= <- <-]|Hin'] Hd Hc'.
           ++ rewrite Hc in Hc'. injection Hc' as <-. by apply Hr.
           ++ by eapply Hr'.
    + exists r'. split; [done|]. destruct r' as [w|].
      * destruct Hr' as (row' & col' & d & ? & ?).
        exists row', col', d. split; [by right|done].
      * intros row' col' p' d [[= <- <-]|Hin'] Hd Hc'; [congruence|].
        by eapply Hr'.
Qed.

Lemma allCells_inBounds :
  Forall (fun x => outOfBounds g x.1 x.2 = false) (allCells g).
Proof.
  apply Forall_forall. intros [r c] Hx. by apply elem_of_allCells in Hx.
Qed.

(** [checkWin] reports a win exactly when the board has a qualifying run of
    [winLength] cells, and the win it reports is such a run. *)
Lemma checkWin_spec :
  1 ≤ winLength g →
  ∃ r, checkWin g = Ret r
       ∧ match r with
         | Some w =>
             ∃ row col d,
               In d directions
               ∧ isRun g (win_playerIndex w) row col d.1 d.2
                       (Z.to_nat (winLength g))
               ∧ getCell (board g) row col = Some (win_playerIndex w)
               ∧ win_winner w = winnerLabel g (win_playerIndex w)
         | None => ¬ hasRun g (Z.to_nat (winLength g))
         end.
Proof.
  intros Hwl. unfold checkWin.
  destruct (checkCells_spec (allCells g) Hwl allCells_inBounds) as (r & -> & Hr).
  exists r. split; [done|]. destruct r as [w|].
  - destruct Hr as (row & col & d & _ & ?). by exists row, col, d.
  - intros (p & row & col & d & Hd & Hrun).
    destruct (Hrun 0%nat) as [[Hin (q & Hq & _)] Hc]; [lia|].
    simpl in Hin, Hq. rewrite !Z.mul_0_r, !Z.add_0_r in Hin, Hq.
    apply (Hr row col p d); [by apply In_allCells|done|by apply Hc|done].
Qed.
End WinScan.

Lemma samePlayerRun_isRun g p row col dr dc n :
  samePlayerRun g p row col dr dc n → isRun g p row col dr dc n.
Proof.
  intros H j Hj. destruct (H j Hj) as [Hin Hc]. split.
  - split; [done|]. exists p. split; [done|]. by left.
  - intros ->. simpl in Hc. by rewrite !Z.mul_0_r, !Z.add_0_r in Hc.
Qed.

(** C5. On a well-formed game with a positive [winLength]: if some player
    holds [winLength] contiguous cells along one of the four axes, [checkWin]
    returns a win; if the longest qualifying run of the board has
    [winLength - 1] cells, [checkWin] returns [null]. *)
Theorem checkWin_detects_runs g :
  wf g → 1 ≤ winLength g →
  (∀ p row col d,
     In d directions →
     samePlayerRun g p row col d.1 d.2 (Z.to_nat (winLength g)) →
     ∃ w, checkWin g = Ret (Some w))
  ∧ (longestRun g (Z.to_nat (winLength g - 1)) → checkWin g = Ret None).
Proof.
  intros (_ & Hv & _) Hwl.
  destruct (checkWin_spec g Hv Hwl) as (r & Hr & Hspec). split.
  - intros p row col d Hd Hrun. destruct r as [w|]; [eauto|].
    exfalso. apply Hspec. exists p, row, col, d.
    split; [done|]. by apply samePlayerRun_isRun.
  - intros [_ Hno]. destruct r as [w|]; [|done].
    exfalso. apply Hno.
    replace (S (Z.to_nat (winLength g - 1))) with (Z.to_nat (winLength g)) by lia.
    destruct Hspec as (row & col & d & Hd & Hrun & _).
    by exists (win_playerIndex w), row, col, d.
Qed.

(** ** Team collaboration *)

Lemma isRun_inBounds g p row col dr dc n :
  (0 < n)%nat → isRun g p row col dr dc n →
  outOfBounds g row col = false ∧ getCell (board g) row col = Some p.
Proof.
  intros Hn H. destruct (H 0%nat Hn) as [[Hin _] Hc]. simpl in Hin.
  rewrite !Z.mul_0_r, !Z.add_0_r in Hin. auto.
Qed.

(** The list [winningRuns] is complete. *)
Lemma isRun_winningRuns g p row col d :
  cells_valid g → 1 ≤ winLength g → In d directions →
  isRun g p row col d.1 d.2 (Z.to_nat (winLength g)) →
  In (row, col, d) (winningRuns g).
Proof.
  intros Hv Hwl Hd Hrun.
  assert (Hpos : (0 < Z.to_nat (winLength g))%nat) by lia.
  destruct (isRun_inBounds _ _ _ _ _ _ _ Hpos Hrun) as [Hin Hc].
  unfold winningRuns. apply filter_In. split.
  - apply in_prod; [by apply In_allCells|done].
  - unfold runFrom. destruct d as [dr dc]. rewrite Hc.
    destruct (extendRun_total (Z.to_nat (winLength g - 1)) g p row col dr dc Hv
                (Hv _ _ _ Hc) 1 [(row, col)]) as [cs Hcs].
    rewrite Hcs. by apply (extendRun_win g Hv p row col dr dc cs).
Qed.

(** Both halves on concrete boards: the top row of [wonGame] is found, and
    [midGame], whose longest runs have two cells, has no winner. *)
Lemma checkWin_detects_runs_witness :
  (∃ w, checkWin wonGame = Ret (Some w)) ∧ checkWin midGame = Ret None.
Proof.
  split.
  - apply (checkWin_detects_runs wonGame) with (p := 0%nat) (row := 0) (col := 0)
                                                (d := (0, 1)).
    + apply wfb_wf. vm_compute. reflexivity.
    + vm_compute. discriminate.
    + vm_compute. auto.
    + intros j Hj. change (Z.to_nat (winLength wonGame)) with 3%nat in Hj.
      destruct j as [|[|[|j]]]; [vm_compute; auto..|lia].
  - assert (Hwf : wf midGame) by (apply wfb_wf; vm_compute; reflexivity).
    apply (checkWin_detects_runs midGame); [exact Hwf|vm_compute; discriminate|].
    split.
    + exists 0%nat, 0, 0, (0, 1). split; [vm_compute; auto|].
      intros j Hj. change (Z.to_nat (winLength midGame - 1)) with 2%nat in Hj.
      split; [|reflexivity].
      destruct j as [|[|j]]; [| |lia];
        (split; [reflexivity|]; exists 0%nat; split; [reflexivity|by left]).
    + intros (p & row & col & d & Hd & Hrun).
      change (S (Z.to_nat (winLength midGame - 1)))
        with (Z.to_nat (winLength midGame)) in Hrun.
      apply isRun_winningRuns in Hrun;
        [|apply Hwf|vm_compute; discriminate|done].
      vm_compute in Hrun. destruct Hrun.
Defined.

(** C6. On a well-formed game whose only qualifying run of [winLength] cells
    is shared by two distinct players [p] and [q] of the same team [t], each
    holding at least one of its cells: with team collaboration [checkWin]
    reports a win whose winner is the label of that team, and on the same
    board without team collaboration it reports no win. *)
Theorem team_collaboration_decides_win g p q t row col d :
  wf g → 1 ≤ winLength g → teamCollaboration g = true →
  p ≠ q → teamAt g p = Some t → teamAt g q = Some t →
  In d directions →
  (∀ j : nat, (j < Z.to_nat (winLength g))%nat →
     outOfBounds g (row + d.1 * Z.of_nat j) (col + d.2 * Z.of_nat j) = false
     ∧ (getCell (board g) (row + d.1 * Z.of_nat j) (col + d.2 * Z.of_nat j) = Some p
        ∨ getCell (board g) (row + d.1 * Z.of_nat j) (col + d.2 * Z.of_nat j)
          = Some q)) →
  (∃ j : nat, (j < Z.to_nat (winLength g))%nat
     ∧ getCell (board g) (row + d.1 * Z.of_nat j) (col + d.2 * Z.of_nat j) = Some p) →
  (∃ j : nat, (j < Z.to_nat (winLength g))%nat
     ∧ getCell (board g) (row + d.1 * Z.of_nat j) (col + d.2 * Z.of_nat j) = Some q) →
  (∀ p' row' col' d',
     In d' directions →
     isRun g p' row' col' d'.1 d'.2 (Z.to_nat (winLength g)) →
     (row', col', d') = (row, col, d)) →
  (∃ w, checkWin g = Ret (Some w)
        ∧ win_winner w = ("Team " ++ toStringBase 10 (t + 1)%nat)%string)
  ∧ checkWin (set_teamCollaboration g false) = Ret None.
Proof.
  intros (_ & Hv & _) Hwl Hcollab Hpq Htp Htq Hd Hcells [jp [Hjp Hcp]]
         [jq [Hjq Hcq]] Huniq.
  assert (Hmate : ∀ a b, (a = p ∨ a = q) → (b = p ∨ b = q) → friendly g a b).
  { intros a b Ha Hb.
    destruct (decide (b = a)) as [->|Hne]; [by left|]. right. split; [done|].
    exists t. destruct Ha as [-> | ->], Hb as [-> | ->]; done. }
  destruct (Hcells 0%nat) as [Hin0 Hc0]; [lia|].
  simpl in Hin0, Hc0. rewrite !Z.mul_0_r, !Z.add_0_r in Hin0, Hc0.
  assert (Hshared : ∃ p0, (p0 = p ∨ p0 = q)
                          ∧ isRun g p0 row col d.1 d.2 (Z.to_nat (winLength g))).
  { assert (∃ p0, (p0 = p ∨ p0 = q) ∧ getCell (board g) row col = Some p0)
      as (p0 & Hp0 & Hc) by (destruct Hc0; eauto).
    exists p0. split; [done|]. intros j Hj.
    destruct (Hcells j Hj) as [Hin Hc']. split; [|done].
    split; [done|]. destruct Hc' as [Hc'|Hc']; eexists; (split; [exact Hc'|]);
      apply Hmate; auto. }
  split.
  - destruct (checkWin_spec g Hv Hwl) as (r & Hr & Hspec). destruct r as [w|].
    + exists w. split; [done|].
      destruct Hspec as (row' & col' & d' & Hd' & Hrun & Hc & ->).
      apply Huniq in Hrun as [= -> -> ->]; [|done].
      assert (teamAt g (win_playerIndex w) = Some t) as Ht.
      { destruct Hc0 as [Hc0|Hc0]; rewrite Hc0 in Hc; injection Hc as <-; done. }
      unfold winnerLabel. unfold teamAt in Ht.
      destruct (players g !! win_playerIndex w) as [pl|]; [|done].
      by rewrite Ht.
    + exfalso. apply Hspec. destruct Hshared as (p0 & _ & Hrun).
      by exists p0, row, col, d.
  - set (g' := set_teamCollaboration g false).
    destruct (checkWin_spec g' Hv Hwl) as (r & Hr & Hspec).
    destruct r as [w|]; [|done]. exfalso.
    destruct Hspec as (row' & col' & d' & Hd' & Hrun & Hc & _).
    assert (Hsame : ∀ j : nat, (j < Z.to_nat (winLength g))%nat →
              getCell (board g) (row' + d'.1 * Z.of_nat j)
                      (col' + d'.2 * Z.of_nat j) = Some (win_playerIndex w)).
    { intros j Hj. destruct (Hrun j Hj) as [(_ & q' & Hq' & Hf) _].
      destruct Hf as [->|[Hf _]]; [done|done]. }
    assert (Hrun' : isRun g (win_playerIndex w) row' col' d'.1 d'.2
                          (Z.to_nat (winLength g))).
    { intros j Hj. destruct (Hrun j Hj) as [(Hin & _) Hz]. split; [|done].
      split; [done|]. exists (win_playerIndex w). split; [by apply Hsame|by left]. }
    apply Huniq in Hrun' as [= -> -> ->]; [|done].
    rewrite (Hsame jp Hjp) in Hcp. rewrite (Hsame jq Hjq) in Hcq. congruence.
Qed.

Lemma team_collaboration_decides_win_witness :
  (∃ w, checkWin teamGame = Ret (Some w)
        ∧ win_winner w = ("Team " ++ toStringBase 10 (0 + 1)%nat)%string)
  ∧ checkWin (set_teamCollaboration teamGame false) = Ret None.
Proof.
  assert (Hwf : wf teamGame) by (apply wfb_wf; vm_compute; reflexivity).
  apply (team_collaboration_decides_win teamGame 0%nat 1%nat 0%nat 0 0 (0, 1)).
  - exact Hwf.
  - vm_compute. discriminate.
  - reflexivity.
  - lia.
  - reflexivity.
  - reflexivity.
  - vm_compute. auto.
  - intros j Hj. change (Z.to_nat (winLength teamGame)) with 3%nat in Hj.
    destruct j as [|[|[|j]]]; [vm_compute; auto..|lia].
  - exists 0%nat. split; [vm_compute; lia|reflexivity].
  - exists 1%nat. split; [vm_compute; lia|reflexivity].
  - intros p' row' col' d' Hd' Hrun.
    apply isRun_winningRuns in Hrun; [|apply Hwf|vm_compute; discriminate|done].
    vm_compute in Hrun. destruct Hrun as [H|[]]. by injection H as <- <- <-.
Defined.

(** ** The Offensive AI *)

Section Offensive.
Variable g : ConnectGame.
Variable p : nat.
Hypothesis Hvalid : cells_valid g.
Hypothesis Hp : (p < length (players g))%nat.

(** The test [cell === playerIndex || sameTeam] of the chain loops. *)
Lemma chainTest_valid q :
  (q < length (players g))%nat →
  ∃ st, sameTeam g p q = Ret st ∧ ((q =? p)%nat || st = true ↔ ally g p q).
Proof.
  intros Hq. destruct (sameTeam_valid g p q Hp Hq) as (st & -> & Hst).
  exists st. split; [done|]. unfold ally.
  rewrite orb_true_iff, Nat.eqb_eq. naive_solver.
Qed.

Lemma chainCount_spec row col dr dc dir n :
  ∀ i acc,
    ∃ k : nat,
      OffensiveAI.chainCount n g p row col dr dc dir i acc = Ret (acc + Z.of_nat k)
      ∧ (k ≤ n)%nat
      ∧ (∀ j : nat, (j < k)%nat →
           heldAt (ally g p) g row col dr dc dir (i + Z.of_nat j))
      ∧ ((k < n)%nat →
           ¬ heldAt (ally g p) g row col dr dc dir (i + Z.of_nat k)).
Proof.
  induction n as [|m IH]; intros i acc.
  - exists 0%nat. simpl. rewrite Z.add_0_r. split_and!; [done|lia|lia|lia].
  - cbn [OffensiveAI.chainCount].
    assert (Hstop : ¬ heldAt (ally g p) g row col dr dc dir i →
              ∃ k : nat,
                Ret acc = Ret (acc + Z.of_nat k)
                ∧ (k ≤ S m)%nat
                ∧ (∀ j : nat, (j < k)%nat →
                     heldAt (ally g p) g row col dr dc dir (i + Z.of_nat j))
                ∧ ((k < S m)%nat →
                     ¬ heldAt (ally g p) g row col dr dc dir (i + Z.of_nat k))).
    { intros Hn. exists 0%nat. simpl. rewrite !Z.add_0_r.
      split_and!; [done|lia|lia|done]. }
    destruct (outOfBounds g (row + dr * i * dir) (col + dc * i * dir)) eqn:Hb.
    { apply Hstop. intros [? _]. congruence. }
    destruct (getCell (board g) (row + dr * i * dir) (col + dc * i * dir))
      as [q|] eqn:Hq.
    2:{ apply Hstop. intros (_ & q & ? & _). congruence. }
    destruct (chainTest_valid q (Hvalid _ _ _ Hq)) as (st & -> & Hst). simpl.
    destruct ((q =? p)%nat || st) eqn:E.
    + destruct (IH (i + 1) (acc + 1)) as (k & -> & Hk & Hgood & Hbad).
      exists (S k). split; [f_equal; lia|]. split; [lia|]. split.
      * intros j Hj. destruct j as [|j].
        -- replace (i + Z.of_nat 0) with i by lia.
           split; [done|]. exists q. split; [done|]. by apply Hst.
        -- replace (i + Z.of_nat (S j)) with (i + 1 + Z.of_nat j) by lia.
           apply Hgood. lia.
      * intros Hlt.
        replace (i + Z.of_nat (S k)) with (i + 1 + Z.of_nat k) by lia.
        apply Hbad. lia.
    + apply Hstop. intros (_ & q' & Hq' & Ha).
      rewrite Hq in Hq'. injection Hq' as <-. apply Hst in Ha. done.
Qed.

Lemma spaceCount_spec row col dr dc dir n :
  ∀ i acc, ∃ s, OffensiveAI.spaceCount n g p row col dr dc dir i acc = Ret s
                ∧ acc ≤ s ≤ acc + Z.of_nat n.
Proof.
  induction n as [|m IH]; intros i acc; cbn [OffensiveAI.spaceCount].
  - exists acc. split; [done|lia].
  - destruct (outOfBounds _ _ _); [exists acc; split; [done|lia]|].
    assert (∃ b : bool,
              match getCell (board g) (row + dr * i * dir) (col + dc * i * dir) with
              | Some cell =>
                  if (cell =? p)%nat then Ret true else OffensiveAI.sameTeamOpt g p cell
              | None => Ret true
              end = Ret b) as [b ->].
    { destruct (getCell _ _ _) as [q|]; [|eauto].
      destruct (q =? p)%nat; [eauto|].
      unfold OffensiveAI.sameTeamOpt. rewrite teamOf_valid by done. simpl.
      destruct (teamAt g p); eauto. }
    simpl. destruct b; [|exists acc; split; [done|lia]].
    destruct (IH (i + 1) (acc + 1)) as (s & -> & Hs). exists s. split; [done|lia].
Qed.

(** The chain of one direction reaches [winLength] exactly when the move
    completes a line along it. *)
Lemma chain_completes row col dr dc (k1 k2 : nat) :
  let n := Z.to_nat (winLength g - 1) in
  1 ≤ winLength g →
  (k1 ≤ n)%nat → (k2 ≤ n)%nat →
  (∀ j : nat, (j < k1)%nat →
     heldAt (ally g p) g row col dr dc (-1) (1 + Z.of_nat j)) →
  ((k1 < n)%nat → ¬ heldAt (ally g p) g row col dr dc (-1) (1 + Z.of_nat k1)) →
  (∀ j : nat, (j < k2)%nat →
     heldAt (ally g p) g row col dr dc 1 (1 + Z.of_nat j)) →
  ((k2 < n)%nat → ¬ heldAt (ally g p) g row col dr dc 1 (1 + Z.of_nat k2)) →
  (0 + Z.of_nat k1 + Z.of_nat k2 + 1 >=? winLength g) = true
  ↔ lineThrough (ally g p) g row col dr dc.
Proof.
  intros n Hwl Hk1 Hk2 Hg1 Hb1 Hg2 Hb2. rewrite Z.geb_le. split.
  - intros Hge. exists k1. fold n. split; [done|]. split.
    + intros j Hj. replace (Z.of_nat j) with (1 + Z.of_nat (j - 1)) by lia.
      apply Hg1. lia.
    + intros j Hj. replace (Z.of_nat j) with (1 + Z.of_nat (j - 1)) by lia.
      apply Hg2. lia.
  - intros (k & Hk & Hback & Hfwd). fold n in Hk, Hfwd.
    assert (k ≤ k1)%nat.
    { destruct (decide (k ≤ k1)%nat) as [|Hlt]; [done|]. exfalso.
      apply Hb1; [lia|].
      replace (1 + Z.of_nat k1) with (Z.of_nat (S k1)) by lia.
      apply Hback. lia. }
    assert (n - k ≤ k2)%nat.
    { destruct (decide (n - k ≤ k2)%nat) as [|Hlt]; [done|]. exfalso.
      apply Hb2; [lia|].
      replace (1 + Z.of_nat k2) with (Z.of_nat (S k2)) by lia.
      apply Hfwd. lia. }
    lia.
Qed.

Hypothesis Hwl : winLength g = 4.

(** [OffensiveAI.evaluateMove] returns 1000 for a completing move and a score between
    1 and 27 for any other. *)
Lemma evaluateDirections_spec row col ds :
  ∀ maxExtension,
    0 ≤ maxExtension ≤ 27 →
    ∃ s, OffensiveAI.evaluateDirections g row col p ds maxExtension = Ret s
         ∧ ((s = 1000
             ∧ ∃ d, In d ds ∧ lineThrough (ally g p) g row col d.1 d.2)
            ∨ (1 ≤ s ≤ 27
               ∧ ∀ d, In d ds → ¬ lineThrough (ally g p) g row col d.1 d.2)).
Proof.
  induction ds as [|[dr dc] ds IH]; intros mx Hmx; cbn [OffensiveAI.evaluateDirections].
  - eexists. split; [done|]. right. split; [|by intros d []].
    destruct (mx >? 0) eqn:E; lia.
  - destruct (chainCount_spec row col dr dc (-1) (Z.to_nat (winLength g - 1)) 1 0)
      as (k1 & -> & Hk1 & Hg1 & Hb1). simpl.
    destruct (chainCount_spec row col dr dc 1 (Z.to_nat (winLength g - 1)) 1
                (0 + Z.of_nat k1)) as (k2 & -> & Hk2 & Hg2 & Hb2). simpl.
    pose proof (chain_completes row col dr dc k1 k2 ltac:(lia) Hk1 Hk2
                  Hg1 Hb1 Hg2 Hb2) as Hiff.
    destruct (0 + Z.of_nat k1 + Z.of_nat k2 + 1 >=? winLength g) eqn:E.
    + exists 1000. split; [done|]. left. split; [done|].
      exists (dr, dc). split; [by left|]. by apply Hiff.
    + assert (Hno : ¬ lineThrough (ally g p) g row col dr dc).
      { intros H. apply Hiff in H. done. }
      destruct (spaceCount_spec row col dr dc (-1)
                  (Z.to_nat (winLength g - 1)) 1 1) as (s1 & -> & Hs1). simpl.
      destruct (spaceCount_spec row col dr dc 1
                  (Z.to_nat (winLength g - 1)) 1 s1) as (s2 & -> & Hs2). simpl.
      assert (Hchain : 0 + Z.of_nat k1 + Z.of_nat k2 ≤ 2).
      { destruct (Z.geb_spec (0 + Z.of_nat k1 + Z.of_nat k2 + 1) (winLength g));
          [done|lia]. }
      assert (Hnext :
                ∀ mx', 0 ≤ mx' ≤ 27 →
                ∃ s, OffensiveAI.evaluateDirections g row col p ds mx' = Ret s
                     ∧ ((s = 1000
                         ∧ ∃ d, In d ((dr, dc) :: ds)
                                ∧ lineThrough (ally g p) g row col d.1 d.2)
                        ∨ (1 ≤ s ≤ 27
                           ∧ ∀ d, In d ((dr, dc) :: ds) →
                                  ¬ lineThrough (ally g p) g row col d.1 d.2))).
      { intros mx' Hmx'. destruct (IH mx' Hmx') as (s & -> & Hs).
        exists s. split; [done|]. destruct Hs as [[-> (d & Hd & Hl)]|[Hs Hl]].
        - left. split; [done|]. exists d. split; [by right|done].
        - right. split; [done|]. intros d [<-|Hd]; [done|by apply Hl]. }
      destruct (s2 >=? winLength g); apply Hnext; lia.
Qed.

Lemma evaluateMove_spec m :
  ∃ s, OffensiveAI.evaluateMove g m p = Ret s
       ∧ ((s = 1000 ∧ completes g p m) ∨ (1 ≤ s ≤ 27 ∧ ¬ completes g p m)).
Proof.
  unfold OffensiveAI.evaluateMove.
  destruct (evaluateDirections_spec m.1 m.2 directions 0) as (s & -> & Hs);
    [lia|].
  exists s. split; [done|]. destruct Hs as [[-> Hd]|[Hs Hd]].
  - left. done.
  - right. split; [done|]. intros (d & Hin & Hl). by apply (Hd d).
Qed.

(** Once the best move scores 1000 the loop of [OffensiveAI.getMove] keeps it. *)
Lemma bestOf_keeps moves m :
  OffensiveAI.bestOf g p moves (Some m) 1000 = Ret (Some m).
Proof.
  induction moves as [|m' rest IH]; cbn [OffensiveAI.bestOf]; [done|].
  destruct (evaluateMove_spec m') as (s & -> & Hs). simpl.
  replace (s >? 1000) with false; [done|].
  symmetry. rewrite Z.gtb_ltb. apply Z.ltb_ge. destruct Hs as [[-> _]|[? _]]; lia.
Qed.

Lemma bestOf_finds moves m :
  In m moves → completes g p m →
  (∀ m', In m' moves → completes g p m' → m' = m) →
  ∀ best score, score < 1000 → OffensiveAI.bestOf g p moves best score = Ret (Some m).
Proof.
  intros Hin Hm Huniq.
  induction moves as [|m' rest IH]; intros best score Hscore; [done|].
  cbn [OffensiveAI.bestOf]. destruct (evaluateMove_spec m') as (s & -> & Hs). simpl.
  destruct Hs as [[-> Hc]|[Hs Hc]].
  - assert (m' = m) as -> by (apply Huniq; [by left|done]).
    replace (1000 >? score) with true by (symmetry; rewrite Z.gtb_ltb; apply Z.ltb_lt; lia).
    apply bestOf_keeps.
  - destruct Hin as [->|Hin]; [done|].
    assert (Hrec : ∀ best' score', score' < 1000 →
              OffensiveAI.bestOf g p rest best' score' = Ret (Some m)).
    { apply IH; [done|]. intros m'' Hin''. apply Huniq. by right. }
    destruct (s >? score); apply Hrec; lia.
Qed.
End Offensive.

(** With [winLength = 4], when exactly one legal move completes four in a row
    of cells that [evaluateMove] counts for the player, [getMove] returns that
    move: it scores 1000 and every other legal move scores between 1 and 27. *)
Lemma offensive_picks_completion g p m rnd :
  wf g → winLength g = 4 → (p < length (players g))%nat →
  In m (AIStrategy.getValidMoves g) → completes g p m →
  (∀ m', In m' (AIStrategy.getValidMoves g) → completes g p m' → m' = m) →
  OffensiveAI.getMove g p rnd = Ret (Some m)
  ∧ OffensiveAI.evaluateMove g m p = Ret 1000
  ∧ ∀ m', In m' (AIStrategy.getValidMoves g) → m' ≠ m →
          ∃ s, OffensiveAI.evaluateMove g m' p = Ret s ∧ 1 ≤ s ≤ 27.
Proof.
  intros (_ & Hv & _) Hwl Hp Hin Hm Huniq. split; [|split].
  - unfold OffensiveAI.getMove.
    rewrite (bestOf_finds g p Hv Hp Hwl _ m Hin Hm Huniq None (-1)) by lia.
    done.
  - destruct (evaluateMove_spec g p Hv Hp Hwl m) as (s & -> & [[-> _]|[_ Hn]]);
      [done|by destruct Hn].
  - intros m' Hin' Hne.
    destruct (evaluateMove_spec g p Hv Hp Hwl m') as (s & -> & [[-> Hc]|[Hs _]]).
    + exfalso. apply Hne. by apply Huniq.
    + exists s. split; [done|lia].
Qed.

Lemma completes_iff_score g p m :
  wf g → winLength g = 4 → (p < length (players g))%nat →
  completes g p m ↔ OffensiveAI.evaluateMove g m p = Ret 1000.
Proof.
  intros (_ & Hv & _) Hwl Hp.
  destruct (evaluateMove_spec g p Hv Hp Hwl m) as (s & -> & [[-> Hc]|[Hs Hn]]).
  - done.
  - split; [done|]. intros [= ->]. lia.
Qed.

Lemma completesOwn_completes g p m : completesOwn g p m → completes g p m.
Proof.
  intros (d & Hd & k & Hk & Hback & Hfwd). exists d. split; [done|].
  exists k. split; [done|].
  split; intros j Hj; [destruct (Hback j Hj) as (? & q & ? & ->)
                      |destruct (Hfwd j Hj) as (? & q & ? & ->)];
    (split; [done|]); exists p; (split; [done|]); by left.
Qed.

Lemma offenseGame_wf : wf offenseGame.
Proof. apply wfb_wf. vm_compute. reflexivity. Defined.

Ltac refute_held H j :=
  let X := fresh "X" in
  let Xin := fresh "Xin" in
  let q := fresh "q" in
  let Xq := fresh "Xq" in
  let Xe := fresh "Xe" in
  assert (X := H j ltac:(vm_compute; lia));
  destruct X as (Xin & q & Xq & Xe);
  vm_compute in Xin, Xq; congruence.

(** C8 (defect of [evaluateMove]).  [trapGame] is reached in play, has
    [winLength = 4] and team collaboration disabled, and player 0 is to move.
    The cell (2, 3) is the one legal move that completes four in a row for
    player 0 and the one legal move after which [checkWin] reports a win.  The
    Offensive AI returns (0, 3) instead, next to three cells of the team mate:
    [evaluateMove] scores it 1000, its winning score, although
    [checkWinningMove] finds no win in it.  [OffensiveSmartAI] and [SmartAI],
    which probe with [checkWinningMove], return (2, 3) on the same position. *)
Theorem offensive_misses_the_win :
  playMoves (newGame 5 3 4 false trapPlayers None false)
    [ (2, 0, dir_down); (0, 0, dir_down); (1, 0, dir_down);
      (2, 1, dir_down); (0, 1, dir_down); (1, 4, dir_down);
      (2, 2, dir_down); (0, 2, dir_down); (0, 4, dir_down) ]
  = Ret trapGame
  ∧ winLength trapGame = 4
  ∧ teamCollaboration trapGame = false
  ∧ currentPlayerIndex trapGame = 0%nat
  ∧ In (2, 3) (AIStrategy.getValidMoves trapGame)
  ∧ completesOwn trapGame 0 (2, 3)
  ∧ (∃ w, AIStrategy.checkWinningMove trapGame 2 3 0 = Ret (Some w, trapGame))
  ∧ (∀ m', In m' (AIStrategy.getValidMoves trapGame) →
           completesOwn trapGame 0 m' → m' = (2, 3))
  ∧ (∀ m', In m' (AIStrategy.getValidMoves trapGame) →
           wouldWin trapGame 0 m' → m' = (2, 3))
  ∧ (∀ rnd, OffensiveAI.getMove trapGame 0 rnd = Ret (Some (0, 3)))
  ∧ In (0, 3) (AIStrategy.getValidMoves trapGame)
  ∧ OffensiveAI.evaluateMove trapGame (0, 3) 0 = Ret 1000
  ∧ AIStrategy.checkWinningMove trapGame 0 3 0 = Ret (None, trapGame)
  ∧ (∀ rnd, OffensiveSmartAI.getMove trapGame 0 rnd
            = Ret (Some (2, 3), trapGame))
  ∧ SmartAI.getMove trapGame 0 = Ret ((2, 3), trapGame).
Proof.
  assert (Hwf : wf trapGame) by (apply wfb_wf; vm_compute; reflexivity).
  split; [vm_compute; reflexivity|].
  split; [reflexivity|]. split; [reflexivity|]. split; [reflexivity|].
  split; [vm_compute; auto 10|]. split.
  { exists (0, 1). split; [by left|]. exists 3%nat. split; [vm_compute; lia|].
    split; intros j Hj; [|vm_compute in Hj; lia].
    destruct j as [|[|[|[|j]]]]; try lia;
      (split; [reflexivity|]; exists 0%nat; split; reflexivity). }
  split; [eexists; vm_compute; reflexivity|].
  split.
  { intros m' Hin Hown.
    destruct (decide (m' = (0, 3))) as [->|Hne].
    - exfalso. destruct Hown as (d & Hd & k & Hk & Hback & Hfwd).
      vm_compute in Hk.
      simpl in Hd. destruct Hd as [<-|[<-|[<-|[<-|[]]]]];
        destruct k as [|[|[|[|k]]]]; try lia;
        first [ refute_held Hback 1%nat | refute_held Hfwd 1%nat
              | refute_held Hback 2%nat | refute_held Hfwd 2%nat
              | refute_held Hback 3%nat | refute_held Hfwd 3%nat ].
    - apply completesOwn_completes in Hown.
      apply (completes_iff_score trapGame 0 m' Hwf) in Hown;
        [|reflexivity|vm_compute; lia].
      vm_compute in Hin.
      repeat (destruct Hin as [<-|Hin];
              [first [reflexivity|done|vm_compute in Hown; discriminate]|]).
      destruct Hin. }
  split.
  { intros m' Hin [w Hw]. vm_compute in Hin.
    repeat (destruct Hin as [<-|Hin];
            [first [reflexivity|vm_compute in Hw; discriminate]|]).
    destruct Hin. }
  split; [intros rnd; vm_compute; reflexivity|].
  split; [vm_compute; auto 10|]. split; [reflexivity|].
  split; [vm_compute; reflexivity|].
  split; [intros rnd; vm_compute; reflexivity|vm_compute; reflexivity].
Qed.

(** ** End-to-end scenarios *)

(** Scenario 1: on the 3 x 3 board player 0 wins with the top row. *)
Example scenario_top_row :
  ∃ gf, playMoves ticTacToe
          [ (0, 0, dir_down); (1, 1, dir_down); (0, 1, dir_down);
            (1, 0, dir_down); (0, 2, dir_down) ] = Ret gf
        ∧ gameOver gf = true
        ∧ winner gf = Some "Player 0"%string
        ∧ winningCells gf = [(0, 0); (0, 1); (0, 2)].
Proof. eexists. split; [vm_compute; reflexivity|]. by repeat split. Qed.

(** Scenario 2: with gravity down, pieces put in column 3 pile up from the
    bottom row; once the column is full a further placement is refused. *)
Example scenario_full_column :
  ∃ gf, playMoves (newGame 7 6 4 true (soloPlayers 2) None true)
          [ (5, 3, dir_down); (4, 3, dir_down); (3, 3, dir_down);
            (2, 3, dir_down); (1, 3, dir_down); (0, 3, dir_down) ] = Ret gf
        ∧ List.map (fun rw => rw !! 3%nat) (board gf)
          = [ Some (Some 1%nat); Some (Some 0%nat); Some (Some 1%nat);
              Some (Some 0%nat); Some (Some 1%nat); Some (Some 0%nat) ]
        ∧ makeMove gf 0 3 dir_down = Ret (false, gf).
Proof. eexists. split; [vm_compute; reflexivity|]. by repeat split. Qed.

(** * Further properties of the rules engine *)

(** ** Where a piece comes to rest *)

Lemma getGravityTarget_path g r c :
  gravity g = true →
  ∃ k : nat,
    getGravityTarget g r c
    = Ret (r + Z.of_nat k * (delta (gravityDirection g)).1,
           c + Z.of_nat k * (delta (gravityDirection g)).2)
    ∧ blocked g (delta (gravityDirection g)).1 (delta (gravityDirection g)).2
              (r + Z.of_nat k * (delta (gravityDirection g)).1)
              (c + Z.of_nat k * (delta (gravityDirection g)).2) = true
    ∧ ∀ j : nat, (1 ≤ j ≤ k)%nat →
        outOfBounds g (r + Z.of_nat j * (delta (gravityDirection g)).1)
                    (c + Z.of_nat j * (delta (gravityDirection g)).2) = false
        ∧ getCell (board g) (r + Z.of_nat j * (delta (gravityDirection g)).1)
                  (c + Z.of_nat j * (delta (gravityDirection g)).2) = None.
Proof.
  intros Hg. destruct (getGravityTarget_total g r c) as [t Ht].
  pose proof Ht as Ht'. rewrite getGravityTarget_unfold in Ht' by done.
  apply gravityFall_spec in Ht' as (k & -> & Hb & Hfree).
  exists k. split; [done|]. split; [exact Hb|exact Hfree].
Qed.

(** The contract of [getGravityTarget]: the target lies [k] steps along the
    gravity direction, every cell passed on the way is a free cell of the
    grid, the cell after the target is off the grid or occupied, and the
    target is its own target.  Without gravity the target is the cell
    itself. *)
Theorem getGravityTarget_contract g r c :
  ∃ k : nat,
    let dr := (delta (gravityDirection g)).1 in
    let dc := (delta (gravityDirection g)).2 in
    let t := (r + Z.of_nat k * dr, c + Z.of_nat k * dc) in
    getGravityTarget g r c = Ret t
    ∧ (gravity g = false → k = 0%nat)
    ∧ (∀ j : nat, (1 ≤ j ≤ k)%nat →
         outOfBounds g (r + Z.of_nat j * dr) (c + Z.of_nat j * dc) = false
         ∧ getCell (board g) (r + Z.of_nat j * dr) (c + Z.of_nat j * dc) = None)
    ∧ (gravity g = true →
       outOfBounds g (t.1 + dr) (t.2 + dc) = true
       ∨ getCell (board g) (t.1 + dr) (t.2 + dc) ≠ None)
    ∧ getGravityTarget g t.1 t.2 = Ret t.
Proof.
  destruct (gravity g) eqn:Hg.
  - destruct (getGravityTarget_path g r c Hg) as (k & Ht & Hb & Hfree).
    exists k. cbv zeta. split; [done|]. split; [done|]. split; [done|].
    split.
    + intros _. by apply blocked_iff.
    + simpl. by apply getGravityTarget_self.
  - exists 0%nat. cbv zeta. simpl. rewrite !Z.add_0_r.
    unfold getGravityTarget. rewrite Hg. simpl.
    split; [done|]. split; [done|]. split; [lia|]. done.
Qed.

(** The resting cell of a free cell is a legal move. *)
Lemma getGravityTarget_legal g r c :
  outOfBounds g r c = false → getCell (board g) r c = None →
  ∃ t, getGravityTarget g r c = Ret t
       ∧ outOfBounds g t.1 t.2 = false ∧ legalTarget g t.1 t.2.
Proof.
  intros Hin Hc. destruct (gravity g) eqn:Hg.
  - destruct (getGravityTarget_path g r c Hg) as (k & Ht & Hb & Hfree).
    eexists. split; [exact Ht|]. simpl.
    assert (outOfBounds g (r + Z.of_nat k * (delta (gravityDirection g)).1)
                        (c + Z.of_nat k * (delta (gravityDirection g)).2) = false
            ∧ getCell (board g) (r + Z.of_nat k * (delta (gravityDirection g)).1)
                      (c + Z.of_nat k * (delta (gravityDirection g)).2) = None)
      as [Hin' Hc'].
    { destruct k as [|k]; [simpl; by rewrite !Z.add_0_r|]. apply Hfree. lia. }
    split; [done|]. split; [done|]. intros _. by apply blocked_iff.
  - exists (r, c). unfold getGravityTarget. rewrite Hg. simpl.
    split; [done|]. split; [done|]. split; [done|]. congruence.
Qed.

Lemma makeMove_accepts g row col rnd :
  wf g → isValidMove g row col = Ret true →
  ∃ g', makeMove g row col rnd = Ret (true, g').
Proof.
  intros Hwf Hv.
  destruct (makeMove_spec g row col rnd Hwf) as (ok & g' & Hm & _).
  destruct ok; [eauto|]. by apply makeMove_valid_not_false in Hm.
Qed.

Lemma legal_isValidMove g row col :
  gameOver g = false → outOfBounds g row col = false → legalTarget g row col →
  isValidMove g row col = Ret true.
Proof.
  intros Ho Hin Hl. destruct (isValidMove_spec g row col) as (b & -> & Hb).
  f_equal. by apply Hb.
Qed.

(** Click-to-resolve: in a game that is not over, the gravity target of any
    free cell of the grid is accepted by [makeMove]. *)
Theorem click_target_accepted g r c rnd :
  wf g → gameOver g = false →
  outOfBounds g r c = false → getCell (board g) r c = None →
  ∃ t g', getGravityTarget g r c = Ret t
          ∧ makeMove g t.1 t.2 rnd = Ret (true, g').
Proof.
  intros Hwf Ho Hin Hc.
  destruct (getGravityTarget_legal g r c Hin Hc) as (t & Ht & Hin' & Hl).
  destruct (makeMove_accepts g t.1 t.2 rnd Hwf) as [g' Hm].
  { by apply legal_isValidMove. }
  by exists t, g'.
Qed.

Lemma click_target_accepted_witness :
  ∃ t g', getGravityTarget rotatingGame 0 3 = Ret t
          ∧ makeMove rotatingGame t.1 t.2 dir_down = Ret (true, g').
Proof.
  apply (click_target_accepted rotatingGame 0 3 dir_down).
  - apply wfb_wf. vm_compute. reflexivity.
  - reflexivity.
  - reflexivity.
  - reflexivity.
Defined.

(** ** Legal moves exist until the board is full *)

Lemma isBoardFull_spec g :
  board_dims g →
  isBoardFull g = true
  ↔ ∀ r c, outOfBounds g r c = false → getCell (board g) r c ≠ None.
Proof.
  intros Hd. unfold isBoardFull. rewrite forallb_forall. split.
  - intros Hfull r c Hin.
    destruct (board_dims_lookup g r c Hd Hin) as (rw & Hrw & Hlt).
    destruct (lookup_lt_is_Some_2 rw (Z.to_nat c) Hlt) as [x Hx].
    apply outOfBounds_false in Hin. unfold getCell.
    replace ((r <? 0) || (c <? 0)) with false
      by (symmetry; apply orb_false_iff; lia).
    rewrite Hrw, Hx.
    pose proof (Hfull rw) as Hrow. rewrite forallb_forall in Hrow.
    specialize (Hrow ltac:(by eapply list_elem_of_In, list_elem_of_lookup_2) x
                     ltac:(by eapply list_elem_of_In, list_elem_of_lookup_2)).
    by apply bool_decide_eq_true in Hrow.
  - intros Hall rw Hrw. apply forallb_forall. intros x Hx.
    apply bool_decide_eq_true.
    apply list_elem_of_In, list_elem_of_lookup in Hrw as [i Hi].
    apply list_elem_of_In, list_elem_of_lookup in Hx as [j Hj].
    destruct Hd as [Hlen Hrows]. rewrite Forall_lookup in Hrows.
    pose proof (Hrows _ _ Hi) as Hw.
    pose proof (lookup_lt_Some _ _ _ Hi) as Hi'.
    pose proof (lookup_lt_Some _ _ _ Hj) as Hj'.
    specialize (Hall (Z.of_nat i) (Z.of_nat j)).
    unfold getCell in Hall.
    replace ((Z.of_nat i <? 0) || (Z.of_nat j <? 0)) with false in Hall
      by (symmetry; apply orb_false_iff; lia).
    rewrite !Nat2Z.id, Hi, Hj in Hall. apply Hall.
    apply outOfBounds_false. lia.
Qed.

(** Whatever the gravity direction, the list of legal moves is empty exactly
    when the board is full: a board with a free cell always offers a
    placement. *)
Theorem no_legal_move_iff_full g :
  board_dims g →
  AIStrategy.getValidMoves g = [] ↔ isBoardFull g = true.
Proof.
  intros Hd. rewrite isBoardFull_spec by done. split.
  - intros Hnil r c Hin Hc.
    destruct (getGravityTarget_legal g r c Hin Hc) as ([tr tc] & _ & Hin' & Hl).
    assert (In (tr, tc) (AIStrategy.getValidMoves g))
      by (by apply In_getValidMoves).
    rewrite Hnil in H. done.
  - intros Hfull.
    destruct (AIStrategy.getValidMoves g) as [|[r c] rest] eqn:E; [done|].
    assert (In (r, c) (AIStrategy.getValidMoves g)) as Hm by (rewrite E; by left).
    apply In_getValidMoves in Hm as [Hin [Hc _]].
    by apply Hfull in Hin.
Qed.

Lemma no_legal_move_iff_full_witness :
  AIStrategy.getValidMoves floatingGame = [] ↔ isBoardFull floatingGame = true.
Proof. apply (no_legal_move_iff_full floatingGame). exact floatingGame_dims. Defined.

(** ** After [applyGravity] no piece floats *)

Lemma gravityPass_rest positions : ∀ g g' changed,
  gravityPass g positions changed = Ret (g', false) →
  ∀ r c, In (r, c) positions → getCell (board g) r c ≠ None →
         getGravityTarget g r c = Ret (r, c).
Proof.
  induction positions as [|[row col] rest IH]; intros g g' ch H r c Hin Hc;
    [done|].
  cbn [gravityPass] in H.
  destruct (getCell (board g) row col) as [piece|] eqn:Hp.
  - destruct (getGravityTarget g row col) as [[nr nc]| |] eqn:Ht; simpl in H;
      try done.
    destruct (negb (nr =? row) || negb (nc =? col)) eqn:E.
    { by apply gravityPass_true in H. }
    apply orb_false_iff in E as [E1 E2].
    apply negb_false_iff, Z.eqb_eq in E1, E2. subst nr nc.
    destruct Hin as [[= <- <-]|Hin]; [done|]. by eapply IH.
  - destruct Hin as [[= <- <-]|Hin]; [done|]. by eapply IH.
Qed.

(** On a board of the game's dimensions [applyGravity] returns a game in
    which every piece rests: the cell next to it in the gravity direction is
    off the grid or occupied. *)
Theorem applyGravity_settles g :
  board_dims g → gravity g = true →
  ∃ g', applyGravity g = Ret g'
        ∧ ∀ r c, outOfBounds g' r c = false → getCell (board g') r c ≠ None →
            outOfBounds g' (r + (delta (gravityDirection g')).1)
                        (c + (delta (gravityDirection g')).2) = true
            ∨ getCell (board g') (r + (delta (gravityDirection g')).1)
                      (c + (delta (gravityDirection g')).2) ≠ None.
Proof.
  intros Hd Hg. unfold applyGravity. rewrite Hg. cbn [negb].
  destruct (applyGravityLoop_spec (passBudget g) g Hd (potential_bound g))
    as (g' & Hrun & Hsc & _).
  exists g'. split; [done|]. intros r c Hin Hc.
  apply applyGravityLoop_settled in Hrun.
  assert (Hg' : gravity g' = true) by (rewrite Hsc; done).
  apply blocked_iff, getGravityTarget_self; [done|].
  eapply gravityPass_rest; [exact Hrun| |done].
  apply list_elem_of_In. rewrite sortBy_Permutation.
  apply list_elem_of_In, filter_In. split; [by apply In_allCells|].
  by apply bool_decide_eq_true.
Qed.

Lemma applyGravity_settles_witness :
  ∃ g', applyGravity floatingGame = Ret g'
        ∧ ∀ r c, outOfBounds g' r c = false → getCell (board g') r c ≠ None →
            outOfBounds g' (r + (delta (gravityDirection g')).1)
                        (c + (delta (gravityDirection g')).2) = true
            ∨ getCell (board g') (r + (delta (gravityDirection g')).1)
                      (c + (delta (gravityDirection g')).2) ≠ None.
Proof.
  apply (applyGravity_settles floatingGame); [exact floatingGame_dims|reflexivity].
Defined.

(** ** What an accepted move does *)

Lemma makeMove_accepted_inv g row col rnd g' :
  makeMove g row col rnd = Ret (true, g') →
  gameOver g = false ∧ outOfBounds g row col = false ∧ legalTarget g row col
  ∧ ((∃ w, checkWin (placed g row col) = Ret (Some w)
           ∧ g' = set_over (placed g row col) (Some (win_winner w)) (win_cells w))
     ∨ (checkWin (placed g row col) = Ret None
        ∧ isBoardFull (placed g row col) = true
        ∧ g' = set_over (placed g row col) None (winningCells g))
     ∨ (checkWin (placed g row col) = Ret None
        ∧ isBoardFull (placed g row col) = false
        ∧ rotateGravityIfNeeded
            (set_currentPlayerIndex (placed g row col)
               ((currentPlayerIndex g + 1) mod length (players g))%nat) rnd
          = Ret g')).
Proof.
  intros H. unfold makeMove in H.
  destruct (isValidMove_spec g row col) as (b & Hv & Hb).
  rewrite Hv in H. simpl in H. destruct b; simpl in H; [|done].
  destruct Hb as [Hb _]. destruct Hb as (Ho & Hin & Hl); [done|].
  split; [done|]. split; [done|]. split; [done|].
  fold (placed g row col) in H.
  destruct (checkWin (placed g row col)) as [[w|]| |]; simpl in H; try done.
  { left. exists w. split; [done|]. by injection H as <-. }
  destruct (isBoardFull (placed g row col)).
  { right. left. split; [done|]. split; [done|]. by injection H as <-. }
  right. right. split; [done|]. split; [done|].
  destruct (rotateGravityIfNeeded _ rnd) as [g3| |]; simpl in H; try done.
  by injection H as <-.
Qed.

(** Weights that do not depend on the position are carried along by a
    pass. *)
Lemma gravityPass_weight (f : option nat → nat) positions : ∀ g changed g' changed',
  board_dims g →
  Forall (fun x => outOfBounds g x.1 x.2 = false) positions →
  gravityPass g positions changed = Ret (g', changed') →
  cellSum (fun _ _ x => f x) g' = cellSum (fun _ _ x => f x) g.
Proof.
  induction positions as [|[row col] rest IH]; intros g ch g' ch' Hd Hall H;
    cbn [gravityPass] in H.
  - by injection H as <- _.
  - apply Forall_cons in Hall as [Hin Hall]. simpl in Hin.
    destruct (getCell (board g) row col) as [piece|] eqn:Hc; [|by eapply IH].
    destruct (getGravityTarget g row col) as [[nr nc]| |] eqn:Ht; simpl in H;
      try done.
    destruct (negb (nr =? row) || negb (nc =? col)) eqn:E; [|by eapply IH].
    assert (Hne : (nr, nc) ≠ (row, col)).
    { intros [= -> ->]. rewrite !Z.eqb_refl in E. done. }
    destruct (getGravityTarget_moved g row col nr nc Hin Ht Hne)
      as (Htin & Htc & _).
    destruct (move_piece g row col piece nr nc Hd Hin Hc Htin Htc)
      as (Hd2 & Hsum & _).
    apply IH in H; [|done|done]. rewrite H.
    pose proof (Hsum (fun _ _ x => f x)) as Hs. simpl in Hs. lia.
Qed.

Lemma applyGravityLoop_weight (f : option nat → nat) fuel : ∀ g g',
  board_dims g → applyGravityLoop fuel g = Ret g' →
  cellSum (fun _ _ x => f x) g' = cellSum (fun _ _ x => f x) g.
Proof.
  induction fuel as [|fuel IH]; intros g g' Hd H; [done|].
  cbn [applyGravityLoop] in H.
  destruct (gravityPass_spec _ g false Hd (positions_inBounds g (gravityDirection g)))
    as (g1 & changed & Hp & _ & Hd1 & _).
  rewrite Hp in H. simpl in H.
  pose proof (gravityPass_weight f _ _ _ _ _ Hd
                (positions_inBounds g (gravityDirection g)) Hp) as Hw.
  destruct changed.
  - rewrite <- Hw. by apply IH.
  - by injection H as <-.
Qed.

Lemma rotateGravityIfNeeded_weight (f : option nat → nat) g rnd g' :
  board_dims g → rotateGravityIfNeeded g rnd = Ret g' →
  cellSum (fun _ _ x => f x) g' = cellSum (fun _ _ x => f x) g.
Proof.
  intros Hd H. unfold rotateGravityIfNeeded in H.
  destruct (gravityRotation g) as [gr|]; [|by injection H as <-].
  destruct (mode gr); [by injection H as <-| | |].
  all: destruct (negb (turns gr =? 0) && _); [|by injection H as <-];
    unfold applyGravity in H; cbn [gravity set_gravityDirection set_turnCount] in H;
    destruct (gravity g); cbn [negb] in H; [|by injection H as <-];
    by apply (applyGravityLoop_weight f) in H.
Qed.

Lemma cellSum_placed (f : option nat → nat) g row col :
  board_dims g → outOfBounds g row col = false →
  getCell (board g) row col = None →
  (cellSum (fun _ _ x => f x) (placed g row col) + f None
   = cellSum (fun _ _ x => f x) g + f (Some (currentPlayerIndex g)))%nat.
Proof.
  intros Hd Hin Hc.
  pose proof (cellSum_setCell (fun _ _ x => f x) g row col
                (Some (currentPlayerIndex g)) Hd Hin) as H.
  simpl in H. by rewrite Hc in H.
Qed.

(** An accepted move adds exactly one piece, of the player whose turn it
    was, and takes one free cell; a gravity rotation that follows moves
    pieces without changing these numbers. *)
Theorem makeMove_adds_one_piece g row col rnd g' :
  wf g → makeMove g row col rnd = Ret (true, g') →
  (∀ q, countPieces g' q
        = (countPieces g q + if decide (q = currentPlayerIndex g) then 1 else 0)%nat)
  ∧ S (countFree g') = countFree g.
Proof.
  intros (Hd & _ & _) H.
  apply makeMove_accepted_inv in H as (_ & Hin & [Hc _] & Hcase).
  assert (Hd1 : board_dims (placed g row col)) by (by apply setCell_dims).
  assert (Hw : ∀ f : option nat → nat,
             cellSum (fun _ _ x => f x) g' = cellSum (fun _ _ x => f x) (placed g row col)).
  { intros f. destruct Hcase as [(w & _ & ->)|[(_ & _ & ->)|(_ & _ & Hrot)]];
      [done|done|].
    by apply (rotateGravityIfNeeded_weight f) in Hrot. }
  split.
  - intros q. unfold countPieces. rewrite Hw.
    pose proof (cellSum_placed
                  (fun x => if bool_decide (x = Some q) then 1 else 0)%nat
                  g row col Hd Hin Hc) as Hs.
    simpl in Hs.
    destruct (decide (q = currentPlayerIndex g)) as [->|Hne];
      repeat case_bool_decide; simplify_eq; lia.
  - unfold countFree. rewrite Hw.
    pose proof (cellSum_placed
                  (fun x => if bool_decide (x = None) then 1 else 0)%nat
                  g row col Hd Hin Hc) as Hs.
    simpl in Hs. repeat case_bool_decide; simplify_eq; lia.
Qed.

Lemma makeMove_adds_one_piece_witness :
  ∃ g', makeMove rotatingGame 5 3 dir_down = Ret (true, g')
        ∧ (∀ q, countPieces g' q
                = (countPieces rotatingGame q
                   + if decide (q = currentPlayerIndex rotatingGame) then 1 else 0)%nat)
        ∧ S (countFree g') = countFree rotatingGame.
Proof.
  destruct (makeMove rotatingGame 5 3 dir_down) as [[[|] g']| |] eqn:E;
    try (vm_compute in E; discriminate).
  exists g'. split; [reflexivity|].
  apply (makeMove_adds_one_piece rotatingGame 5 3 dir_down g');
    [apply wfb_wf; vm_compute; reflexivity|exact E].
Defined.

(** [makeMove] keeps the game well formed: on a well-formed game it returns
    normally, whatever the coordinates, and the game it leaves is well
    formed with the same dimensions, win length, players and options. *)
Theorem makeMove_keeps_wf g row col rnd :
  wf g →
  ∃ ok g', makeMove g row col rnd = Ret (ok, g') ∧ wf g' ∧ sameSetup g g'.
Proof.
  intros Hwf.
  destruct (makeMove_spec g row col rnd Hwf) as (ok & g' & Hm & Hwf' & Hss & _).
  by exists ok, g'.
Qed.

Lemma makeMove_keeps_wf_witness :
  ∃ ok g', makeMove midGame 0 2 dir_down = Ret (ok, g')
           ∧ wf g' ∧ sameSetup midGame g'.
Proof.
  apply (makeMove_keeps_wf midGame 0 2 dir_down).
  apply wfb_wf. vm_compute. reflexivity.
Defined.

(** After an accepted move the turn passes to the next player in the list,
    wrapping around, unless the move ended the game, in which case
    [currentPlayerIndex] stays on the player who made it. *)
Theorem makeMove_passes_turn g row col rnd g' :
  wf g → makeMove g row col rnd = Ret (true, g') →
  currentPlayerIndex g'
  = if gameOver g' then currentPlayerIndex g
    else ((currentPlayerIndex g + 1) mod length (players g))%nat.
Proof.
  intros (Hd & _ & _) H.
  apply makeMove_accepted_inv in H as (Ho & Hin & _ & Hcase).
  destruct Hcase as [(w & _ & ->)|[(_ & _ & ->)|(_ & _ & Hrot)]]; [done|done|].
  assert (Hd1 : board_dims (placed g row col)) by (by apply setCell_dims).
  destruct (rotateGravityIfNeeded_spec
              (set_currentPlayerIndex (placed g row col)
                 ((currentPlayerIndex g + 1) mod length (players g))%nat) rnd Hd1)
    as (g3 & Hrot' & _ & _ & d & b & Hg3).
  rewrite Hrot in Hrot'. injection Hrot' as <-.
  rewrite Hg3. simpl. by rewrite Ho.
Qed.

Lemma makeMove_passes_turn_witness :
  ∃ g', makeMove rotatingGame 5 3 dir_down = Ret (true, g')
        ∧ currentPlayerIndex g'
          = if gameOver g' then currentPlayerIndex rotatingGame
            else ((currentPlayerIndex rotatingGame + 1)
                    mod length (players rotatingGame))%nat.
Proof.
  destruct (makeMove rotatingGame 5 3 dir_down) as [[[|] g']| |] eqn:E;
    try (vm_compute in E; discriminate).
  exists g'. split; [reflexivity|].
  apply (makeMove_passes_turn rotatingGame 5 3 dir_down g');
    [apply wfb_wf; vm_compute; reflexivity|exact E].
Defined.

(** ** A game that goes on has a legal move *)

Lemma sum_list_with_pos {A} (f : A → nat) (l : list A) :
  sum_list_with f l ≠ 0%nat → ∃ x, x ∈ l ∧ f x ≠ 0%nat.
Proof.
  induction l as [|x l IH]; simpl; [done|]. intros H.
  destruct (decide (f x = 0%nat)) as [Hx|Hx].
  - destruct IH as (y & Hy & Hfy); [lia|]. exists y. split; [by right|done].
  - exists x. split; [by left|done].
Qed.

Lemma sum_list_with_zero {A} (f : A → nat) (l : list A) :
  sum_list_with f l = 0%nat → ∀ x, x ∈ l → f x = 0%nat.
Proof.
  induction l as [|y l IH]; simpl; intros H x Hx; [by apply elem_of_nil in Hx|].
  apply elem_of_cons in Hx as [->|Hx]; [lia|]. apply IH; [lia|done].
Qed.

Lemma countFree_cell g :
  countFree g ≠ 0%nat →
  ∃ r c, outOfBounds g r c = false ∧ getCell (board g) r c = None.
Proof.
  intros H. apply sum_list_with_pos in H as ([r c] & Hin & Hf).
  exists r, c. split; [by apply elem_of_allCells|].
  by case_bool_decide.
Qed.

Lemma countFree_full g :
  board_dims g → countFree g = 0%nat → isBoardFull g = true.
Proof.
  intros Hd H. apply isBoardFull_spec; [done|]. intros r c Hin Hc.
  apply elem_of_allCells in Hin.
  pose proof (sum_list_with_zero _ _ H (r, c) Hin) as Hz.
  simpl in Hz. rewrite Hc in Hz. by rewrite bool_decide_eq_true_2 in Hz.
Qed.

(** After an accepted move that does not end the game, the next player has
    at least one legal move, also when gravity has just been rotated. *)
Theorem game_goes_on g row col rnd g' :
  wf g → makeMove g row col rnd = Ret (true, g') → gameOver g' = false →
  AIStrategy.getValidMoves g' ≠ [].
Proof.
  intros (Hd & _ & _) H Ho'.
  apply makeMove_accepted_inv in H as (Ho & Hin & _ & Hcase).
  destruct Hcase as [(w & _ & ->)|[(_ & _ & ->)|(_ & Hfull & Hrot)]];
    [done|done|].
  assert (Hd1 : board_dims (placed g row col)) by (by apply setCell_dims).
  assert (Hfree : countFree g' ≠ 0%nat).
  { set (g2 := set_currentPlayerIndex (placed g row col) _) in Hrot.
    assert (Hd2 : board_dims g2) by exact Hd1.
    pose proof (rotateGravityIfNeeded_weight
                  (fun x => if bool_decide (x = None) then 1 else 0)%nat
                  g2 rnd g' Hd2 Hrot) as Hw.
    unfold countFree. rewrite Hw. intros Hz.
    assert (Hz' : countFree (placed g row col) = 0%nat) by exact Hz.
    apply (countFree_full (placed g row col)) in Hz'; [|done].
    congruence. }
  destruct (countFree_cell g' Hfree) as (r & c & Hin' & Hc').
  destruct (getGravityTarget_legal g' r c Hin' Hc') as ([tr tc] & _ & Hti & Hl).
  intros Hnil.
  assert (In (tr, tc) (AIStrategy.getValidMoves g')) by (by apply In_getValidMoves).
  by rewrite Hnil in H.
Qed.

Lemma game_goes_on_witness :
  ∃ g', makeMove rotatingGame 5 3 dir_down = Ret (true, g')
        ∧ AIStrategy.getValidMoves g' ≠ [].
Proof.
  destruct (makeMove rotatingGame 5 3 dir_down) as [[[|] g']| |] eqn:E;
    try (vm_compute in E; discriminate).
  exists g'. split; [reflexivity|].
  apply (game_goes_on rotatingGame 5 3 dir_down g');
    [apply wfb_wf; vm_compute; reflexivity|exact E|].
  vm_compute in E. by injection E as <-.
Defined.

(** ** What a reported win looks like *)

Lemma extendRun_cells g p row col dr dc n : ∀ i cells cs,
  extendRun n g p row col dr dc i cells = Ret cs →
  ∃ k : nat,
    (k ≤ n)%nat
    ∧ cs = cells ++ ((fun j => (row + dr * j, col + dc * j)) <$> seqZ i (Z.of_nat k)).
Proof.
  induction n as [|m IH]; intros i cells cs H.
  - injection H as <-. exists 0%nat. split; [lia|]. simpl. by rewrite app_nil_r.
  - cbn [extendRun] in H.
    assert (Hstop : Ret cells = Ret cs →
              ∃ k : nat, (k ≤ S m)%nat
                ∧ cs = cells ++ ((fun j => (row + dr * j, col + dc * j))
                                   <$> seqZ i (Z.of_nat k))).
    { intros [= <-]. exists 0%nat. split; [lia|]. simpl. by rewrite app_nil_r. }
    destruct (outOfBounds g (row + dr * i) (col + dc * i)); [by apply Hstop|].
    destruct (getCell (board g) (row + dr * i) (col + dc * i)) as [q|];
      [|by apply Hstop].
    destruct (if (q =? p)%nat then Ret true
              else if teamCollaboration g then sameTeam g p q else Ret false)
      as [[|]| |]; simpl in H; try done; [|by apply Hstop].
    apply IH in H as (k & Hk & ->). exists (S k). split; [lia|].
    rewrite <- app_assoc. f_equal.
    rewrite (seqZ_cons i (Z.of_nat (S k))) by lia. rewrite fmap_cons.
    cbn [app]. f_equal. f_equal. f_equal; lia.
Qed.

Lemma checkDirections_cells g row col p ds w :
  checkDirections g row col p ds = Ret (Some w) →
  ∃ d cs,
    In d ds
    ∧ extendRun (Z.to_nat (winLength g - 1)) g p row col d.1 d.2 1 [(row, col)]
      = Ret cs
    ∧ (Z.of_nat (length cs) >=? winLength g) = true
    ∧ win_cells w = cs ∧ win_playerIndex w = p.
Proof.
  induction ds as [|[dr dc] ds IH]; cbn [checkDirections]; intros H; [done|].
  destruct (extendRun _ g p row col dr dc 1 [(row, col)]) as [cs| |] eqn:Hcs;
    simpl in H; try done.
  destruct (Z.of_nat (length cs) >=? winLength g) eqn:E.
  - destruct (players g !! p) as [pl|]; [|done]. injection H as <-.
    exists (dr, dc), cs. split; [by left|]. done.
  - destruct (IH H) as (d & cs' & Hd & ?). exists d, cs'. split; [by right|done].
Qed.

Lemma checkCells_cells g cells w :
  checkCells g cells = Ret (Some w) →
  ∃ row col,
    In (row, col) cells
    ∧ getCell (board g) row col = Some (win_playerIndex w)
    ∧ checkDirections g row col (win_playerIndex w) directions = Ret (Some w).
Proof.
  induction cells as [|[row col] rest IH]; cbn [checkCells]; intros H; [done|].
  destruct (getCell (board g) row col) as [p|] eqn:Hc.
  - destruct (checkDirections g row col p directions) as [[w'|]| |] eqn:Hd;
      simpl in H; try done.
    + injection H as ->. exists row, col.
      destruct (checkDirections_cells _ _ _ _ _ _ Hd) as (d0 & cs0 & _ & _ & _ & _ & Hp).
      rewrite Hp. split; [by left|]. done.
    + destruct (IH H) as (r & c & ? & ?). exists r, c. split; [by right|done].
  - destruct (IH H) as (r & c & ? & ?). exists r, c. split; [by right|done].
Qed.

Lemma checkWin_report g w :
  cells_valid g → 1 ≤ winLength g → checkWin g = Ret (Some w) →
  ∃ row col d,
    In d directions
    ∧ win_cells w = runCells row col d.1 d.2 (winLength g)
    ∧ isRun g (win_playerIndex w) row col d.1 d.2 (Z.to_nat (winLength g))
    ∧ win_winner w = winnerLabel g (win_playerIndex w).
Proof.
  intros Hv Hwl H. unfold checkWin in H.
  destruct (checkCells_cells _ _ _ H) as (row & col & Hin & Hc & Hd).
  apply list_elem_of_In, elem_of_allCells in Hin.
  destruct (checkDirections_cells _ _ _ _ _ _ Hd) as (d & cs & Hdin & Hcs & Hlen & Hw & _).
  exists row, col, d. split; [done|].
  pose proof (extendRun_win g Hv _ row col d.1 d.2 cs Hwl Hc Hin Hcs) as Hrun.
  destruct (checkDirections_spec g Hv (win_playerIndex w) row col directions
              Hwl Hc Hin) as (r & Hr & Hspec).
  rewrite Hd in Hr. injection Hr as <-. destruct Hspec as (Hlabel & _ & _).
  split; [|split; [by apply Hrun|done]].
  rewrite Hw. apply extendRun_cells in Hcs as (k & Hk & ->).
  apply Z.geb_le in Hlen. rewrite length_app, length_fmap, length_seqZ in Hlen.
  simpl in Hlen. assert (Z.of_nat k = winLength g - 1) as -> by lia.
  unfold runCells. rewrite (seqZ_cons 0 (winLength g)) by lia. rewrite fmap_cons.
  rewrite !Z.mul_0_r, !Z.add_0_r. cbn [app]. do 3 f_equal; lia.
Qed.

(** When [checkWin] reports a win, the cells it returns are exactly
    [winLength] cells in a line along one of the four directions, starting at
    a cell of the reported player; they form a qualifying run, and the winner
    is the team label or the name of that player. *)
Theorem checkWin_reports_run g w :
  cells_valid g → 1 ≤ winLength g → checkWin g = Ret (Some w) →
  ∃ row col d,
    In d directions
    ∧ win_cells w = runCells row col d.1 d.2 (winLength g)
    ∧ isRun g (win_playerIndex w) row col d.1 d.2 (Z.to_nat (winLength g))
    ∧ win_winner w = winnerLabel g (win_playerIndex w).
Proof. apply checkWin_report. Qed.

Lemma checkWin_reports_run_witness :
  ∃ w row col d,
    checkWin wonGame = Ret (Some w)
    ∧ In d directions
    ∧ win_cells w = runCells row col d.1 d.2 (winLength wonGame)
    ∧ isRun wonGame (win_playerIndex w) row col d.1 d.2
            (Z.to_nat (winLength wonGame))
    ∧ win_winner w = winnerLabel wonGame (win_playerIndex w).
Proof.
  destruct (checkWin wonGame) as [[w|]| |] eqn:E;
    try (vm_compute in E; discriminate).
  destruct (checkWin_reports_run wonGame w) as (row & col & d & H);
    [apply wfb_wf; vm_compute; reflexivity|vm_compute; discriminate|exact E|].
  by exists w, row, col, d.
Defined.

(** An accepted move ends the game for one of two reasons: a qualifying run
    of [winLength] cells is on the board, the winner names the player or team
    of its first cell and [winningCells] are its cells; or the board is full
    without such a run, and the winner is [null]. *)
Theorem makeMove_end_reason g row col rnd g' :
  wf g → 1 ≤ winLength g →
  makeMove g row col rnd = Ret (true, g') → gameOver g' = true →
  (∃ p r c d,
     In d directions
     ∧ isRun g' p r c d.1 d.2 (Z.to_nat (winLength g'))
     ∧ winner g' = Some (winnerLabel g' p)
     ∧ winningCells g' = runCells r c d.1 d.2 (winLength g'))
  ∨ (winner g' = None ∧ isBoardFull g' = true
     ∧ ¬ hasRun g' (Z.to_nat (winLength g'))).
Proof.
  intros Hwf Hwl H Ho'.
  pose proof H as Hinv. apply makeMove_accepted_inv in Hinv as (Ho & Hin & _ & Hcase).
  destruct (wf_placed g row col Hwf Hin) as (Hd1 & Hv1 & _).
  fold (placed g row col) in Hd1, Hv1.
  destruct Hcase as [(w & Hw & ->)|[(Hnone & Hfull & ->)|(_ & _ & Hrot)]].
  - left.
    destruct (checkWin_report (placed g row col) w Hv1 Hwl Hw)
      as (r & c & d & Hd & Hcells & Hrun & Hlabel).
    exists (win_playerIndex w), r, c, d. simpl.
    split; [done|]. split; [exact Hrun|]. split; [by rewrite Hlabel|done].
  - right. split; [done|]. split; [done|].
    destruct (checkWin_spec (placed g row col) Hv1 Hwl) as (r & Hr & Hspec).
    rewrite Hnone in Hr. injection Hr as <-. exact Hspec.
  - exfalso.
    destruct (rotateGravityIfNeeded_spec
                (set_currentPlayerIndex (placed g row col)
                   ((currentPlayerIndex g + 1) mod length (players g))%nat) rnd Hd1)
      as (g3 & Hrot' & _ & _ & d & b & Hg3).
    rewrite Hrot in Hrot'. injection Hrot' as <-.
    rewrite Hg3 in Ho'. simpl in Ho'. congruence.
Qed.

Lemma makeMove_end_reason_witness :
  ∃ g',
    makeMove midGame 0 2 dir_down = Ret (true, g')
    ∧ ((∃ p r c d,
          In d directions
          ∧ isRun g' p r c d.1 d.2 (Z.to_nat (winLength g'))
          ∧ winner g' = Some (winnerLabel g' p)
          ∧ winningCells g' = runCells r c d.1 d.2 (winLength g'))
       ∨ (winner g' = None ∧ isBoardFull g' = true
          ∧ ¬ hasRun g' (Z.to_nat (winLength g')))).
Proof.
  destruct (makeMove midGame 0 2 dir_down) as [[[|] g']| |] eqn:E;
    try (vm_compute in E; discriminate).
  exists g'. split; [reflexivity|].
  apply (makeMove_end_reason midGame 0 2 dir_down g');
    [apply wfb_wf; vm_compute; reflexivity|vm_compute; discriminate|exact E|].
  vm_compute in E. by injection E as <-.
Defined.

(** ** Opponents *)

Lemma In_getOpponents g p cur l :
  players g !! p = Some cur → AIStrategy.getOpponents g p = Ret l →
  ∀ q, In q l
       ↔ ∃ pl, players g !! q = Some pl ∧ q ≠ p
               ∧ (team cur = None ∨ team pl = None ∨ team cur ≠ team pl).
Proof.
  intros Hcur H q. unfold AIStrategy.getOpponents in H. rewrite Hcur in H.
  injection H as <-. rewrite in_map_iff. split.
  - intros ([pl i] & Hi & Hin). simpl in Hi. subst i.
    apply filter_In in Hin as [Hin Hf].
    apply list_elem_of_In, elem_of_lookup_imap in Hin as (i & y & [= <- <-] & Hy).
    exists pl. split; [done|].
    destruct (Nat.eqb_spec q p) as [|Hne]; [done|]. split; [done|].
    destruct (bool_decide (team cur = None) || bool_decide (team pl = None)) eqn:E.
    + apply orb_true_iff in E as [E|E]; apply bool_decide_eq_true in E; auto.
    + apply bool_decide_eq_true in Hf. auto.
  - intros (pl & Hpl & Hne & Ht). exists (pl, q). split; [done|].
    apply filter_In. split.
    + apply list_elem_of_In, elem_of_lookup_imap. by exists q, pl.
    + destruct (Nat.eqb_spec q p) as [|_]; [done|].
      destruct (bool_decide (team cur = None) || bool_decide (team pl = None)) eqn:E;
        [done|].
      apply orb_false_iff in E as [E1 E2].
      apply bool_decide_eq_false in E1, E2. apply bool_decide_eq_true.
      destruct Ht as [?|[?|?]]; done.
Qed.

Lemma getOpponents_valid g p :
  (p < length (players g))%nat →
  ∃ l, AIStrategy.getOpponents g p = Ret l
       ∧ ∀ q, In q l ↔ (q < length (players g))%nat ∧ ¬ ally g p q.
Proof.
  intros Hp. destruct (lookup_lt_is_Some_2 (players g) p Hp) as [cur Hcur].
  assert (∃ l, AIStrategy.getOpponents g p = Ret l) as [l Hl].
  { unfold AIStrategy.getOpponents. rewrite Hcur. eauto. }
  exists l. split; [done|]. intros q.
  rewrite (In_getOpponents g p cur l Hcur Hl). unfold ally, teamAt.
  rewrite Hcur. split.
  - intros (pl & Hpl & Hne & Ht). split; [by eapply lookup_lt_Some|].
    rewrite Hpl. intros [?|(t & H1 & H2)]; [done|].
    destruct Ht as [?|[?|?]]; congruence.
  - intros [Hq Hn]. destruct (lookup_lt_is_Some_2 (players g) q Hq) as [pl Hpl].
    rewrite Hpl in Hn. exists pl. split; [done|].
    split; [intros ->; apply Hn; by left|].
    destruct (team cur) as [t|] eqn:E1; [|auto].
    destruct (team pl) as [t'|] eqn:E2; [|auto].
    right. right. intros [= ->]. apply Hn. right. by exists t'.
Qed.

(** [getOpponents] of a player of the game lists exactly the other players
    that [evaluateMove] does not count as allies, being an opponent is
    mutual, and the player itself is never listed.  For an index that is not
    a player the call throws, unless there are no players at all. *)
Theorem getOpponents_spec g p :
  ((p < length (players g))%nat →
   ∃ l, AIStrategy.getOpponents g p = Ret l
        ∧ ¬ In p l
        ∧ (∀ q, In q l ↔ (q < length (players g))%nat ∧ ¬ ally g p q)
        ∧ (∀ q, In q l →
             ∃ l', AIStrategy.getOpponents g q = Ret l' ∧ In p l'))
  ∧ (¬ (p < length (players g))%nat →
     AIStrategy.getOpponents g p
     = if decide (players g = []) then Ret [] else TypeError).
Proof.
  split.
  - intros Hp. destruct (getOpponents_valid g p Hp) as (l & Hl & Hin).
    exists l. split; [done|]. split; [|split; [done|]].
    + intros H. apply Hin in H as [_ H]. apply H. by left.
    + intros q Hq. apply Hin in Hq as [Hq Hn].
      destruct (getOpponents_valid g q Hq) as (l' & Hl' & Hin').
      exists l'. split; [done|]. apply Hin'. split; [done|].
      intros [->|(t & H1 & H2)]; apply Hn; [by left|]. right. by exists t.
  - intros Hp. unfold AIStrategy.getOpponents.
    rewrite (lookup_ge_None_2 (players g) p) by lia.
    by destruct (players g).
Qed.

(** ** The probing loops of the smart strategies *)

Lemma checkWinningMove_probe g row col p :
  wf g → outOfBounds g row col = false → getCell (board g) row col = None →
  (p < length (players g))%nat →
  ∃ r, AIStrategy.checkWinningMove g row col p = Ret (r, g)
       ∧ checkWin (set_board g (setCell (board g) row col (Some p))) = Ret r.
Proof.
  intros (Hd & Hv & _) Hin Hc Hp. unfold AIStrategy.checkWinningMove.
  destruct (checkWin_total
              (set_board g (setCell (board g) row col (Some p)))) as [r Hr].
  { apply setCell_cells_valid; [done|]. by intros ? [= <-]. }
  rewrite Hr. exists r. split; [|done]. simpl.
  rewrite setCell_undo by done. by destruct g.
Qed.

Lemma getValidMoves_free g :
  Forall (fun m => outOfBounds g m.1 m.2 = false ∧ getCell (board g) m.1 m.2 = None)
         (AIStrategy.getValidMoves g).
Proof.
  apply Forall_forall. intros [r c] Hm.
  apply list_elem_of_In, In_getValidMoves in Hm as (Hin & Hc & _). done.
Qed.

Section Probes.
Variable g : ConnectGame.
Hypothesis Hwf : wf g.

Lemma wouldWin_dec p m :
  outOfBounds g m.1 m.2 = false → getCell (board g) m.1 m.2 = None →
  (p < length (players g))%nat →
  ∃ r, AIStrategy.checkWinningMove g m.1 m.2 p = Ret (r, g)
       ∧ (is_Some r ↔ wouldWin g p m).
Proof.
  intros Hin Hc Hp.
  destruct (checkWinningMove_probe g m.1 m.2 p Hwf Hin Hc Hp) as (r & Hprobe & Hr).
  exists r. split; [done|]. unfold wouldWin. rewrite Hr. split.
  - intros [w ->]. eauto.
  - intros [w [= ->]]. eauto.
Qed.

(** The first loop returns the first move that would win and leaves the game
    as it was. *)
Lemma findWinning_spec p moves :
  (p < length (players g))%nat →
  Forall (fun m => outOfBounds g m.1 m.2 = false ∧ getCell (board g) m.1 m.2 = None)
         moves →
  ∃ res, SmartAI.findWinning g p moves = Ret (res, g)
         ∧ match res with
           | Some m =>
               wouldWin g p m
               ∧ ∃ before after, moves = before ++ m :: after
                                 ∧ ∀ m', In m' before → ¬ wouldWin g p m'
           | None => ∀ m, In m moves → ¬ wouldWin g p m
           end.
Proof.
  intros Hp. induction moves as [|m rest IH]; intros Hall;
    cbn [SmartAI.findWinning].
  - exists None. split; [done|]. by intros m [].
  - apply Forall_cons in Hall as [[Hin Hc] Hall].
    destruct (wouldWin_dec p m Hin Hc Hp) as (r & -> & Hr). simpl.
    destruct r as [w|].
    + exists (Some m). split; [done|]. split; [apply Hr; eauto|].
      exists [], rest. split; [done|]. by intros m' [].
    + destruct (IH Hall) as (res & -> & Hres). exists res. split; [done|].
      assert (Hno : ¬ wouldWin g p m).
      { intros H. apply Hr in H. by destruct H. }
      destruct res as [m0|].
      * destruct Hres as (Hw & before & after & -> & Hb). split; [done|].
        exists (m :: before), after. split; [done|].
        intros m' [<-|Hm']; [done|by apply Hb].
      * intros m' [<-|Hm']; [done|by apply Hres].
Qed.

Lemma opponentWins_spec m opponents :
  outOfBounds g m.1 m.2 = false → getCell (board g) m.1 m.2 = None →
  Forall (fun o => (o < length (players g))%nat) opponents →
  ∃ b, SmartAI.opponentWins g m opponents = Ret (b, g)
       ∧ (b = true ↔ ∃ o, In o opponents ∧ wouldWin g o m).
Proof.
  intros Hin Hc. induction opponents as [|o rest IH]; intros Hall;
    cbn [SmartAI.opponentWins].
  - exists false. split; [done|]. split; [done|]. by intros (o & [] & _).
  - apply Forall_cons in Hall as [Ho Hall].
    destruct (wouldWin_dec o m Hin Hc Ho) as (r & -> & Hr). simpl.
    destruct r as [w|].
    + exists true. split; [done|]. split; [|done]. intros _.
      exists o. split; [by left|]. apply Hr. eauto.
    + destruct (IH Hall) as (b & -> & Hb). exists b. split; [done|].
      rewrite Hb. split.
      * intros (o' & Ho' & Hw). exists o'. split; [by right|done].
      * intros (o' & [<-|Ho'] & Hw); [|by exists o'].
        apply Hr in Hw. by destruct Hw.
Qed.

(** The second loop returns the first move with which some opponent would
    win and leaves the game as it was. *)
Lemma findBlocking_spec opponents moves :
  Forall (fun o => (o < length (players g))%nat) opponents →
  Forall (fun m => outOfBounds g m.1 m.2 = false ∧ getCell (board g) m.1 m.2 = None)
         moves →
  ∃ res, SmartAI.findBlocking g opponents moves = Ret (res, g)
         ∧ match res with
           | Some m => In m moves ∧ ∃ o, In o opponents ∧ wouldWin g o m
           | None => ∀ m o, In m moves → In o opponents → ¬ wouldWin g o m
           end.
Proof.
  intros Hopp. induction moves as [|m rest IH]; intros Hall;
    cbn [SmartAI.findBlocking].
  - exists None. split; [done|]. by intros m o [].
  - apply Forall_cons in Hall as [[Hin Hc] Hall].
    destruct (opponentWins_spec m opponents Hin Hc Hopp) as (b & -> & Hb). simpl.
    destruct b.
    + exists (Some m). split; [done|]. split; [by left|]. by apply Hb.
    + destruct (IH Hall) as (res & -> & Hres). exists res. split; [done|].
      destruct res as [m0|].
      * destruct Hres as [Hm0 Ho]. split; [by right|done].
      * intros m' o [<-|Hm'] Ho Hw; [|by eapply Hres].
        assert (false = true); [|done]. apply Hb. eauto.
Qed.
End Probes.

Lemma insertWith_Permutation {A} (cmp : A → A → Z) x l :
  insertWith cmp x l ≡ₚ x :: l.
Proof.
  induction l as [|y l IH]; simpl; [done|].
  destruct (cmp x y <=? 0); [done|]. rewrite IH. apply Permutation_swap.
Qed.

Lemma sortWith_Permutation {A} (cmp : A → A → Z) l : sortWith cmp l ≡ₚ l.
Proof.
  induction l as [|x l IH]; simpl; [done|].
  rewrite insertWith_Permutation. by rewrite IH.
Qed.

(** After the descending sort by score the first element has the highest
    score. *)
Lemma sortWith_byScore_head (l : list (Z * Z * Z)) :
  match sortWith SmartAI.byScore l with
  | [] => l = []
  | h :: _ => h ∈ l ∧ ∀ y, y ∈ l → y.2 ≤ h.2
  end.
Proof.
  induction l as [|x l IH]; [done|]. simpl.
  destruct (sortWith SmartAI.byScore l) as [|h t] eqn:E.
  - subst l. simpl. split; [by left|]. intros y Hy.
    apply list_elem_of_singleton in Hy as ->. lia.
  - destruct IH as [Hh Hmax]. simpl. unfold SmartAI.byScore at 1.
    destruct (h.2 - x.2 <=? 0) eqn:Hc.
    + apply Z.leb_le in Hc. split; [by left|]. intros y Hy.
      apply elem_of_cons in Hy as [->|Hy]; [lia|]. specialize (Hmax y Hy). lia.
    + apply Z.leb_gt in Hc. split; [by right|]. intros y Hy.
      apply elem_of_cons in Hy as [->|Hy]; [lia|]. by apply Hmax.
Qed.

(** ** The Smart AI *)

Lemma opponents_valid g p l :
  (p < length (players g))%nat → AIStrategy.getOpponents g p = Ret l →
  Forall (fun o => (o < length (players g))%nat) l
  ∧ ∀ o, In o l ↔ (o < length (players g))%nat ∧ ¬ ally g p o.
Proof.
  intros Hp Hl. destruct (getOpponents_valid g p Hp) as (l' & Hl' & Hin).
  rewrite Hl in Hl'. injection Hl' as <-. split; [|done].
  apply Forall_forall. intros o Ho. by apply list_elem_of_In, Hin in Ho as [? _].
Qed.

(** [SmartAI.getMove] on a well-formed game, for a player of the game: with
    no legal move it throws; otherwise it returns a legal move and leaves the
    game as it was, and the move is chosen by priority: a move that wins at
    once; else a move with which some opponent would win at once; else a
    move with the highest [scoreMove]. *)
Theorem smartAI_getMove g p :
  wf g → (p < length (players g))%nat →
  (AIStrategy.getValidMoves g = [] → SmartAI.getMove g p = TypeError)
  ∧ (AIStrategy.getValidMoves g ≠ [] →
     ∃ m, SmartAI.getMove g p = Ret (m, g)
          ∧ In m (AIStrategy.getValidMoves g)
          ∧ (wouldWin g p m
             ∨ ((∀ m', In m' (AIStrategy.getValidMoves g) → ¬ wouldWin g p m')
                ∧ ∃ o, (o < length (players g))%nat ∧ ¬ ally g p o
                       ∧ wouldWin g o m)
             ∨ ((∀ m', In m' (AIStrategy.getValidMoves g) → ¬ wouldWin g p m')
                ∧ (∀ m' o, In m' (AIStrategy.getValidMoves g) →
                           (o < length (players g))%nat → ¬ ally g p o →
                           ¬ wouldWin g o m')
                ∧ ∀ m', In m' (AIStrategy.getValidMoves g) →
                        SmartAI.scoreMove g m' p ≤ SmartAI.scoreMove g m p))).
Proof.
  intros Hwf Hp.
  destruct (getOpponents_valid g p Hp) as (l & Hl & _).
  destruct (opponents_valid g p l Hp Hl) as [Hall Hopp].
  unfold SmartAI.getMove. rewrite Hl. cbn [mbind result_bind].
  split.
  - intros ->. reflexivity.
  - intros Hne.
    destruct (findWinning_spec g Hwf p _ Hp (getValidMoves_free g))
      as (won & -> & Hwon).
    cbn [mbind result_bind]. destruct won as [m|].
    { destruct Hwon as (Hw & before & after & Heq & _).
      exists m. split; [done|]. split; [|by left].
      rewrite Heq. apply in_or_app. right. by left. }
    destruct (findBlocking_spec g Hwf l _ Hall (getValidMoves_free g))
      as (blk & -> & Hblk).
    cbn [mbind result_bind]. destruct blk as [m|].
    { destruct Hblk as (Hm & o & Ho & Hw). exists m. split; [done|].
      split; [done|]. right. left. split; [done|].
      apply Hopp in Ho as [Ho Hn]. by exists o. }
    pose proof (sortWith_byScore_head
                  (List.map (fun move => (move, SmartAI.scoreMove g move p))
                            (AIStrategy.getValidMoves g))) as Hhead.
    destruct (sortWith SmartAI.byScore _) as [|[m sc] t].
    { by apply map_eq_nil in Hhead. }
    destruct Hhead as [Hh Hmax].
    apply list_elem_of_In, in_map_iff in Hh as (m0 & [= <- <-] & Hm0).
    exists m0. split; [done|]. split; [done|]. right. right.
    split; [done|]. split.
    + intros m' o Hm' Ho Hn. apply Hblk; [done|]. by apply Hopp.
    + intros m' Hm'.
      apply (Hmax (m', SmartAI.scoreMove g m' p)).
      apply list_elem_of_In, in_map_iff. by exists m'.
Qed.

Lemma smartAI_getMove_witness :
  (AIStrategy.getValidMoves midGame = [] → SmartAI.getMove midGame 0 = TypeError)
  ∧ (AIStrategy.getValidMoves midGame ≠ [] →
     ∃ m, SmartAI.getMove midGame 0 = Ret (m, midGame)
          ∧ In m (AIStrategy.getValidMoves midGame)
          ∧ (wouldWin midGame 0 m
             ∨ ((∀ m', In m' (AIStrategy.getValidMoves midGame) →
                       ¬ wouldWin midGame 0 m')
                ∧ ∃ o, (o < length (players midGame))%nat ∧ ¬ ally midGame 0 o
                       ∧ wouldWin midGame o m)
             ∨ ((∀ m', In m' (AIStrategy.getValidMoves midGame) →
                       ¬ wouldWin midGame 0 m')
                ∧ (∀ m' o, In m' (AIStrategy.getValidMoves midGame) →
                           (o < length (players midGame))%nat →
                           ¬ ally midGame 0 o → ¬ wouldWin midGame o m')
                ∧ ∀ m', In m' (AIStrategy.getValidMoves midGame) →
                        SmartAI.scoreMove midGame m' 0
                        ≤ SmartAI.scoreMove midGame m 0))).
Proof.
  apply (smartAI_getMove midGame 0).
  - apply wfb_wf. vm_compute. reflexivity.
  - vm_compute. lia.
Defined.

(** ** The Offensive AI for any win length *)

Section OffensiveChoice.
Variable g : ConnectGame.
Variable p : nat.
Hypothesis Hvalid : cells_valid g.
Hypothesis Hp : (p < length (players g))%nat.

Lemma evaluateDirections_total row col ds :
  ∀ maxExtension,
    ∃ s, OffensiveAI.evaluateDirections g row col p ds maxExtension = Ret s
         ∧ 1 ≤ s.
Proof.
  induction ds as [|[dr dc] ds IH]; intros mx; cbn [OffensiveAI.evaluateDirections].
  - eexists. split; [done|]. destruct (mx >? 0) eqn:E; lia.
  - destruct (chainCount_spec g p Hvalid Hp row col dr dc (-1)
                (Z.to_nat (winLength g - 1)) 1 0) as (k1 & -> & _). simpl.
    destruct (chainCount_spec g p Hvalid Hp row col dr dc 1
                (Z.to_nat (winLength g - 1)) 1 (0 + Z.of_nat k1))
      as (k2 & -> & _). simpl.
    destruct (_ >=? winLength g); [exists 1000; split; [done|lia]|].
    destruct (spaceCount_spec g p Hp row col dr dc (-1)
                (Z.to_nat (winLength g - 1)) 1 1) as (s1 & -> & _). simpl.
    destruct (spaceCount_spec g p Hp row col dr dc 1
                (Z.to_nat (winLength g - 1)) 1 s1) as (s2 & -> & _). simpl.
    destruct (s2 >=? winLength g); apply IH.
Qed.

Lemma evaluateMove_total m :
  ∃ s, OffensiveAI.evaluateMove g m p = Ret s ∧ 1 ≤ s.
Proof. apply evaluateDirections_total. Qed.

Lemma bestOf_argmax moves : ∀ best score,
  ∃ best',
    OffensiveAI.bestOf g p moves best score = Ret best'
    ∧ ((best' = best
        ∧ ∀ m, In m moves →
               ∃ s, OffensiveAI.evaluateMove g m p = Ret s ∧ s ≤ score)
       ∨ (∃ m s, best' = Some m ∧ In m moves
                 ∧ OffensiveAI.evaluateMove g m p = Ret s ∧ score < s
                 ∧ ∀ m', In m' moves →
                         ∃ s', OffensiveAI.evaluateMove g m' p = Ret s' ∧ s' ≤ s)).
Proof.
  induction moves as [|m0 rest IH]; intros best score; cbn [OffensiveAI.bestOf].
  - exists best. split; [done|]. left. split; [done|]. by intros m [].
  - destruct (evaluateMove_total m0) as (s0 & Hs0 & _). rewrite Hs0. simpl.
    destruct (s0 >? score) eqn:E.
    + apply Z.gtb_gt in E.
      destruct (IH (Some m0) s0) as (best' & -> & [[-> Hall]|Hbetter]).
      * exists (Some m0). split; [done|]. right. exists m0, s0.
        split; [done|]. split; [by left|]. split; [done|]. split; [lia|].
        intros m' [<-|Hm']; [exists s0; split; [done|lia]|by apply Hall].
      * destruct Hbetter as (m & s & -> & Hm & Hs & Hlt & Hall).
        exists (Some m). split; [done|]. right. exists m, s.
        split; [done|]. split; [by right|]. split; [done|]. split; [lia|].
        intros m' [<-|Hm']; [exists s0; split; [done|lia]|by apply Hall].
    + assert (s0 ≤ score) by (rewrite Z.gtb_ltb in E; by apply Z.ltb_ge in E).
      destruct (IH best score) as (best' & -> & [[-> Hall]|Hbetter]).
      * exists best. split; [done|]. left. split; [done|].
        intros m' [<-|Hm']; [by exists s0|by apply Hall].
      * destruct Hbetter as (m & s & -> & Hm & Hs & Hlt & Hall).
        exists (Some m). split; [done|]. right. exists m, s.
        split; [done|]. split; [by right|]. split; [done|]. split; [lia|].
        intros m' [<-|Hm']; [exists s0; split; [done|lia]|by apply Hall].
Qed.
End OffensiveChoice.

(** [OffensiveAI.getMove], for any win length, on a well-formed game and for
    a player of the game: it returns a legal move whose [evaluateMove] score
    is the highest among the legal moves, whatever the random draw, and
    [undefined] only when there is no legal move. *)
Theorem offensive_getMove_argmax g p rnd :
  wf g → (p < length (players g))%nat →
  ∃ r, OffensiveAI.getMove g p rnd = Ret r
       ∧ match r with
         | Some m =>
             In m (AIStrategy.getValidMoves g)
             ∧ ∃ s, OffensiveAI.evaluateMove g m p = Ret s
                    ∧ ∀ m', In m' (AIStrategy.getValidMoves g) →
                            ∃ s', OffensiveAI.evaluateMove g m' p = Ret s' ∧ s' ≤ s
         | None => AIStrategy.getValidMoves g = []
         end.
Proof.
  intros (_ & Hv & _) Hp. unfold OffensiveAI.getMove.
  destruct (bestOf_argmax g p Hv Hp (AIStrategy.getValidMoves g) None (-1))
    as (best & -> & [[-> Hall]|(m & s & -> & Hm & Hs & _ & Hall)]); simpl.
  - assert (AIStrategy.getValidMoves g = []) as ->; [|by exists None].
    destruct (AIStrategy.getValidMoves g) as [|m rest]; [done|].
    destruct (Hall m) as (s & Hs & Hle); [by left|].
    destruct (evaluateMove_total g p Hv Hp m) as (s' & Hs' & Hge).
    rewrite Hs in Hs'. injection Hs' as <-. lia.
  - exists (Some m). split; [done|]. split; [done|]. by exists s.
Qed.

Lemma offensive_getMove_argmax_witness :
  ∃ r, OffensiveAI.getMove midGame 0 0 = Ret r
       ∧ match r with
         | Some m =>
             In m (AIStrategy.getValidMoves midGame)
             ∧ ∃ s, OffensiveAI.evaluateMove midGame m 0 = Ret s
                    ∧ ∀ m', In m' (AIStrategy.getValidMoves midGame) →
                            ∃ s', OffensiveAI.evaluateMove midGame m' 0 = Ret s'
                                  ∧ s' ≤ s
         | None => AIStrategy.getValidMoves midGame = []
         end.
Proof.
  apply (offensive_getMove_argmax midGame 0 0).
  - apply wfb_wf. vm_compute. reflexivity.
  - vm_compute. lia.
Defined.

(** ** The Defensive AI *)

Section DefensiveChoice.
Variable g : ConnectGame.
Hypothesis Hvalid : cells_valid g.

Lemma longestChainDirections_spec row col o ds :
  (o < length (players g))%nat →
  ∀ maxChain,
    0 ≤ maxChain ≤ 2 * Z.of_nat (Z.to_nat (winLength g - 1)) →
    ∃ v, DefensiveAI.longestChainDirections g row col o ds maxChain = Ret v
         ∧ maxChain ≤ v ≤ 2 * Z.of_nat (Z.to_nat (winLength g - 1)).
Proof.
  intros Ho. induction ds as [|[dr dc] ds IH]; intros mx Hmx;
    cbn [DefensiveAI.longestChainDirections].
  - exists mx. split; [done|lia].
  - destruct (chainCount_spec g o Hvalid Ho row col dr dc (-1)
                (Z.to_nat (winLength g - 1)) 1 0) as (k1 & -> & Hk1 & _). simpl.
    destruct (chainCount_spec g o Hvalid Ho row col dr dc 1
                (Z.to_nat (winLength g - 1)) 1 (0 + Z.of_nat k1))
      as (k2 & -> & Hk2 & _). simpl.
    destruct (IH (Z.max mx (0 + Z.of_nat k1 + Z.of_nat k2))) as (v & -> & Hv);
      [lia|].
    exists v. split; [done|lia].
Qed.

Lemma getLongestChainNear_spec row col o :
  (o < length (players g))%nat →
  ∃ v, DefensiveAI.getLongestChainNear g row col o = Ret v
       ∧ 0 ≤ v ≤ 2 * Z.of_nat (Z.to_nat (winLength g - 1)).
Proof.
  intros Ho. apply longestChainDirections_spec; [done|lia].
Qed.

Lemma scanOpponents_spec m opponents :
  Forall (fun o => (o < length (players g))%nat) opponents →
  ∀ best mx,
    ∃ best' mx',
      DefensiveAI.scanOpponents g m opponents best mx = Ret (best', mx')
      ∧ (∀ o, In o opponents →
              ∃ v, DefensiveAI.getLongestChainNear g m.1 m.2 o = Ret v ∧ v ≤ mx')
      ∧ ((best' = best ∧ mx' = mx)
         ∨ (best' = Some m ∧ mx < mx'
            ∧ ∃ o, In o opponents
                   ∧ DefensiveAI.getLongestChainNear g m.1 m.2 o = Ret mx')).
Proof.
  induction opponents as [|o rest IH]; intros Hall best mx;
    cbn [DefensiveAI.scanOpponents].
  - exists best, mx. split; [done|]. split; [by intros o []|by left].
  - apply Forall_cons in Hall as [Ho Hall].
    destruct (getLongestChainNear_spec m.1 m.2 o Ho) as (v & Hv & _).
    rewrite Hv. simpl. destruct (v >? mx) eqn:E.
    + apply Z.gtb_gt in E.
      destruct (IH Hall (Some m) v) as (best' & mx' & -> & Hle & Hcase).
      exists best', mx'. split; [done|].
      assert (v ≤ mx') by (destruct Hcase as [[_ ->]|(_ & ? & _)]; lia).
      split.
      * intros o' [<-|Ho']; [by exists v|by apply Hle].
      * right. destruct Hcase as [[-> ->]|(-> & Hlt & o' & Ho' & Hv')].
        -- split; [done|]. split; [lia|]. exists o. split; [by left|done].
        -- split; [done|]. split; [lia|]. exists o'. split; [by right|done].
    + assert (v ≤ mx) by (rewrite Z.gtb_ltb in E; by apply Z.ltb_ge in E).
      destruct (IH Hall best mx) as (best' & mx' & -> & Hle & Hcase).
      exists best', mx'. split; [done|].
      assert (mx ≤ mx') by (destruct Hcase as [[_ ->]|(_ & ? & _)]; lia).
      split.
      * intros o' [<-|Ho']; [exists v; split; [done|lia]|by apply Hle].
      * destruct Hcase as [[-> ->]|(-> & Hlt & o' & Ho' & Hv')]; [by left|].
        right. split; [done|]. split; [done|]. exists o'. split; [by right|done].
Qed.

Lemma scanMoves_spec opponents moves :
  Forall (fun o => (o < length (players g))%nat) opponents →
  ∀ best mx,
    ∃ best' mx',
      DefensiveAI.scanMoves g opponents moves best mx = Ret (best', mx')
      ∧ mx ≤ mx'
      ∧ (∀ m o, In m moves → In o opponents →
                ∃ v, DefensiveAI.getLongestChainNear g m.1 m.2 o = Ret v ∧ v ≤ mx')
      ∧ ((best' = best ∧ mx' = mx)
         ∨ (∃ m o, best' = Some m ∧ In m moves ∧ In o opponents
                   ∧ DefensiveAI.getLongestChainNear g m.1 m.2 o = Ret mx'
                   ∧ mx < mx')).
Proof.
  intros Hall. induction moves as [|m rest IH]; intros best mx;
    cbn [DefensiveAI.scanMoves].
  - exists best, mx. split; [done|]. split; [lia|].
    split; [by intros m o []|by left].
  - destruct (scanOpponents_spec m opponents Hall best mx)
      as (b1 & mx1 & -> & Hle1 & Hcase1). simpl.
    destruct (IH b1 mx1) as (b2 & mx2 & -> & Hmono & Hle2 & Hcase2).
    assert (mx ≤ mx1) by (destruct Hcase1 as [[_ ->]|(_ & ? & _)]; lia).
    exists b2, mx2. split; [done|]. split; [lia|]. split.
    + intros m' o [<-|Hm'] Ho; [|by apply Hle2].
      destruct (Hle1 o Ho) as (v & Hv & ?). exists v. split; [done|lia].
    + destruct Hcase2 as [[-> ->]|(m' & o & -> & Hm' & Ho & Hv & Hlt)].
      * destruct Hcase1 as [[-> ->]|(-> & Hlt & o & Ho & Hv)]; [by left|].
        right. exists m, o. split; [done|]. split; [by left|]. done.
      * right. exists m', o. split; [done|]. split; [by right|].
        split; [done|]. split; [done|lia].
Qed.
End DefensiveChoice.

(** [DefensiveAI.getMove] on a well-formed game, for a player of the game:
    when some legal move touches a chain of an opponent, it returns a legal
    move next to the longest such chain (measured by [getLongestChainNear],
    which lies between 0 and [2 * (winLength - 1)]); when none does, it
    returns the randomly drawn legal move. *)
Theorem defensive_getMove_blocks_longest g p rnd :
  wf g → (p < length (players g))%nat →
  ∃ opponents r,
    AIStrategy.getOpponents g p = Ret opponents
    ∧ DefensiveAI.getMove g p rnd = Ret r
    ∧ ((∃ m o v,
          r = Some m ∧ In m (AIStrategy.getValidMoves g) ∧ In o opponents
          ∧ DefensiveAI.getLongestChainNear g m.1 m.2 o = Ret v
          ∧ 0 < v ≤ 2 * (winLength g - 1)
          ∧ ∀ m' o', In m' (AIStrategy.getValidMoves g) → In o' opponents →
                     ∃ v', DefensiveAI.getLongestChainNear g m'.1 m'.2 o' = Ret v'
                           ∧ v' ≤ v)
       ∨ (r = AIStrategy.getValidMoves g !! rnd
          ∧ ∀ m' o', In m' (AIStrategy.getValidMoves g) → In o' opponents →
                     DefensiveAI.getLongestChainNear g m'.1 m'.2 o' = Ret 0)).
Proof.
  intros (_ & Hv & _) Hp.
  destruct (getOpponents_valid g p Hp) as (l & Hl & _).
  destruct (opponents_valid g p l Hp Hl) as [Hall _].
  exists l. unfold DefensiveAI.getMove. rewrite Hl. cbn [mbind result_bind].
  destruct (scanMoves_spec g Hv l (AIStrategy.getValidMoves g) Hall None 0)
    as (best & mx & -> & _ & Hle & Hcase).
  cbn [mbind result_bind].
  destruct Hcase as [[-> ->]|(m & o & -> & Hm & Ho & Hval & Hpos)].
  - eexists. split; [done|]. split; [done|]. right. split; [done|].
    intros m' o' Hm' Ho'. destruct (Hle m' o' Hm' Ho') as (v & Hval & Hv0).
    assert (Ho'' : (o' < length (players g))%nat).
    { rewrite Forall_forall in Hall. by apply Hall, list_elem_of_In. }
    destruct (getLongestChainNear_spec g Hv m'.1 m'.2 o' Ho'') as (v' & Hv' & ?).
    rewrite Hval in Hv'. injection Hv' as <-. rewrite Hval. f_equal. lia.
  - eexists. split; [done|]. split; [done|]. left. exists m, o, mx.
    split; [done|]. split; [done|]. split; [done|]. split; [done|].
    assert (Ho' : (o < length (players g))%nat).
    { rewrite Forall_forall in Hall. by apply Hall, list_elem_of_In. }
    destruct (getLongestChainNear_spec g Hv m.1 m.2 o Ho') as (v' & Hv' & ?).
    rewrite Hval in Hv'. injection Hv' as <-. split; [lia|done].
Qed.

Lemma defensive_getMove_blocks_longest_witness :
  ∃ opponents r,
    AIStrategy.getOpponents midGame 0 = Ret opponents
    ∧ DefensiveAI.getMove midGame 0 0 = Ret r
    ∧ ((∃ m o v,
          r = Some m ∧ In m (AIStrategy.getValidMoves midGame) ∧ In o opponents
          ∧ DefensiveAI.getLongestChainNear midGame m.1 m.2 o = Ret v
          ∧ 0 < v ≤ 2 * (winLength midGame - 1)
          ∧ ∀ m' o', In m' (AIStrategy.getValidMoves midGame) → In o' opponents →
                     ∃ v', DefensiveAI.getLongestChainNear midGame m'.1 m'.2 o'
                           = Ret v' ∧ v' ≤ v)
       ∨ (r = AIStrategy.getValidMoves midGame !! 0%nat
          ∧ ∀ m' o', In m' (AIStrategy.getValidMoves midGame) → In o' opponents →
                     DefensiveAI.getLongestChainNear midGame m'.1 m'.2 o' = Ret 0)).
Proof.
  apply (defensive_getMove_blocks_longest midGame 0 0).
  - apply wfb_wf. vm_compute. reflexivity.
  - vm_compute. lia.
Defined.

(** ** Every strategy proposes a move that [makeMove] accepts *)

Section StrategiesLegal.
Variable g : ConnectGame.
Variable p : nat.
Variable rnd : nat.
Hypothesis Hwf : wf g.
Hypothesis Hp : (p < length (players g))%nat.
Hypothesis Hrnd : (rnd < length (AIStrategy.getValidMoves g))%nat.

Lemma drawn_move_legal :
  ∃ m, AIStrategy.getValidMoves g !! rnd = Some m
       ∧ In m (AIStrategy.getValidMoves g).
Proof.
  destruct (lookup_lt_is_Some_2 _ _ Hrnd) as [m Hm]. exists m. split; [done|].
  by eapply list_elem_of_In, list_elem_of_lookup_2.
Qed.

Lemma offensive_legal :
  ∃ m, OffensiveAI.getMove g p rnd = Ret (Some m)
       ∧ In m (AIStrategy.getValidMoves g).
Proof.
  destruct Hwf as (_ & Hv & _). unfold OffensiveAI.getMove.
  destruct (bestOf_argmax g p Hv Hp (AIStrategy.getValidMoves g) None (-1))
    as (best & -> & [[-> _]|(m & s & -> & Hm & _)]); simpl.
  - destruct drawn_move_legal as (m & -> & Hm). by exists m.
  - by exists m.
Qed.

Lemma defensive_legal :
  ∃ m, DefensiveAI.getMove g p rnd = Ret (Some m)
       ∧ In m (AIStrategy.getValidMoves g).
Proof.
  destruct Hwf as (_ & Hv & _).
  destruct (getOpponents_valid g p Hp) as (l & Hl & _).
  destruct (opponents_valid g p l Hp Hl) as [Hall _].
  unfold DefensiveAI.getMove. rewrite Hl. cbn [mbind result_bind].
  destruct (scanMoves_spec g Hv l (AIStrategy.getValidMoves g) Hall None 0)
    as (best & mx & -> & _ & _ & Hcase).
  cbn [mbind result_bind].
  destruct Hcase as [[-> ->]|(m & o & -> & Hm & _)].
  - destruct drawn_move_legal as (m & -> & Hm). by exists m.
  - by exists m.
Qed.

Lemma smart_legal :
  ∃ m, SmartAI.getMove g p = Ret (m, g) ∧ In m (AIStrategy.getValidMoves g).
Proof.
  destruct (getOpponents_valid g p Hp) as (l & Hl & _).
  destruct (opponents_valid g p l Hp Hl) as [Hall _].
  unfold SmartAI.getMove. rewrite Hl. cbn [mbind result_bind].
  destruct (findWinning_spec g Hwf p _ Hp (getValidMoves_free g))
    as (won & -> & Hwon).
  cbn [mbind result_bind]. destruct won as [m|].
  { destruct Hwon as (_ & before & after & Heq & _). exists m. split; [done|].
    rewrite Heq. apply in_or_app. right. by left. }
  destruct (findBlocking_spec g Hwf l _ Hall (getValidMoves_free g))
    as (blk & -> & Hblk).
  cbn [mbind result_bind]. destruct blk as [m|].
  { destruct Hblk as (Hm & _). by exists m. }
  pose proof (sortWith_byScore_head
                (List.map (fun move => (move, SmartAI.scoreMove g move p))
                          (AIStrategy.getValidMoves g))) as Hhead.
  destruct (sortWith SmartAI.byScore _) as [|[m sc] t].
  { apply map_eq_nil in Hhead. rewrite Hhead in Hrnd. simpl in Hrnd. lia. }
  destruct Hhead as [Hh _].
  apply list_elem_of_In, in_map_iff in Hh as (m0 & [= <- <-] & Hm0).
  by exists m0.
Qed.

Lemma offensiveSmart_legal :
  ∃ m, OffensiveSmartAI.getMove g p rnd = Ret (Some m, g)
       ∧ In m (AIStrategy.getValidMoves g).
Proof.
  destruct (getOpponents_valid g p Hp) as (l & Hl & _).
  destruct (opponents_valid g p l Hp Hl) as [Hall _].
  unfold OffensiveSmartAI.getMove. rewrite Hl. cbn [mbind result_bind].
  destruct (findWinning_spec g Hwf p _ Hp (getValidMoves_free g))
    as (won & -> & Hwon).
  cbn [mbind result_bind]. destruct won as [m|].
  { destruct Hwon as (_ & before & after & Heq & _). exists m. split; [done|].
    rewrite Heq. apply in_or_app. right. by left. }
  destruct (findBlocking_spec g Hwf l _ Hall (getValidMoves_free g))
    as (blk & -> & Hblk).
  cbn [mbind result_bind]. destruct blk as [m|].
  { destruct Hblk as (Hm & _). by exists m. }
  destruct offensive_legal as (m & -> & Hm). by exists m.
Qed.

Lemma defensiveSmart_legal :
  ∃ m, DefensiveSmartAI.getMove g p rnd = Ret (Some m, g)
       ∧ In m (AIStrategy.getValidMoves g).
Proof.
  unfold DefensiveSmartAI.getMove.
  destruct (findWinning_spec g Hwf p _ Hp (getValidMoves_free g))
    as (won & -> & Hwon).
  cbn [mbind result_bind]. destruct won as [m|].
  { destruct Hwon as (_ & before & after & Heq & _). exists m. split; [done|].
    rewrite Heq. apply in_or_app. right. by left. }
  destruct defensive_legal as (m & -> & Hm). by exists m.
Qed.
End StrategiesLegal.

(** [getAIMove] on a well-formed game that is not over: for a human player it
    returns [null]; for an AI player, whatever its strategy, as long as a
    legal move exists it returns a legal move, leaves the game as it was, and
    [makeMove] accepts the move. *)
Theorem getAIMove_accepted g kinds player rnd rnd' :
  wf g → gameOver g = false →
  (rnd < length (AIStrategy.getValidMoves g))%nat →
  kinds !! currentPlayerIndex g = Some player →
  match ptype player with
  | type_human => getAIMove g kinds rnd = Ret (None, g)
  | type_ai =>
      ∃ m g', getAIMove g kinds rnd = Ret (Some m, g)
              ∧ In m (AIStrategy.getValidMoves g)
              ∧ makeMove g m.1 m.2 rnd' = Ret (true, g')
  end.
Proof.
  intros Hwf Ho Hrnd Hk. unfold getAIMove. rewrite Hk.
  destruct (ptype player); [done|].
  assert (Hp : (currentPlayerIndex g < length (players g))%nat) by apply Hwf.
  assert (Hacc : ∀ m, In m (AIStrategy.getValidMoves g) →
                      ∃ g', makeMove g m.1 m.2 rnd' = Ret (true, g')).
  { intros [r c] Hm. apply In_getValidMoves in Hm as [Hin Hl].
    apply makeMove_accepts; [done|]. by apply legal_isValidMove. }
  destruct (aiStrategy player).
  - unfold RandomAI.getMove. cbn [mbind result_bind].
    destruct (drawn_move_legal g rnd Hrnd) as (m & -> & Hm).
    destruct (Hacc m Hm) as [g' Hg']. by exists m, g'.
  - destruct (defensive_legal g _ rnd Hwf Hp Hrnd) as (m & -> & Hm).
    destruct (Hacc m Hm) as [g' Hg']. by exists m, g'.
  - destruct (offensive_legal g _ rnd Hwf Hp Hrnd) as (m & -> & Hm).
    destruct (Hacc m Hm) as [g' Hg']. by exists m, g'.
  - destruct (smart_legal g _ rnd Hwf Hp Hrnd) as (m & -> & Hm).
    destruct (Hacc m Hm) as [g' Hg']. by exists m, g'.
  - destruct (offensiveSmart_legal g _ rnd Hwf Hp Hrnd) as (m & -> & Hm).
    destruct (Hacc m Hm) as [g' Hg']. by exists m, g'.
  - destruct (defensiveSmart_legal g _ rnd Hwf Hp Hrnd) as (m & -> & Hm).
    destruct (Hacc m Hm) as [g' Hg']. by exists m, g'.
Qed.

Lemma getAIMove_accepted_witness :
  ∃ m g',
    getAIMove midGame
      [ {| ptype := type_ai; aiStrategy := strategy_defensive_smart |};
        {| ptype := type_human; aiStrategy := strategy_random |} ] 1
    = Ret (Some m, midGame)
    ∧ In m (AIStrategy.getValidMoves midGame)
    ∧ makeMove midGame m.1 m.2 dir_down = Ret (true, g').
Proof.
  apply (getAIMove_accepted midGame
           [ {| ptype := type_ai; aiStrategy := strategy_defensive_smart |};
             {| ptype := type_human; aiStrategy := strategy_random |} ]
           {| ptype := type_ai; aiStrategy := strategy_defensive_smart |}
           1 dir_down).
  - apply wfb_wf. vm_compute. reflexivity.
  - reflexivity.
  - vm_compute. lia.
  - reflexivity.
Defined.

(** ** The rotation schedule *)

Lemma rotateGravityIfNeeded_effect g rnd g' gr :
  gravityRotation g = Some gr → mode gr ≠ mode_none →
  rotateGravityIfNeeded g rnd = Ret g' →
  turnCount g' = turnCount g + 1
  ∧ gravityRotation g' = Some gr
  ∧ gravityDirection g'
    = if negb (turns gr =? 0) && (Z.rem (turnCount g + 1) (turns gr) =? 0)
      then rotationStep (mode gr) rnd (gravityDirection g)
      else gravityDirection g.
Proof.
  intros Hr Hm H. unfold rotateGravityIfNeeded in H. rewrite Hr in H.
  destruct (mode gr) eqn:Em; [done| | |];
    cbn [turnCount set_turnCount] in H;
    destruct (negb (turns gr =? 0) && (Z.rem (turnCount g + 1) (turns gr) =? 0));
    try (injection H as <-; by repeat split);
    apply applyGravity_sameConfig in H; rewrite H; simpl;
    (split; [done|]); (split; [done|]);
    by destruct (gravityDirection g).
Qed.

Lemma div_succ_step (tc n : Z) :
  0 ≤ tc → 0 < n →
  (tc + 1) / n = tc / n + (if Z.rem (tc + 1) n =? 0 then 1 else 0).
Proof.
  intros Htc Hn. rewrite Z.rem_mod_nonneg by lia.
  pose proof (Z.div_mod tc n ltac:(lia)) as Hdm.
  pose proof (Z.mod_pos_bound tc n Hn) as Hb.
  destruct (Z.eq_dec (tc mod n + 1) n) as [Heq|Hne].
  - assert (tc + 1 = n * (tc / n + 1) + 0) as Hs by lia.
    assert ((tc + 1) mod n = 0) as Hm.
    { symmetry. apply (Z.mod_unique_pos _ _ (tc / n + 1)); lia. }
    rewrite Hm. simpl. symmetry. apply (Z.div_unique_pos _ _ _ 0); lia.
  - assert ((tc + 1) mod n = tc mod n + 1) as Hm.
    { symmetry. apply (Z.mod_unique_pos _ _ (tc / n)); lia. }
    rewrite Hm. replace (tc mod n + 1 =? 0) with false
      by (symmetry; apply Z.eqb_neq; lia).
    symmetry. apply (Z.div_unique_pos _ _ _ (tc mod n + 1)); lia.
Qed.

Lemma playCompleted_schedule gr (rot : GravityDirection → GravityDirection) ms :
  0 < turns gr →
  (∀ rnd d, rotationStep (mode gr) rnd d = rot d) → mode gr ≠ mode_none →
  ∀ g gf,
    gravityRotation g = Some gr → 0 ≤ turnCount g →
    gravityDirection g
    = Nat.iter (Z.to_nat (turnCount g / turns gr)) rot dir_down →
    playCompleted g ms = Some gf →
    turnCount gf = turnCount g + Z.of_nat (length ms)
    ∧ gravityDirection gf
      = Nat.iter (Z.to_nat (turnCount gf / turns gr)) rot dir_down.
Proof.
  intros Hn Hrot Hm. induction ms as [|[[row col] rnd] rest IH];
    intros g gf Hr Htc Hd H.
  - injection H as <-. simpl. rewrite Z.add_0_r. done.
  - cbn [playCompleted] in H.
    destruct (makeMove g row col rnd) as [[[|] g']| |] eqn:Hmv; try done.
    destruct (gameOver g') eqn:Hover; [done|].
    apply makeMove_accepted_inv in Hmv as (_ & _ & _ & Hcase).
    destruct Hcase as [(w & _ & ->)|[(_ & _ & ->)|(_ & _ & Hrt)]]; [done|done|].
    apply (rotateGravityIfNeeded_effect _ _ _ gr) in Hrt as (Htc' & Hr' & Hd');
      [|exact Hr|exact Hm].
    cbn [turnCount gravityDirection set_currentPlayerIndex placed set_board]
      in Htc', Hd'.
    destruct (IH g' gf Hr') as [Hlen Hdir]; [lia| |done|].
    + rewrite Hd', Htc', Hrot, Hd.
      rewrite (div_succ_step (turnCount g) (turns gr)) by lia.
      replace (negb (turns gr =? 0)) with true
        by (symmetry; apply negb_true_iff, Z.eqb_neq; lia).
      cbn [andb].
      destruct (Z.rem (turnCount g + 1) (turns gr) =? 0).
      * rewrite Z2Nat.inj_add by (try apply Z.div_pos; lia).
        rewrite Nat.add_comm. done.
      * by rewrite Z.add_0_r.
    + split; [|done]. rewrite Hlen, Htc'. cbn [length]. lia.
Qed.

(** With gravity rotation [{mode, turns}], [turns] positive and [mode]
    ['clockwise'] or ['counterclockwise'], after [k] accepted moves that do
    not end the game since the reset [turnCount] is [k] and gravity has
    turned [k / turns] times from [down] in the configured sense. *)
Theorem rotation_schedule g gr ms gf :
  gravityRotation g = Some gr → 0 < turns gr →
  mode gr = mode_clockwise ∨ mode gr = mode_counterclockwise →
  playCompleted (reset g) ms = Some gf →
  turnCount gf = Z.of_nat (length ms)
  ∧ gravityDirection gf
    = Nat.iter (Z.to_nat (Z.of_nat (length ms) / turns gr))
               (match mode gr with
                | mode_clockwise => clockwise
                | _ => counterclockwise
                end)
               dir_down.
Proof.
  intros Hr Hn Hm H.
  assert (Hrot : ∀ rnd d,
            rotationStep (mode gr) rnd d
            = match mode gr with
              | mode_clockwise => clockwise
              | _ => counterclockwise
              end d)
    by (intros rnd d; destruct Hm as [-> | ->]; done).
  assert (Hm' : mode gr ≠ mode_none) by (destruct Hm as [-> | ->]; done).
  assert (Hd0 : gravityDirection (reset g)
                = Nat.iter (Z.to_nat (turnCount (reset g) / turns gr))
                           (match mode gr with
                            | mode_clockwise => clockwise
                            | _ => counterclockwise
                            end) dir_down) by reflexivity.
  destruct (playCompleted_schedule gr _ ms Hn Hrot Hm' (reset g) gf Hr
              (Z.le_refl 0) Hd0 H) as [Htc Hd].
  simpl in Htc. rewrite Htc in Hd. rewrite Z.add_0_l in Htc, Hd. done.
Qed.

Lemma rotation_schedule_witness :
  ∃ gf,
    playCompleted (reset rotatingGame)
      [(5, 3, dir_down); (0, 6, dir_down); (0, 0, dir_down)] = Some gf
    ∧ turnCount gf = 3
    ∧ gravityDirection gf = dir_left.
Proof.
  destruct (playCompleted (reset rotatingGame)
              [(5, 3, dir_down); (0, 6, dir_down); (0, 0, dir_down)])
    as [gf|] eqn:E; [|vm_compute in E; discriminate].
  exists gf. split; [reflexivity|].
  apply (rotation_schedule rotatingGame {| turns := 1; mode := mode_clockwise |}
           [(5, 3, dir_down); (0, 6, dir_down); (0, 0, dir_down)] gf);
    [reflexivity|reflexivity|by left|exact E].
Defined.

(** ** Moves without gravity rotation *)

(** Without active gravity rotation an accepted move writes the index of the
    current player into the chosen cell and changes no other cell, also with
    gravity on; the gravity direction and [turnCount] stay as they were. *)
Theorem makeMove_writes_one_cell g row col rnd g' :
  wf g → rotationActive g = false →
  makeMove g row col rnd = Ret (true, g') →
  getCell (board g') row col = Some (currentPlayerIndex g)
  ∧ (∀ r c, (r, c) ≠ (row, col) → getCell (board g') r c = getCell (board g) r c)
  ∧ gravityDirection g' = gravityDirection g
  ∧ turnCount g' = turnCount g.
Proof.
  intros (Hd & _ & _) Hact H.
  apply makeMove_accepted_inv in H as (_ & Hin & _ & Hcase).
  assert (Hb : board g' = board (placed g row col)
               ∧ gravityDirection g' = gravityDirection g
               ∧ turnCount g' = turnCount g).
  { destruct Hcase as [(w & _ & ->)|[(_ & _ & ->)|(_ & _ & Hrot)]]; [done|done|].
    unfold rotateGravityIfNeeded, rotationActive in *.
    cbn [gravityRotation set_currentPlayerIndex placed set_board] in Hrot.
    destruct (gravityRotation g) as [gr|]; [|by injection Hrot as <-].
    destruct (mode gr); [by injection Hrot as <-|done..]. }
  destruct Hb as (-> & ? & ?). simpl.
  split; [by apply getCell_setCell_eq|]. split; [|done].
  intros r c Hne. apply getCell_setCell_ne. congruence.
Qed.

Lemma makeMove_writes_one_cell_witness :
  ∃ g',
    makeMove midGame 2 2 dir_down = Ret (true, g')
    ∧ getCell (board g') 2 2 = Some (currentPlayerIndex midGame)
    ∧ (∀ r c, (r, c) ≠ (2, 2) →
              getCell (board g') r c = getCell (board midGame) r c)
    ∧ gravityDirection g' = gravityDirection midGame
    ∧ turnCount g' = turnCount midGame.
Proof.
  destruct (makeMove midGame 2 2 dir_down) as [[[|] g']| |] eqn:E;
    try (vm_compute in E; discriminate).
  exists g'. split; [reflexivity|].
  apply (makeMove_writes_one_cell midGame 2 2 dir_down g');
    [apply wfb_wf; vm_compute; reflexivity|reflexivity|exact E].
Defined.

(** ** Reset *)

Lemma getCell_reset g r c : getCell (board (reset g)) r c = None.
Proof.
  unfold getCell. simpl. destruct (_ || _); [done|].
  destruct (replicate _ _ !! _) as [rw|] eqn:E; [|done].
  apply lookup_replicate in E as [-> _].
  destruct (replicate _ _ !! _) as [x|] eqn:E'; [|done].
  by apply lookup_replicate in E' as [-> _].
Qed.

(** After [reset] the legal moves are, with gravity, exactly the cells of the
    bottom row and, without gravity, all the cells of the grid. *)
Theorem reset_legal_moves g m :
  In m (AIStrategy.getValidMoves (reset g))
  ↔ outOfBounds g m.1 m.2 = false ∧ (gravity g = true → m.1 = height g - 1).
Proof.
  destruct m as [r c]. rewrite In_getValidMoves. unfold legalTarget.
  rewrite !getCell_reset.
  change (outOfBounds (reset g)) with (outOfBounds g).
  change (gravity (reset g)) with (gravity g).
  change (delta (gravityDirection (reset g))) with (1, 0).
  cbn [fst snd]. split.
  - intros (Hin & _ & Hg). split; [done|]. intros Hgrav.
    destruct (Hg Hgrav) as [Hout|]; [|done].
    apply outOfBounds_false in Hin.
    unfold outOfBounds in Hout. rewrite !orb_true_iff in Hout. lia.
  - intros [Hin Hg]. split; [done|]. split; [done|]. intros Hgrav. left.
    specialize (Hg Hgrav). apply outOfBounds_false in Hin.
    unfold outOfBounds. rewrite !orb_true_iff. lia.
Qed.

Lemma playMoves_keeps_setup ms : ∀ g,
  wf g → ∃ g', playMoves g ms = Ret g' ∧ wf g' ∧ sameSetup g g'.
Proof.
  induction ms as [|[[row col] rnd] rest IH]; intros g Hwf.
  - exists g. split; [done|]. split; [done|]. by repeat split.
  - cbn [playMoves].
    destruct (makeMove_spec g row col rnd Hwf) as (ok & g1 & -> & Hwf1 & Hss & _).
    simpl. destruct (IH g1 Hwf1) as (g' & -> & Hwf' & Hss').
    exists g'. split; [done|]. split; [done|].
    destruct Hss as (? & ? & ? & ? & ? & ? & ?).
    destruct Hss' as (? & ? & ? & ? & ? & ? & ?).
    repeat split; congruence.
Qed.

(** However a game has been played, [reset] brings it back to the state the
    constructor produced: an empty board, player 0 to move, no winner,
    [turnCount] 0 and gravity pointing down, for the same configuration. *)
Theorem reset_after_play g ms :
  wf g →
  ∃ g', playMoves g ms = Ret g' ∧ reset g' = reset g ∧ wf (reset g').
Proof.
  intros Hwf. destruct (playMoves_keeps_setup ms g Hwf) as (g' & Hp & Hwf' & Hss).
  exists g'. split; [done|].
  destruct Hss as (Hw & Hh & Hwl & Hg & Hpl & Hr & Ht).
  split.
  - unfold reset. by rewrite Hw, Hh, Hwl, Hg, Hpl, Hr, Ht.
  - apply wf_reset. destruct Hwf' as (_ & _ & Hp').
    intros Hnil. rewrite Hnil in Hp'. simpl in Hp'. lia.
Qed.

Lemma reset_after_play_witness :
  ∃ g', playMoves midGame [(0, 2, dir_down); (2, 2, dir_down)] = Ret g'
        ∧ reset g' = reset midGame ∧ wf (reset g').
Proof.
  apply (reset_after_play midGame [(0, 2, dir_down); (2, 2, dir_down)]).
  apply wfb_wf. vm_compute. reflexivity.
Defined.

(** ** The random strategy *)

Lemma NoDup_getValidMoves g : NoDup (AIStrategy.getValidMoves g).
Proof.
  unfold AIStrategy.getValidMoves.
  destruct (gravity g); [destruct (delta (gravityDirection g))|];
    apply NoDup_ListNoDup, List.NoDup_filter, NoDup_ListNoDup, NoDup_allCells.
Qed.

(** [RandomAI.getMove] returns the legal move at the drawn position: every
    legal move is returned for exactly one draw below the number of legal
    moves, and a draw at or beyond it (no legal move) gives [undefined]. *)
Theorem randomAI_getMove g p :
  (∀ m, In m (AIStrategy.getValidMoves g)
        ↔ ∃ rnd, RandomAI.getMove g p rnd = Ret (Some m))
  ∧ (∀ m rnd rnd',
       RandomAI.getMove g p rnd = Ret (Some m) →
       RandomAI.getMove g p rnd' = Ret (Some m) → rnd = rnd')
  ∧ (∀ rnd, (length (AIStrategy.getValidMoves g) ≤ rnd)%nat ↔
            RandomAI.getMove g p rnd = Ret None).
Proof.
  unfold RandomAI.getMove. split; [|split].
  - intros m. rewrite <- list_elem_of_In, list_elem_of_lookup. split.
    + intros [i Hi]. exists i. by rewrite Hi.
    + intros [i [= Hi]]. by exists i.
  - intros m rnd rnd' [= H1] [= H2].
    by eapply NoDup_lookup; [apply NoDup_getValidMoves|..].
  - intros rnd. split.
    + intros H. by rewrite lookup_ge_None_2.
    + intros [= H]. by apply lookup_ge_None_1.
Qed.

(** ** Player symbols *)

Lemma digitValue_digitChar d : (d < 16)%nat → digitValue (digitChar d) = d.
Proof.
  intros H. do 16 (destruct d as [|d]; [reflexivity|]). lia.
Qed.

Lemma parseDigits_digitsOf base fuel : ∀ n acc,
  (2 ≤ base ≤ 16)%nat → (n < fuel)%nat →
  parseDigits base (digitsOf fuel base n acc) 0 = parseDigits base acc n.
Proof.
  induction fuel as [|fuel IH]; intros n acc Hb Hn; [lia|].
  cbn [digitsOf].
  assert (Hd : digitValue (digitChar (n mod base)) = (n mod base)%nat).
  { apply digitValue_digitChar.
    pose proof (Nat.mod_upper_bound n base ltac:(lia)). lia. }
  pose proof (Nat.div_mod_eq n base) as Hdm.
  destruct (Nat.eqb_spec (n / base) 0) as [Hz|Hnz].
  - cbn [parseDigits]. rewrite Hd. f_equal. nia.
  - rewrite IH; [|done|].
    + cbn [parseDigits]. rewrite Hd. f_equal. nia.
    + assert (n / base < n)%nat by (apply Nat.div_lt; lia). lia.
Qed.

(** The symbol of a player is its index written in upper-case hexadecimal:
    reading the symbol back in base 16 gives the index, so players with
    different indices have different symbols. *)
Theorem getSymbol_roundtrip p q :
  parseDigits 16 (getSymbol p) 0 = index p
  ∧ (getSymbol p = getSymbol q → index p = index q).
Proof.
  assert (Hrt : ∀ x, parseDigits 16 (getSymbol x) 0 = index x).
  { intros x. unfold getSymbol, toStringBase.
    rewrite parseDigits_digitsOf by lia. done. }
  split; [apply Hrt|]. intros H. rewrite <- (Hrt p), <- (Hrt q). by rewrite H.
Qed.

(** ** Team colours *)

Lemma collectTeams_fold cs : ∀ teams n,
  NoDup teams →
  let r := foldl (fun acc team =>
                    match team with
                    | Some t => (setAdd acc.1 t, acc.2)
                    | None => (acc.1, S acc.2)
                    end) (teams, n) cs in
  NoDup r.1 ∧ (∀ t, t ∈ r.1 ↔ t ∈ teams ∨ Some t ∈ cs)
  ∧ r.2 = (n + countNone cs)%nat.
Proof.
  induction cs as [|[t0|] cs IH]; intros teams n Hnd; cbn [foldl countNone fst snd].
  - split; [done|]. split; [|lia]. intros t. rewrite elem_of_nil. tauto.
  - assert (Hnd' : NoDup (setAdd teams t0)).
    { unfold setAdd. case_bool_decide; [done|].
      apply NoDup_app. split; [done|]. split; [|apply NoDup_singleton].
      intros x Hx ->%list_elem_of_singleton. done. }
    destruct (IH (setAdd teams t0) n Hnd') as (H1 & H2 & H3).
    split; [done|]. split; [|done]. intros t. rewrite H2, elem_of_cons.
    unfold setAdd. case_bool_decide.
    + split; [tauto|]. intros [?|[E|?]]; [tauto| |tauto].
      injection E as ->. tauto.
    + rewrite elem_of_app, list_elem_of_singleton.
      split; [intros [[?| ->]|?]; tauto|]. intros [?|[E|?]]; [tauto| |tauto].
      injection E as ->. tauto.
  - destruct (IH teams (S n) Hnd) as (H1 & H2 & H3).
    split; [done|]. split; [|lia]. intros t. rewrite H2, elem_of_cons.
    split; [tauto|]. intros [?|[?|?]]; [tauto|done|tauto].
Qed.

Lemma collectTeams_spec cs :
  NoDup (collectTeams cs).1
  ∧ (∀ t, t ∈ (collectTeams cs).1 ↔ Some t ∈ cs)
  ∧ (collectTeams cs).2 = countNone cs.
Proof.
  destruct (collectTeams_fold cs [] 0%nat (NoDup_nil_2)) as (H1 & H2 & H3).
  split; [done|]. split; [|done]. intros t.
  unfold collectTeams. rewrite H2, elem_of_nil. tauto.
Qed.

Lemma fillTeamColors_other colors l : ∀ index m t,
  t ∉ l → fillTeamColors colors index l m !! t = m !! t.
Proof.
  induction l as [|t0 l IH]; intros index m t Hni; [done|].
  cbn [fillTeamColors]. apply not_elem_of_cons in Hni as [Hne Hni].
  rewrite IH by done. by rewrite lookup_insert_ne.
Qed.

Lemma fillTeamColors_lookup colors l : ∀ index m k t,
  NoDup l → l !! k = Some t →
  fillTeamColors colors index l m !! t = Some (colors !! (index + k)%nat).
Proof.
  induction l as [|t0 l IH]; intros index m k t Hnd Hk; [done|].
  apply NoDup_cons in Hnd as [Hni Hnd]. cbn [fillTeamColors].
  destruct k as [|k]; simpl in Hk.
  - injection Hk as ->. rewrite fillTeamColors_other by done.
    rewrite lookup_insert_eq. do 2 f_equal. lia.
  - rewrite (IH (S index) _ k t Hnd Hk). do 2 f_equal. lia.
Qed.

Lemma pushPlayerColors_length tc ic cs : ∀ k,
  length (pushPlayerColors tc ic k cs) = length cs.
Proof.
  induction cs as [|[t|] cs IH]; intros k; simpl; [done|by rewrite IH..].
Qed.

Lemma pushPlayerColors_lookup tc ic cs : ∀ k i ti,
  cs !! i = Some ti →
  pushPlayerColors tc ic k cs !! i
  = Some (match ti with
          | Some t => tc !! t ≫= id
          | None => ic !! (k + countNone (take i cs))%nat
          end).
Proof.
  induction cs as [|c cs IH]; intros k i ti Hi; [done|].
  destruct i as [|i]; simpl in Hi.
  - injection Hi as ->. destruct ti; simpl; [done|]. do 2 f_equal. lia.
  - destruct c as [t|]; cbn [pushPlayerColors take countNone];
      rewrite lookup_cons; rewrite (IH _ i ti Hi); [done|].
    destruct ti; [done|]. do 2 f_equal. lia.
Qed.

Lemma countNone_take_le cs : ∀ i, (countNone (take i cs) ≤ countNone cs)%nat.
Proof.
  induction cs as [|[t|] cs IH]; intros [|i]; simpl; try lia;
    specialize (IH i); lia.
Qed.

Lemma countNone_take_lt cs : ∀ i j,
  cs !! i = Some None → (i < j)%nat →
  (countNone (take i cs) < countNone (take j cs))%nat.
Proof.
  induction cs as [|c cs IH]; intros i j Hi Hlt; [done|].
  destruct j as [|j]; [lia|]. destruct i as [|i]; simpl in Hi.
  - injection Hi as ->. simpl. lia.
  - assert (H := IH i j Hi ltac:(lia)). destruct c; simpl; lia.
Qed.

Lemma countNone_take_bound cs i :
  cs !! i = Some None → (countNone (take i cs) < countNone cs)%nat.
Proof.
  intros Hi. pose proof (lookup_lt_Some _ _ _ Hi) as Hlt.
  pose proof (countNone_take_lt cs i (length cs) Hi Hlt) as H.
  by rewrite firstn_all in H.
Qed.

(** The position in [colors] of the colour that player [i] receives. *)
Lemma assignTeamColors_index cs colors i ti :
  length colors = totalColors cs → cs !! i = Some ti →
  ∃ k, assignTeamColors cs colors !! i = Some (colors !! k)
       ∧ (k < length colors)%nat
       ∧ match ti with
         | Some t => sortWith compareAsStrings (collectTeams cs).1 !! k = Some t
         | None => k = (length (collectTeams cs).1 + countNone (take i cs))%nat
         end.
Proof.
  intros Hlen Hi. unfold totalColors in Hlen.
  destruct (collectTeams_spec cs) as (Hnd & Hmem & Hcnt).
  pose proof (sortWith_Permutation compareAsStrings (collectTeams cs).1) as Hperm.
  unfold assignTeamColors. rewrite (pushPlayerColors_lookup _ _ _ _ _ _ Hi).
  destruct ti as [t|].
  - assert (Hin : t ∈ sortWith compareAsStrings (collectTeams cs).1).
    { rewrite Hperm. apply Hmem. by eapply list_elem_of_lookup_2. }
    apply list_elem_of_lookup in Hin as [k Hk]. exists k.
    rewrite (fillTeamColors_lookup colors _ 0 ∅ k t); [|by rewrite Hperm|done].
    split; [done|]. split; [|done].
    apply lookup_lt_Some in Hk. rewrite Hperm in Hk. lia.
  - exists (length (collectTeams cs).1 + countNone (take i cs))%nat.
    rewrite lookup_drop. split; [done|]. split; [|done].
    pose proof (countNone_take_bound cs i Hi). lia.
Qed.

(** [assignTeamColors] gives every player a colour; when the generated colours
    are pairwise distinct, two players share a colour exactly when they are
    members of the same team. *)
Theorem assignTeamColors_spec playerConfigs colors :
  length colors = totalColors playerConfigs → NoDup colors →
  length (assignTeamColors playerConfigs colors) = length playerConfigs
  ∧ ∀ i j ti tj,
      playerConfigs !! i = Some ti → playerConfigs !! j = Some tj →
      ∃ ci cj,
        assignTeamColors playerConfigs colors !! i = Some (Some ci)
        ∧ assignTeamColors playerConfigs colors !! j = Some (Some cj)
        ∧ (ci = cj ↔ i = j ∨ (ti = tj ∧ ti ≠ None)).
Proof.
  intros Hlen Hnd. split; [apply pushPlayerColors_length|].
  intros i j ti tj Hi Hj.
  destruct (assignTeamColors_index _ _ i ti Hlen Hi) as (ki & Hoi & Hki & Hci).
  destruct (assignTeamColors_index _ _ j tj Hlen Hj) as (kj & Hoj & Hkj & Hcj).
  destruct (lookup_lt_is_Some_2 _ _ Hki) as [ci Eci].
  destruct (lookup_lt_is_Some_2 _ _ Hkj) as [cj Ecj].
  exists ci, cj. rewrite Hoi, Hoj, Eci, Ecj. split; [done|]. split; [done|].
  assert (Hk : ci = cj ↔ ki = kj).
  { split; [|intros <-; congruence].
    intros <-. by eapply NoDup_lookup. }
  rewrite Hk. clear Hk.
  destruct (collectTeams_spec playerConfigs) as (Hndt & _ & _).
  pose proof (sortWith_Permutation compareAsStrings (collectTeams playerConfigs).1)
    as Hperm.
  destruct ti as [t|], tj as [t'|].
  - split.
    + intros <-. right. split; [congruence|done].
    + intros Hor. assert (t = t') as <-.
      { destruct Hor as [->|[E _]]; congruence. }
      apply (NoDup_lookup (sortWith compareAsStrings (collectTeams playerConfigs).1)
                          ki kj t); [by rewrite Hperm|done|done].
  - apply lookup_lt_Some in Hci. rewrite Hperm in Hci.
    split; [lia|]. intros [->|[? _]]; congruence.
  - apply lookup_lt_Some in Hcj. rewrite Hperm in Hcj.
    split; [lia|]. intros [->|[? _]]; congruence.
  - split; [|intros [->|[_ ?]]; [lia|done]].
    intros Heq. left. destruct (Nat.lt_trichotomy i j) as [Hlt|[->|Hlt]]; [|done|].
    + pose proof (countNone_take_lt _ i j Hi Hlt). lia.
    + pose proof (countNone_take_lt _ j i Hj Hlt). lia.
Qed.

Lemma assignTeamColors_spec_witness :
  length (assignTeamColors sampleConfigs sampleColors) = length sampleConfigs
  ∧ ∀ i j ti tj,
      sampleConfigs !! i = Some ti → sampleConfigs !! j = Some tj →
      ∃ ci cj,
        assignTeamColors sampleConfigs sampleColors !! i = Some (Some ci)
        ∧ assignTeamColors sampleConfigs sampleColors !! j = Some (Some cj)
        ∧ (ci = cj ↔ i = j ∨ (ti = tj ∧ ti ≠ None)).
Proof.
  apply (assignTeamColors_spec sampleConfigs sampleColors).
  - vm_compute. reflexivity.
  - repeat (apply NoDup_cons_2;
            [rewrite ?not_elem_of_cons; repeat split;
             first [discriminate | apply not_elem_of_nil]|]).
    apply NoDup_nil_2.
Defined.

(** ** The Offensive AI and immediate wins *)

Lemma friendly_ally g p q x : friendly g q p → friendly g q x → ally g p x.
Proof. unfold friendly, ally. naive_solver congruence. Qed.

Lemma ally_friendly g p q x :
  teamCollaboration g = true ∨ teamAt g p = None →
  ally g p q → ally g p x → friendly g q x.
Proof. unfold friendly, ally. naive_solver congruence. Qed.

Lemma direction_step_zero dr dc z :
  In (dr, dc) directions → dr * z = 0 → dc * z = 0 → z = 0.
Proof.
  intros Hd H1 H2. simpl in Hd.
  destruct Hd as [[= <- <-]|[[= <- <-]|[[= <- <-]|[[= <- <-]|[]]]]]; lia.
Qed.

(** On a board without a completed run, a move after which [checkWin] reports
    a win completes a line of cells that [evaluateMove] counts. *)
Lemma wouldWin_completes g p m :
  wf g → 1 ≤ winLength g → (p < length (players g))%nat →
  ¬ hasRun g (Z.to_nat (winLength g)) →
  outOfBounds g m.1 m.2 = false →
  wouldWin g p m → completes g p m.
Proof.
  intros (Hd & Hv & _) Hwl Hp Hno Hin [w Hw]. destruct m as [mr mc].
  cbn [fst snd] in *.
  set (g' := set_board g (setCell (board g) mr mc (Some p))) in *.
  assert (Hv' : cells_valid g').
  { apply setCell_cells_valid; [done|]. by intros ? [= <-]. }
  destruct (checkWin_report g' w Hv' Hwl Hw)
    as (row & col & [dr dc] & Hdin & _ & Hrun & _).
  change (winLength g') with (winLength g) in Hrun. cbn [fst snd] in Hrun.
  set (q := win_playerIndex w) in *.
  set (n := Z.to_nat (winLength g)) in *.
  assert (Hn : (0 < n)%nat) by (unfold n; lia).
  destruct (decide (Exists (fun j : nat =>
              (row + dr * Z.of_nat j, col + dc * Z.of_nat j) = (mr, mc))
              (seq 0 n))) as [Hex|Hnex].
  - apply Exists_exists in Hex as (j0 & Hj0 & Hm). apply elem_of_seq in Hj0.
    injection Hm as Hmr Hmc.
    assert (Hqp : friendly g q p).
    { destruct (Hrun j0 ltac:(lia)) as [(_ & x & Hx & Hf) _].
      change (board g') with (setCell (board g) mr mc (Some p)) in Hx.
      rewrite Hmr, Hmc, getCell_setCell_eq in Hx by done.
      injection Hx as <-. exact Hf. }
    assert (Hcell : ∀ j : nat, (j < n)%nat → j ≠ j0 →
              outOfBounds g (row + dr * Z.of_nat j) (col + dc * Z.of_nat j) = false
              ∧ ∃ x, getCell (board g) (row + dr * Z.of_nat j)
                             (col + dc * Z.of_nat j) = Some x
                     ∧ ally g p x).
    { intros j Hj Hne. destruct (Hrun j Hj) as [(Hinj & x & Hx & Hf) _].
      split; [exact Hinj|]. exists x. split; [|by eapply friendly_ally].
      change (board g') with (setCell (board g) mr mc (Some p)) in Hx.
      rewrite getCell_setCell_ne in Hx; [done|].
      rewrite <- Hmr, <- Hmc. intros [= E1 E2]. apply Hne.
      assert (Z.of_nat j0 - Z.of_nat j = 0); [|lia].
      apply (direction_step_zero dr dc); [done|lia..]. }
    exists (dr, dc). split; [done|]. exists j0. split; [lia|].
    cbn [fst snd]. unfold heldAt. split; intros j Hj.
    + replace (mr + dr * Z.of_nat j * -1) with (row + dr * Z.of_nat (j0 - j))
        by (rewrite Nat2Z.inj_sub by lia; lia).
      replace (mc + dc * Z.of_nat j * -1) with (col + dc * Z.of_nat (j0 - j))
        by (rewrite Nat2Z.inj_sub by lia; lia).
      apply Hcell; lia.
    + replace (mr + dr * Z.of_nat j * 1) with (row + dr * Z.of_nat (j0 + j))
        by (rewrite Nat2Z.inj_add; lia).
      replace (mc + dc * Z.of_nat j * 1) with (col + dc * Z.of_nat (j0 + j))
        by (rewrite Nat2Z.inj_add; lia).
      apply Hcell; lia.
  - exfalso. apply Hno. exists q, row, col, (dr, dc). split; [done|].
    assert (Hother : ∀ j : nat, (j < n)%nat →
              (mr, mc) ≠ (row + dr * Z.of_nat j, col + dc * Z.of_nat j)).
    { intros j Hj E. apply Hnex, Exists_exists. exists j.
      split; [apply elem_of_seq; lia|done]. }
    intros j Hj. cbn [fst snd]. destruct (Hrun j Hj) as [(Hinj & x & Hx & Hf) H0].
    split.
    + split; [exact Hinj|]. exists x. split; [|exact Hf].
      change (board g') with (setCell (board g) mr mc (Some p)) in Hx.
      rewrite getCell_setCell_ne in Hx by (by apply Hother). done.
    + intros Hj0. specialize (H0 Hj0).
      change (board g') with (setCell (board g) mr mc (Some p)) in H0.
      rewrite getCell_setCell_ne in H0; [done|].
      pose proof (Hother 0%nat Hn) as Hne.
      by rewrite !Z.mul_0_r, !Z.add_0_r in Hne.
Qed.

(** With team collaboration, or for a player without a team, a move that
    completes a line of cells that [evaluateMove] counts makes [checkWin]
    report a win. *)
Lemma completes_wouldWin g p m :
  wf g → 1 ≤ winLength g → (p < length (players g))%nat →
  teamCollaboration g = true ∨ teamAt g p = None →
  outOfBounds g m.1 m.2 = false →
  completes g p m → wouldWin g p m.
Proof.
  intros (Hd & Hv & _) Hwl Hp Hteam Hin ([dr dc] & Hdin & k & Hk & Hback & Hfwd).
  destruct m as [mr mc]. cbn [fst snd] in *. unfold wouldWin. cbn [fst snd].
  set (g' := set_board g (setCell (board g) mr mc (Some p))).
  assert (Hv' : cells_valid g').
  { apply setCell_cells_valid; [done|]. by intros ? [= <-]. }
  destruct (checkWin_spec g' Hv' Hwl) as (r & Hr & Hspec).
  destruct r as [w|]; [by exists w|]. exfalso. apply Hspec.
  change (winLength g') with (winLength g).
  set (n := Z.to_nat (winLength g)).
  assert (Hcell : ∀ j : nat, (j < n)%nat →
            outOfBounds g (mr + dr * (Z.of_nat j - Z.of_nat k))
                        (mc + dc * (Z.of_nat j - Z.of_nat k)) = false
            ∧ ∃ x, getCell (board g') (mr + dr * (Z.of_nat j - Z.of_nat k))
                           (mc + dc * (Z.of_nat j - Z.of_nat k)) = Some x
                   ∧ ally g p x).
  { intros j Hj. unfold n in Hj.
    change (board g') with (setCell (board g) mr mc (Some p)).
    assert (Hne : j ≠ k →
              (mr, mc) ≠ (mr + dr * (Z.of_nat j - Z.of_nat k),
                          mc + dc * (Z.of_nat j - Z.of_nat k))).
    { intros Hjk [= E1 E2].
      assert (Z.of_nat j - Z.of_nat k = 0); [|lia].
      apply (direction_step_zero dr dc); [done|lia..]. }
    destruct (Nat.lt_trichotomy j k) as [Hlt|[->|Hgt]].
    - destruct (Hback (k - j)%nat ltac:(lia)) as (Hi & x & Hx & Ha).
      replace (mr + dr * Z.of_nat (k - j) * -1)
        with (mr + dr * (Z.of_nat j - Z.of_nat k)) in Hi, Hx
        by (rewrite Nat2Z.inj_sub by lia; lia).
      replace (mc + dc * Z.of_nat (k - j) * -1)
        with (mc + dc * (Z.of_nat j - Z.of_nat k)) in Hi, Hx
        by (rewrite Nat2Z.inj_sub by lia; lia).
      split; [done|]. exists x. split; [|done].
      rewrite getCell_setCell_ne by (apply Hne; lia). done.
    - rewrite Z.sub_diag, !Z.mul_0_r, !Z.add_0_r. split; [done|].
      exists p. split; [by apply getCell_setCell_eq|by left].
    - destruct (Hfwd (j - k)%nat ltac:(lia)) as (Hi & x & Hx & Ha).
      replace (mr + dr * Z.of_nat (j - k) * 1)
        with (mr + dr * (Z.of_nat j - Z.of_nat k)) in Hi, Hx
        by (rewrite Nat2Z.inj_sub by lia; lia).
      replace (mc + dc * Z.of_nat (j - k) * 1)
        with (mc + dc * (Z.of_nat j - Z.of_nat k)) in Hi, Hx
        by (rewrite Nat2Z.inj_sub by lia; lia).
      split; [done|]. exists x. split; [|done].
      rewrite getCell_setCell_ne by (apply Hne; lia). done. }
  assert (Hn : (0 < n)%nat) by (unfold n; lia).
  destruct (Hcell 0%nat Hn) as (_ & q & Hq & Haq).
  exists q, (mr - dr * Z.of_nat k), (mc - dc * Z.of_nat k), (dr, dc).
  split; [done|]. cbn [fst snd]. intros j Hj. split.
  - destruct (Hcell j Hj) as (Hi & x & Hx & Hax). unfold continues.
    replace (mr - dr * Z.of_nat k + dr * Z.of_nat j)
      with (mr + dr * (Z.of_nat j - Z.of_nat k)) by lia.
    replace (mc - dc * Z.of_nat k + dc * Z.of_nat j)
      with (mc + dc * (Z.of_nat j - Z.of_nat k)) by lia.
    split; [exact Hi|]. exists x. split; [exact Hx|].
    by apply (ally_friendly g p q x).
  - intros _.
    replace (mr - dr * Z.of_nat k) with (mr + dr * (Z.of_nat 0 - Z.of_nat k)) by lia.
    replace (mc - dc * Z.of_nat k) with (mc + dc * (Z.of_nat 0 - Z.of_nat k)) by lia.
    exact Hq.
Qed.

(** With [winLength = 4], team collaboration enabled or a moving player
    without a team, and no completed run on the board: when exactly one legal
    move is an immediate win for the player, that is [checkWin] reports a win
    once the piece is placed, the Offensive AI returns that move;
    [evaluateMove] scores it 1000 and every other legal move between 1 and
    27. *)
Theorem offensive_takes_real_win g p m rnd :
  wf g → winLength g = 4 → (p < length (players g))%nat →
  teamCollaboration g = true ∨ teamAt g p = None →
  ¬ hasRun g 4 →
  In m (AIStrategy.getValidMoves g) → wouldWin g p m →
  (∀ m', In m' (AIStrategy.getValidMoves g) → wouldWin g p m' → m' = m) →
  OffensiveAI.getMove g p rnd = Ret (Some m)
  ∧ OffensiveAI.evaluateMove g m p = Ret 1000
  ∧ ∀ m', In m' (AIStrategy.getValidMoves g) → m' ≠ m →
          ∃ s, OffensiveAI.evaluateMove g m' p = Ret s ∧ 1 ≤ s ≤ 27.
Proof.
  intros Hwf Hwl Hp Hteam Hno Hin Hwin Huniq.
  assert (Hfree : ∀ m', In m' (AIStrategy.getValidMoves g) →
            outOfBounds g m'.1 m'.2 = false).
  { intros [r c] H. by apply In_getValidMoves in H as [? _]. }
  apply offensive_picks_completion; [done..| |].
  - apply wouldWin_completes; [done|lia|done| |by apply Hfree|done].
    by rewrite Hwl.
  - intros m' Hin' Hc. apply Huniq; [done|].
    apply completes_wouldWin; [done|lia|done|done|by apply Hfree|done].
Qed.

Lemma offenseGame_no_run : ¬ hasRun offenseGame 4.
Proof.
  destruct (checkWin_spec offenseGame) as (r & Hr & Hspec);
    [by destruct offenseGame_wf as (_ & ? & _)|vm_compute; discriminate|].
  vm_compute in Hr. injection Hr as <-. exact Hspec.
Qed.

Lemma offenseGame_one_win m' :
  In m' (AIStrategy.getValidMoves offenseGame) → wouldWin offenseGame 0 m' →
  m' = (2, 3).
Proof.
  intros Hin [w Hw]. vm_compute in Hin.
  repeat (destruct Hin as [<-|Hin];
          [first [reflexivity|vm_compute in Hw; discriminate]|]).
  destruct Hin.
Qed.

Lemma offensive_takes_real_win_witness :
  OffensiveAI.getMove offenseGame 0 0 = Ret (Some (2, 3))
  ∧ OffensiveAI.evaluateMove offenseGame (2, 3) 0 = Ret 1000
  ∧ ∀ m', In m' (AIStrategy.getValidMoves offenseGame) → m' ≠ (2, 3) →
          ∃ s, OffensiveAI.evaluateMove offenseGame m' 0 = Ret s ∧ 1 ≤ s ≤ 27.
Proof.
  apply (offensive_takes_real_win offenseGame 0 (2, 3) 0).
  - exact offenseGame_wf.
  - reflexivity.
  - vm_compute. lia.
  - left. reflexivity.
  - exact offenseGame_no_run.
  - vm_compute. auto 10.
  - eexists. vm_compute. reflexivity.
  - exact offenseGame_one_win.
Defined.
